(** * archaeologist: the browser-extension storage engine

    A shallow embedding of [archaeologist/src/storage_api_browser_ext.ts]:
    the typed key/value layer [YekLavStore] over [browser.storage] and the
    node, edge, association, ingestion and iterator operations built on it.

    Asynchronous functions are modelled as state transformers over a
    [World] (the substrate's content, the trace of substrate writes, the
    random-id supply, the clock and the emitted node events) that either
    return a value or throw; a throw keeps every effect that happened
    before it, as in the source. *)

From Stdlib Require Import ZArith Lia.
From stdpp Require Import base option list strings pretty gmap sorting.

Local Open Scope Z_scope.
Local Open Scope list_scope.

(** ** Types imported from [smuggler-api] and [armoury]

    Their declarations are not part of this package; the engine only moves
    them around, so they stay abstract.  [hashToString] is the string that
    ['prefix' + key.id] produces for an origin hash (a number: different
    hashes print differently), and [pipeline_key] is the field of a pipeline
    id that [stringify] reads. *)
Class SmugglerTypes : Type := {
  OriginHash : Type;
  OriginHash_eq_dec :: EqDecision OriginHash;
  hashToString : OriginHash → string;
  hashToString_inj :: Inj (=) (=) hashToString;
  UserExternalPipelineId : Type;
  pipeline_key : UserExternalPipelineId → string;
  NodeTextData : Type;
  NodeExtattrs : Type;
  NodeIndexText : Type;
  NodeType : Type;
  NodeType_Text : NodeType;
  NodeCreatedVia : Type;
  autoIngestion : NodeCreatedVia → option UserExternalPipelineId;
  UserExternalAssociationType : Type;
  ResourceVisit : Type;
  ResourceAttention : Type;
  NodeSimilaritySearchInfo : Type;
  AccountInfo : Type;
}.

Definition Nid := string.
Definition Eid := string.

Inductive Kind :=
| K_all_nids | K_nid_node | K_origin_nid | K_nid_edge | K_origin_activity
| K_ext_pipe_progress | K_ext_pipe_nid | K_origin_ext_assoc
| K_nid_sim_search_node | K_account_info.

#[global] Instance Kind_eq_dec : EqDecision Kind.
Proof. solve_decision. Defined.

Inductive Direction := DirFrom | DirTo.

#[global] Instance Direction_eq_dec : EqDecision Direction.
Proof. solve_decision. Defined.

Section DataModel.
Context `{ST : SmugglerTypes}.

Record OriginId := { id : OriginHash }.

Record NodeTag := { tag_nid : Nid; tag_created_at : Z }.

Record TNodeJson := {
  nid : Nid;
  ntype : NodeType;
  text : NodeTextData;
  extattrs : option NodeExtattrs;
  index_text : option NodeIndexText;
  created_at : Z;
  updated_at : Z;
}.

Record Auxiliary := {
  aux_origin : option OriginId;
  aux_created_via : option NodeCreatedVia;
}.

Record TEdgeJson := {
  eid : Eid;
  from_nid : Nid;
  to_nid : Nid;
  crtd : Z;
  upd : Z;
  is_sticky : bool;
}.

Record OriginToExtAssociationValue := {
  direction : Direction;
  other : OriginId;
  association : UserExternalAssociationType;
}.

Record ActivityValue := {
  visits : list (ResourceVisit * option UserExternalPipelineId);
  attentions : list ResourceAttention;
  total_seconds_of_attention : Z;
}.

(** The value stored by [advanceUserIngestionProgress] is the whole progress
    object, [epid] included. *)
Record UserExternalPipelineIngestionProgress := {
  epid : UserExternalPipelineId;
  ingested_until : Z;
}.

(** [Yek]: the union of the typed keys. *)
Inductive Yek :=
| AllNidsYek
| NidToNodeYek (key : Nid)
| OriginToNidYek (key : OriginId)
| NidToEdgeYek (key : Nid)
| OriginToActivityYek (key : OriginId)
| ExtPipelineYek (key : UserExternalPipelineId)
| ExtPipelineToNidYek (key : UserExternalPipelineId)
| OriginToExtAssociationYek (key : OriginId)
| NidToNodeSimilaritySearchInfoYek (key : Nid)
| UserAccountInfoYek.

(** [Lav]: the union of the typed values; the constructor is the [kind]
    discriminant, its arguments are [value] (and [auxiliary]). *)
Inductive Lav :=
| AllNidsLav (value : list NodeTag)
| NidToNodeLav (value : TNodeJson) (auxiliary : Auxiliary)
| OriginToNidLav (value : list Nid)
| NidToEdgeLav (value : list TEdgeJson)
| OriginToActivityLav (value : ActivityValue)
| ExtPipelineLav (value : UserExternalPipelineIngestionProgress)
| ExtPipelineToNidLav (value : list Nid)
| OriginToExtAssociationLav (value : list OriginToExtAssociationValue)
| NidToNodeSimilaritySearchInfoLav (value : NodeSimilaritySearchInfo)
| UserAccountInfoLav (value : AccountInfo).

Definition yek_kind (yek : Yek) : Kind :=
  match yek with
  | AllNidsYek => K_all_nids
  | NidToNodeYek _ => K_nid_node
  | OriginToNidYek _ => K_origin_nid
  | NidToEdgeYek _ => K_nid_edge
  | OriginToActivityYek _ => K_origin_activity
  | ExtPipelineYek _ => K_ext_pipe_progress
  | ExtPipelineToNidYek _ => K_ext_pipe_nid
  | OriginToExtAssociationYek _ => K_origin_ext_assoc
  | NidToNodeSimilaritySearchInfoYek _ => K_nid_sim_search_node
  | UserAccountInfoYek => K_account_info
  end.

Definition lav_kind (lav : Lav) : Kind :=
  match lav with
  | AllNidsLav _ => K_all_nids
  | NidToNodeLav _ _ => K_nid_node
  | OriginToNidLav _ => K_origin_nid
  | NidToEdgeLav _ => K_nid_edge
  | OriginToActivityLav _ => K_origin_activity
  | ExtPipelineLav _ => K_ext_pipe_progress
  | ExtPipelineToNidLav _ => K_ext_pipe_nid
  | OriginToExtAssociationLav _ => K_origin_ext_assoc
  | NidToNodeSimilaritySearchInfoLav _ => K_nid_sim_search_node
  | UserAccountInfoLav _ => K_account_info
  end.

Definition isOfArrayKind (lav : Lav) : bool :=
  match lav with
  | OriginToNidLav _ | NidToEdgeLav _ | AllNidsLav _
  | ExtPipelineToNidLav _ | OriginToExtAssociationLav _ => true
  | _ => false
  end.

Record YekLav := { yek : Yek; lav : Lav }.

(** ** Errors, events and the world *)

Inductive Error :=
| SetMismatchingKinds (key_kind value_kind : Kind)
| SetDuplicateKey (key : string)
| AppendMismatchingKinds (key_kind value_kind : Kind)
| AppendNotArray
| RemovalNotArray
| NodeNotFound (nid : Nid)
| IteratorNodeNotFound (nid : Nid)
| AssociationInconsistent (from to : OriginHash)
(** The record found under a key does not have the shape that the
    overload of [get] used at the call site casts it to.  The source has no
    check there; the model stops instead of guessing. *)
| UncheckedCast (key : string).

Inductive NodeEventRecord :=
| EventCreated (nid : Nid) (text : NodeTextData)
    (index_text : option NodeIndexText) (extattrs : option NodeExtattrs)
    (ntype : NodeType)
| EventWillDelete (nid : Nid).

(** One call of [browser.Storage.StorageArea] that changes the substrate. *)
Inductive SubstrateCall :=
| StorageSet (records : list (string * Lav))
| StorageRemove (keys : list string).

Record World := {
  storage : gmap string Lav;
  calls : list SubstrateCall;
  drawn : nat;
  clock : Z;
  events : list NodeEventRecord;
}.

Inductive Outcome (A : Type) :=
| Returned (a : A)
| Thrown (e : Error).
Global Arguments Returned {A} a.
Global Arguments Thrown {A} e.

Definition Promise (A : Type) : Type := World → Outcome A * World.

Definition resolve {A} (a : A) : Promise A := fun w => (Returned a, w).
Definition throw {A} (e : Error) : Promise A := fun w => (Thrown e, w).
Definition await {A B} (m : Promise A) (k : A → Promise B) : Promise B :=
  fun w =>
    match m w with
    | (Returned a, w') => k a w'
    | (Thrown e, w') => (Thrown e, w')
    end.

End DataModel.

Notation "'let*' x ':=' m 'in' k" := (await m (fun x => k))
  (at level 10, x pattern, m at level 100, k at level 200).

(** ** Helpers imported from [smuggler-api], [uuid] and [armoury]

    [NodeUtil.fromJson] is kept abstract.  [generateNid] repacks a random
    UUID; [uuid_base36 n] is the string its [n]-th call in a run returns.
    Nothing is assumed about the strings drawn. *)
Class SmugglerRuntime `{ST : SmugglerTypes} : Type := {
  TNode : Type;
  NodeUtil_fromJson : TNodeJson → TNode;
  uuid_base36 : nat → Nid;
}.

Section WorldUpdates.
Context `{ST : SmugglerTypes}.

(** [browser.storage]'s [set(records)] writes every property of [records]
    (their keys are distinct) and leaves the other keys alone; its
    [remove(keys)] deletes the keys given, absent ones included.  Both are
    logged. *)
Definition substrate_set (records : list (string * Lav)) (w : World) : World :=
  {| storage := list_to_map records ∪ storage w;
     calls := calls w ++ [StorageSet records];
     drawn := drawn w; clock := clock w; events := events w |}.

Definition substrate_remove (keys : list string) (w : World) : World :=
  {| storage := foldr delete (storage w) keys;
     calls := calls w ++ [StorageRemove keys];
     drawn := drawn w; clock := clock w; events := events w |}.

(** [NodeEvent.registerEvent], [unixtime.now()]. *)
Definition registerEvent (e : NodeEventRecord) : Promise unit :=
  fun w =>
    (Returned tt,
     {| storage := storage w; calls := calls w; drawn := drawn w;
        clock := clock w; events := events w ++ [e] |}).

Definition unixtime_now : Promise Z := fun w => (Returned (clock w), w).

(** [for (const x of xs) out.push(await f(x))] *)
Fixpoint for_await {A B} (f : A → Promise B) (xs : list A)
  : Promise (list B) :=
  match xs with
  | [] => resolve []
  | x :: rest =>
      let* y := f x in
      let* ys := for_await f rest in
      resolve (y :: ys)
  end.

End WorldUpdates.

(** ** [class YekLavStore] *)
Module YekLavStore.
Section YekLavStore.
Context `{ST : SmugglerTypes}.

Definition stringify (yek : Yek) : string :=
  match yek with
  | AllNidsYek => "all-nids"
  | NidToNodeYek key => "nid->node:" +:+ key
  | OriginToNidYek key => "origin->nid:" +:+ hashToString (id key)
  | NidToEdgeYek key => "nid->edge:" +:+ key
  | OriginToActivityYek key => "origin->activity:" +:+ hashToString (id key)
  | ExtPipelineYek key => "ext-pipe:" +:+ pipeline_key key
  | ExtPipelineToNidYek key => "ext-pipe-id->nid:" +:+ pipeline_key key
  | OriginToExtAssociationYek key =>
      "origin->ext-assoc:" +:+ hashToString (id key)
  | NidToNodeSimilaritySearchInfoYek key => "nid->sim-search-node:" +:+ key
  | UserAccountInfoYek => "account-info"
  end.

(** The second loop of [set]: [records] is the object built so far, in
    insertion order. *)
Fixpoint set_records (items : list YekLav) (records : list (string * Lav))
  : Error + list (string * Lav) :=
  match items with
  | [] => inr records
  | item :: rest =>
      let key := stringify (yek item) in
      if decide (key ∈ records.*1) then inl (SetDuplicateKey key)
      else set_records rest (records ++ [(key, lav item)])
  end.

Definition set (items : list YekLav) : Promise unit :=
  match
    List.find
      (fun item =>
         bool_decide (yek_kind (yek item) ≠ lav_kind (lav item))) items
  with
  | Some item =>
      throw (SetMismatchingKinds (yek_kind (yek item)) (lav_kind (lav item)))
  | None =>
      match set_records items [] with
      | inl e => throw e
      | inr records => fun w => (Returned tt, substrate_set records w)
      end
  end.

(** [get(yek: Yek)]: the single-key form. *)
Definition get (yek : Yek) : Promise (option Lav) :=
  fun w => (Returned (storage w !! stringify yek), w).

(** [Map.prototype.set]: a present key keeps its position. *)
Fixpoint Map_set {V} (key : string) (v : V) (m : list (string * V))
  : list (string * V) :=
  match m with
  | [] => [(key, v)]
  | (k, v') :: rest =>
      if decide (k = key) then (k, v) :: rest
      else (k, v') :: Map_set key v rest
  end.

Definition keyToYek (yeks : list Yek) : list (string * Yek) :=
  foldl (fun m singleYek => Map_set (stringify singleYek) singleYek m)
        [] yeks.

(** [get(yek: Yek[])]: the batch form. *)
Definition get_batch (yeks : list Yek) : Promise (list YekLav) :=
  fun w =>
    (Returned
       (omap (fun '(key, yek) =>
                match storage w !! key with
                | Some lav => Some {| yek := yek; lav := lav |}
                | None => None
                end) (keyToYek yeks)),
     w).

(** [value.concat(appended_lav.lav.value)] with [value] read from [lav];
    [None] where the two are not arrays of one kind. *)
Definition concat_value (lav : option Lav) (appended_lav : Lav)
  : option Lav :=
  match lav, appended_lav with
  | None, AllNidsLav b => Some (AllNidsLav b)
  | None, OriginToNidLav b => Some (OriginToNidLav b)
  | None, NidToEdgeLav b => Some (NidToEdgeLav b)
  | None, ExtPipelineToNidLav b => Some (ExtPipelineToNidLav b)
  | None, OriginToExtAssociationLav b => Some (OriginToExtAssociationLav b)
  | Some (AllNidsLav a), AllNidsLav b => Some (AllNidsLav (a ++ b))
  | Some (OriginToNidLav a), OriginToNidLav b => Some (OriginToNidLav (a ++ b))
  | Some (NidToEdgeLav a), NidToEdgeLav b => Some (NidToEdgeLav (a ++ b))
  | Some (ExtPipelineToNidLav a), ExtPipelineToNidLav b =>
      Some (ExtPipelineToNidLav (a ++ b))
  | Some (OriginToExtAssociationLav a), OriginToExtAssociationLav b =>
      Some (OriginToExtAssociationLav (a ++ b))
  | _, _ => None
  end.

Definition prepareAppend (yek : Yek) (appended_lav : Lav) : Promise YekLav :=
  if decide (yek_kind yek ≠ lav_kind appended_lav) then
    throw (AppendMismatchingKinds (yek_kind yek) (lav_kind appended_lav))
  else
    let* lav := get yek in
    if match lav with Some l => negb (isOfArrayKind l) | None => false end
    then throw AppendNotArray
    else
      match concat_value lav appended_lav with
      | Some new_lav => resolve {| yek := yek; lav := new_lav |}
      | None => throw (UncheckedCast (stringify yek))
      end.

Definition remove (yeks : list Yek) : Promise unit :=
  fun w => (Returned tt, substrate_remove (stringify <$> yeks) w).

(** [lodash.remove(value, pred)] leaves the elements that fail [pred], in
    order.  [criteria.indexOf(x) !== -1] is membership. *)
Definition remove_nids (criteria : list Nid) (value : list Nid) : list Nid :=
  filter (fun nid => nid ∉ criteria) value.

Definition remove_tags (criteria : list Nid) (value : list NodeTag)
  : list NodeTag :=
  filter (fun tag => tag_nid tag ∉ criteria) value.

Definition remove_edges (criteria : list Nid) (value : list TEdgeJson)
  : list TEdgeJson :=
  filter (fun edge => ¬ (from_nid edge ∈ criteria ∨ to_nid edge ∈ criteria))
         value.

(** The [switch] of [prepareRemoval] on the value read ([[]] when absent);
    [None] where the value is not an array of the key's kind. *)
Definition removal_value (yek : Yek) (lav : option Lav) (criteria : list Nid)
  : option Lav :=
  match yek, lav with
  | AllNidsYek, None => Some (AllNidsLav [])
  | AllNidsYek, Some (AllNidsLav v) => Some (AllNidsLav (remove_tags criteria v))
  | OriginToNidYek _, None => Some (OriginToNidLav [])
  | OriginToNidYek _, Some (OriginToNidLav v) =>
      Some (OriginToNidLav (remove_nids criteria v))
  | NidToEdgeYek _, None => Some (NidToEdgeLav [])
  | NidToEdgeYek _, Some (NidToEdgeLav v) =>
      Some (NidToEdgeLav (remove_edges criteria v))
  | ExtPipelineToNidYek _, None => Some (ExtPipelineToNidLav [])
  | ExtPipelineToNidYek _, Some (ExtPipelineToNidLav v) =>
      Some (ExtPipelineToNidLav v)
  | OriginToExtAssociationYek _, None => Some (OriginToExtAssociationLav [])
  | OriginToExtAssociationYek _, Some (OriginToExtAssociationLav v) =>
      Some (OriginToExtAssociationLav v)
  | _, _ => None
  end.

Definition prepareRemoval (yek : Yek) (criteria : list Nid) : Promise YekLav :=
  let* lav := get yek in
  if match lav with Some l => negb (isOfArrayKind l) | None => false end
  then throw RemovalNotArray
  else
    match removal_value yek lav criteria with
    | Some new_lav => resolve {| yek := yek; lav := new_lav |}
    | None => throw (UncheckedCast (stringify yek))
    end.

End YekLavStore.
End YekLavStore.

(** ** The storage API functions *)
Section StorageApi.
Context `{SR : SmugglerRuntime}.
Import YekLavStore.

Record Ack := { ack : bool }.

Record NodeCreateArgs := {
  args_text : NodeTextData;
  args_from_nid : option (list Nid);
  args_to_nid : option (list Nid);
  args_index_text : option NodeIndexText;
  args_extattrs : option NodeExtattrs;
  args_ntype : option NodeType;
  args_origin : option OriginId;
  args_created_via : option NodeCreatedVia;
  args_created_at : option Z;
}.

Definition generateNid : Promise Nid :=
  fun w =>
    (Returned (uuid_base36 (drawn w)),
     {| storage := storage w; calls := calls w; drawn := S (drawn w);
        clock := clock w; events := events w |}).

Definition generateEid : Promise Eid := generateNid.

(** The typed overloads of [get]: the record is cast, not checked. *)
Definition get_as {A} (yek : Yek) (cast : Lav → option A)
  : Promise (option A) :=
  let* lav := get yek in
  match lav with
  | None => resolve None
  | Some l =>
      match cast l with
      | Some v => resolve (Some v)
      | None => throw (UncheckedCast (stringify yek))
      end
  end.

Definition as_AllNids (l : Lav) : option (list NodeTag) :=
  match l with AllNidsLav v => Some v | _ => None end.
Definition as_NidToNode (l : Lav) : option (TNodeJson * Auxiliary) :=
  match l with NidToNodeLav v a => Some (v, a) | _ => None end.
Definition as_OriginToNid (l : Lav) : option (list Nid) :=
  match l with OriginToNidLav v => Some v | _ => None end.
Definition as_NidToEdge (l : Lav) : option (list TEdgeJson) :=
  match l with NidToEdgeLav v => Some v | _ => None end.
Definition as_ExtPipeline (l : Lav)
  : option UserExternalPipelineIngestionProgress :=
  match l with ExtPipelineLav v => Some v | _ => None end.
Definition as_OriginToExtAssociation (l : Lav)
  : option (list OriginToExtAssociationValue) :=
  match l with OriginToExtAssociationLav v => Some v | _ => None end.

Definition new_edges (mk : Nid → Eid → TEdgeJson) (nids : list Nid)
  : Promise (list TEdgeJson) :=
  for_await (fun n => let* e := generateEid in resolve (mk n e)) nids.

Definition createNode (args : NodeCreateArgs) : Promise Nid :=
  let froms := default [] (args_from_nid args) in
  let tos := default [] (args_to_nid args) in
  let* createdAt :=
    match args_created_at args with
    | Some t => resolve t
    | None => unixtime_now
    end in
  let* new_nid := generateNid in
  let node :=
    {| nid := new_nid;
       ntype := default NodeType_Text (args_ntype args);
       text := args_text args;
       extattrs := args_extattrs args;
       index_text := args_index_text args;
       created_at := createdAt;
       updated_at := createdAt |} in
  let* listed :=
    prepareAppend AllNidsYek
      (AllNidsLav
         [{| tag_nid := nid node; tag_created_at := created_at node |}]) in
  let records :=
    [listed;
     {| yek := NidToNodeYek (nid node);
        lav := NidToNodeLav node
                 {| aux_origin := args_origin args;
                    aux_created_via := args_created_via args |} |}] in
  let* records :=
    match args_origin args with
    | Some origin =>
        let* r := prepareAppend (OriginToNidYek origin)
                    (OriginToNidLav [nid node]) in
        resolve (records ++ [r])
    | None => resolve records
    end in
  let* records :=
    match args_created_via args ≫= autoIngestion with
    | Some epid =>
        let* r := prepareAppend (ExtPipelineToNidYek epid)
                    (ExtPipelineToNidLav [nid node]) in
        resolve (records ++ [r])
    | None => resolve records
    end in
  let* records :=
    if decide (0 < length froms ∨ 0 < length tos)%nat then
      let* from_edges :=
        new_edges
          (fun n e => {| eid := e; from_nid := n; to_nid := nid node;
                         crtd := createdAt; upd := createdAt;
                         is_sticky := false |}) froms in
      let* to_edges :=
        new_edges
          (fun n e => {| eid := e; from_nid := nid node; to_nid := n;
                         crtd := createdAt; upd := createdAt;
                         is_sticky := false |}) tos in
      let own :=
        {| yek := NidToEdgeYek (nid node);
           lav := NidToEdgeLav (from_edges ++ to_edges) |} in
      let* rs_from :=
        for_await
          (fun edge => prepareAppend (NidToEdgeYek (from_nid edge))
                         (NidToEdgeLav [edge])) from_edges in
      let* rs_to :=
        for_await
          (fun edge => prepareAppend (NidToEdgeYek (to_nid edge))
                         (NidToEdgeLav [edge])) to_edges in
      resolve (records ++ [own] ++ rs_from ++ rs_to)
    else resolve records in
  let* _ := set records in
  let* _ :=
    registerEvent
      (EventCreated (nid node) (text node) (index_text node) (extattrs node)
         (ntype node)) in
  resolve (nid node).

Definition getNode (nid : Nid) : Promise TNode :=
  let* lav := get_as (NidToNodeYek nid) as_NidToNode in
  match lav with
  | None => throw (NodeNotFound nid)
  | Some (value, _) => resolve (NodeUtil_fromJson value)
  end.

(** [lavs.map(lav => NodeUtil.fromJson(lav.lav.value))] over the records a
    batch [get] of [NidToNodeYek]s returned. *)
Fixpoint nodes_of (yeklavs : list YekLav) : Promise (list TNode) :=
  match yeklavs with
  | [] => resolve []
  | yl :: rest =>
      match as_NidToNode (lav yl) with
      | Some (value, _) =>
          let* nodes := nodes_of rest in
          resolve (NodeUtil_fromJson value :: nodes)
      | None => throw (UncheckedCast (stringify (yek yl)))
      end
  end.

Definition getNodeBatch (nids : list Nid) : Promise (list TNode) :=
  let yeks := NidToNodeYek <$> nids in
  let* yeklavs := get_batch yeks in
  nodes_of yeklavs.

Definition linkedNids (removedNid : Nid) (edges : list TEdgeJson)
  : list Nid :=
  (fun edge =>
     if decide (from_nid edge = removedNid) then to_nid edge
     else from_nid edge) <$> edges.

Definition prepareNodeRemoval (nids : list Nid)
  : Promise (list Yek * list YekLav) :=
  let toRemove := (NidToNodeYek <$> nids) ++ (NidToEdgeYek <$> nids) in
  let* mirrors :=
    for_await
      (fun removedNid =>
         let* edges := get_as (NidToEdgeYek removedNid) as_NidToEdge in
         for_await
           (fun linkedNid =>
              prepareRemoval (NidToEdgeYek linkedNid) [removedNid])
           (linkedNids removedNid (default [] edges)))
      nids in
  let* listing := prepareRemoval AllNidsYek nids in
  let* by_origin :=
    for_await
      (fun nid =>
         let* node := get_as (NidToNodeYek nid) as_NidToNode in
         match node ≫= (fun na => aux_origin na.2) with
         | Some origin =>
             let* r := prepareRemoval (OriginToNidYek origin) [nid] in
             resolve (Some r)
         | None => resolve None
         end)
      nids in
  resolve
    (toRemove ++ (NidToNodeSimilaritySearchInfoYek <$> nids),
     concat mirrors ++ [listing] ++ omap (fun r => r) by_origin).

Definition deleteNode (nid : Nid) : Promise Ack :=
  let* _ := registerEvent (EventWillDelete nid) in
  let* plan := prepareNodeRemoval [nid] in
  let* _ := remove plan.1 in
  let* _ := set plan.2 in
  resolve {| ack := true |}.

(** [createEdge] returns [EdgeUtil.fromJson(edge)]; the model returns the
    JSON record it is made from. *)
Definition createEdge (from to : Nid) : Promise TEdgeJson :=
  let* createdAt := unixtime_now in
  let* e := generateEid in
  let edge :=
    {| eid := e; from_nid := from; to_nid := to; crtd := createdAt;
       upd := createdAt; is_sticky := false |} in
  let* a := prepareAppend (NidToEdgeYek from) (NidToEdgeLav [edge]) in
  let* b := prepareAppend (NidToEdgeYek to) (NidToEdgeLav [edge]) in
  let* _ := set [a; b] in
  resolve edge.

Definition getUserIngestionProgress (pipeline : UserExternalPipelineId)
  : Promise UserExternalPipelineIngestionProgress :=
  let* lav := get_as (ExtPipelineYek pipeline) as_ExtPipeline in
  match lav with
  | None => resolve {| epid := pipeline; ingested_until := 0 |}
  | Some value =>
      (* [{ epid, ...lav.lav.value }]: the stored fields win *)
      resolve value
  end.

Definition advanceUserIngestionProgress (pipeline : UserExternalPipelineId)
    (new_ingested_until : Z) : Promise Ack :=
  let* progress := getUserIngestionProgress pipeline in
  let progress :=
    {| epid := epid progress; ingested_until := new_ingested_until |} in
  let* _ := set [{| yek := ExtPipelineYek pipeline;
                    lav := ExtPipelineLav progress |}] in
  resolve {| ack := true |}.

(** [tags.sort((a, b) => b.created_at - a.created_at)]: a stable sort. *)
Fixpoint insert_tag (t : NodeTag) (sorted : list NodeTag) : list NodeTag :=
  match sorted with
  | [] => [t]
  | u :: rest =>
      if decide (tag_created_at u ≤ tag_created_at t) then t :: u :: rest
      else u :: insert_tag t rest
  end.

Definition sort_latest_first (tags : list NodeTag) : list NodeTag :=
  foldr insert_tag [] tags.

Definition getAllNids : Promise (list Nid) :=
  let* lav := get_as AllNidsYek as_AllNids in
  match lav with
  | None => resolve []
  | Some tags => resolve (tag_nid <$> sort_latest_first tags)
  end.

(** *** Associations *)

Record ExternalAssociationEnd := {
  origin_hash : OriginHash;
  end_nids : list Nid;
}.

Record ExternalAssociation := {
  assoc_from : ExternalAssociationEnd;
  assoc_to : ExternalAssociationEnd;
  assoc_type : UserExternalAssociationType;
}.

Record GetUserExternalAssociationsResponse := {
  resp_from : list ExternalAssociation;
  resp_to : list ExternalAssociation;
}.

(** [value.every((assoc) => assoc.other.id !== x.id)] *)
Definition every_other_differs (x : OriginId)
    (value : list OriginToExtAssociationValue) : bool :=
  forallb (fun assoc => bool_decide (id (other assoc) ≠ id x)) value.

(** The source also writes a debug line on the first branch; console output
    is not part of the world. *)
Definition recordAssociation (from to : OriginId)
    (association : UserExternalAssociationType) : Promise Ack :=
  let yek := OriginToExtAssociationYek from in
  let reverseYek := OriginToExtAssociationYek to in
  let* lav := get_as yek as_OriginToExtAssociation in
  let* rlav := get_as reverseYek as_OriginToExtAssociation in
  let lav := default [] lav in
  let rlav := default [] rlav in
  if negb (every_other_differs to lav) then resolve {| ack := true |}
  else if negb (every_other_differs from rlav) then
    throw (AssociationInconsistent (id from) (id to))
  else
    let* _ :=
      set [{| yek := yek;
              lav := OriginToExtAssociationLav
                       (lav ++ [{| direction := DirTo; other := to;
                                   association := association |}]) |};
           {| yek := reverseYek;
              lav := OriginToExtAssociationLav
                       (rlav ++ [{| direction := DirFrom; other := from;
                                    association := association |}]) |}] in
    resolve {| ack := true |}.

(** [Map<OriginHash, Nid[]>]: [set] and [get]. *)
Fixpoint originToNids_set (h : OriginHash) (nids : list Nid)
    (m : list (OriginHash * list Nid)) : list (OriginHash * list Nid) :=
  match m with
  | [] => [(h, nids)]
  | (h', v) :: rest =>
      if decide (h' = h) then (h', nids) :: rest
      else (h', v) :: originToNids_set h nids rest
  end.

Fixpoint originToNids_get (h : OriginHash) (m : list (OriginHash * list Nid))
  : option (list Nid) :=
  match m with
  | [] => None
  | (h', v) :: rest =>
      if decide (h' = h) then Some v else originToNids_get h rest
  end.

(** The loop over the batch of [OriginToNidYek]s read in step 2. *)
Fixpoint originToNids_of (yeklavs : list YekLav)
    (m : list (OriginHash * list Nid))
  : Promise (list (OriginHash * list Nid)) :=
  match yeklavs with
  | [] => resolve m
  | yl :: rest =>
      match yek yl, lav yl with
      | OriginToNidYek key, OriginToNidLav value =>
          originToNids_of rest (originToNids_set (id key) value m)
      | _, _ => throw (UncheckedCast (stringify (yek yl)))
      end
  end.

Definition getAssociations (origin : OriginId)
  : Promise GetUserExternalAssociationsResponse :=
  let* lav := get_as (OriginToExtAssociationYek origin)
                as_OriginToExtAssociation in
  let value := default [] lav in
  if decide (length value = 0%nat) then
    resolve {| resp_from := []; resp_to := [] |}
  else
    let yeks :=
      ((fun v => OriginToNidYek (other v)) <$> value)
      ++ [OriginToNidYek origin] in
    let* yeklavs := get_batch yeks in
    let* originToNids := originToNids_of yeklavs [] in
    let makeAssociationEnd h :=
      {| origin_hash := h;
         end_nids := default [] (originToNids_get h originToNids) |} in
    resolve
      {| resp_from :=
           omap (fun a =>
                   match direction a with
                   | DirFrom =>
                       Some {| assoc_from := makeAssociationEnd (id (other a));
                               assoc_to := makeAssociationEnd (id origin);
                               assoc_type := association a |}
                   | DirTo => None
                   end) value;
         resp_to :=
           omap (fun a =>
                   match direction a with
                   | DirTo =>
                       Some {| assoc_from := makeAssociationEnd (id origin);
                               assoc_to := makeAssociationEnd (id (other a));
                               assoc_type := association a |}
                   | DirFrom => None
                   end) value |}.

End StorageApi.

(** ** [class Iterator] *)
Module Iterator.
Section Iterator.
Context `{SR : SmugglerRuntime}.

(** The private fields [nids] and [index]; [store] is the world. *)
Record t := { nids : list Nid; index : nat }.

Definition create : Promise t :=
  let* snapshot := getAllNids in
  resolve {| nids := snapshot; index := 0 |}.

(** [this.index >= nids.length] is [nids !! index = None].  [next] returns
    the node ([None] for [null]) and the iterator after the
    call; a throw leaves the iterator as it was. *)
Definition next (it : t) : Promise (option TNode * t) :=
  match nids it !! index it with
  | None => resolve (None, it)
  | Some nid =>
      let* lav := get_as (NidToNodeYek nid) as_NidToNode in
      match lav with
      | None => throw (IteratorNodeNotFound nid)
      | Some (value, _) =>
          resolve (Some (NodeUtil_fromJson value),
                   {| nids := nids it; index := S (index it) |})
      end
  end.

Definition total (it : t) : nat := index it.

Definition abort (it : t) : t := {| nids := []; index := 0 |}.

End Iterator.
End Iterator.

(** ** The other functions of the storage API

    [EdgeUtil.fromJson] and the [seconds] of a [ResourceAttention] come from
    [smuggler-api]; they stay abstract like the imports above. *)
Class SmugglerExtras `{SR : SmugglerRuntime} : Type := {
  TEdge : Type;
  EdgeUtil_fromJson : TEdgeJson → TEdge;
  attention_seconds : ResourceAttention → Z;
}.

Section MoreStorageApi.
Context `{SX : SmugglerExtras}.
Import YekLavStore.

(** The throws of these functions.  A function that can throw one of them
    returns a sum: [Returned (inl e)] stands for the throw of [e], after
    which, as in the source, nothing more happens. *)
Inductive ApiError :=
| UpdateNodeNotFound (nid : Nid)
| BulkDeleteUnimplementedCriteria (createdVia : NodeCreatedVia)
| InvalidActivityRequest
| UnimplementedEndpoint (endpoint : string).

Definition as_ExtPipelineToNid (l : Lav) : option (list Nid) :=
  match l with ExtPipelineToNidLav v => Some v | _ => None end.
Definition as_OriginToActivity (l : Lav) : option ActivityValue :=
  match l with OriginToActivityLav v => Some v | _ => None end.
Definition as_NidToNodeSimilaritySearchInfo (l : Lav)
  : option NodeSimilaritySearchInfo :=
  match l with NidToNodeSimilaritySearchInfoLav v => Some v | _ => None end.
Definition as_UserAccountInfo (l : Lav) : option AccountInfo :=
  match l with UserAccountInfoLav v => Some v | _ => None end.

Definition getNodesByOrigin (origin : OriginId) : Promise (list TNode) :=
  let* lav := get_as (OriginToNidYek origin) as_OriginToNid in
  match lav with
  | None => resolve []
  | Some value =>
      let nidYeks := NidToNodeYek <$> value in
      let* yeklavs := get_batch nidYeks in
      nodes_of yeklavs
  end.

Record NodeUpdateArgs := {
  update_nid : Nid;
  update_text : option NodeTextData;
  update_index_text : option NodeIndexText;
  preserve_update_time : option bool;
}.

(** The payload of the ['updated'] notification. *)
Record NodeUpdatedEvent := {
  updated_nid : Nid;
  updated_text : option NodeTextData;
  updated_index_text : option NodeIndexText;
}.

(** [updateNode] registers its ['updated'] notification right before it
    returns; the notification is returned with the acknowledgement. *)
Definition updateNode (args : NodeUpdateArgs)
  : Promise (ApiError + Ack * NodeUpdatedEvent) :=
  let yek := NidToNodeYek (update_nid args) in
  let* lav := get_as yek as_NidToNode in
  match lav with
  | None => resolve (inl (UpdateNodeNotFound (update_nid args)))
  | Some (value, auxiliary) =>
      let value :=
        {| nid := nid value; ntype := ntype value;
           text := match update_text args with
                   | Some t => t
                   | None => text value
                   end;
           extattrs := extattrs value;
           index_text := match update_index_text args with
                         | Some t => Some t
                         | None => index_text value
                         end;
           created_at := created_at value;
           updated_at := updated_at value |} in
      let* value :=
        if negb (default false (preserve_update_time args)) then
          let* now := unixtime_now in
          resolve {| nid := nid value; ntype := ntype value;
                     text := text value; extattrs := extattrs value;
                     index_text := index_text value;
                     created_at := created_at value; updated_at := now |}
        else resolve value in
      let* _ := set [{| yek := yek; lav := NidToNodeLav value auxiliary |}] in
      resolve
        (inr ({| ack := true |},
              {| updated_nid := update_nid args;
                 updated_text := update_text args;
                 updated_index_text := update_index_text args |}))
  end.

Definition bulkDeleteNodes (createdVia : NodeCreatedVia)
  : Promise (ApiError + nat) :=
  match autoIngestion createdVia with
  | None => resolve (inl (BulkDeleteUnimplementedCriteria createdVia))
  | Some pipeline =>
      let extPipelineYek := ExtPipelineYek pipeline in
      let extPipelineToNidYek := ExtPipelineToNidYek pipeline in
      let* lav := get_as extPipelineToNidYek as_ExtPipelineToNid in
      let nids := default [] lav in
      let* plan := prepareNodeRemoval nids in
      let* _ := remove (plan.1 ++ [extPipelineYek; extPipelineToNidYek]) in
      let* _ := set plan.2 in
      resolve (inr (length nids))
  end.

Definition getNodeSimilaritySearchInfo (nid : Nid)
  : Promise (option NodeSimilaritySearchInfo) :=
  get_as (NidToNodeSimilaritySearchInfoYek nid)
    as_NidToNodeSimilaritySearchInfo.

Definition setNodeSimilaritySearchInfo (nid : Nid)
    (simsearch : NodeSimilaritySearchInfo) : Promise Ack :=
  let* _ := set [{| yek := NidToNodeSimilaritySearchInfoYek nid;
                    lav := NidToNodeSimilaritySearchInfoLav simsearch |}] in
  resolve {| ack := true |}.

Definition deleteNodeSimilaritySearchInfo (nid : Nid) : Promise Ack :=
  let* _ := remove [NidToNodeSimilaritySearchInfoYek nid] in
  resolve {| ack := true |}.

Record NodeEdges := { from_edges : list TEdge; to_edges : list TEdge }.

Definition getNodeAllEdges (nid : Nid) : Promise NodeEdges :=
  let* lav := get_as (NidToEdgeYek nid) as_NidToEdge in
  let ret := {| from_edges := []; to_edges := [] |} in
  match lav with
  | None => resolve ret
  | Some value =>
      resolve
        (foldl
           (fun ret edge =>
              if decide (to_nid edge = nid) then
                {| from_edges := from_edges ret ++ [EdgeUtil_fromJson edge];
                   to_edges := to_edges ret |}
              else
                {| from_edges := from_edges ret;
                   to_edges := to_edges ret ++ [EdgeUtil_fromJson edge] |})
           ret value)
  end.

(** The [activity] of a request: [visit] and [attention] are each present
    or not. *)
Record ExternalActivity := {
  activity_visit
    : option (list ResourceVisit * option UserExternalPipelineId);
  activity_attention : option ResourceAttention;
}.

Record TotalUserActivity := {
  total_visits : list (ResourceVisit * option UserExternalPipelineId);
  seconds_of_attention : Z;
}.

Definition addExternalUserActivity (origin : OriginId)
    (activity : ExternalActivity) : Promise (ApiError + TotalUserActivity) :=
  let yek := OriginToActivityYek origin in
  let* oldLav := get_as yek as_OriginToActivity in
  let value :=
    default {| visits := []; attentions := [];
               total_seconds_of_attention := 0 |} oldLav in
  let updated :=
    match activity_visit activity with
    | Some (new_visits, reported_by) =>
        Some {| visits :=
                  visits value
                  ++ ((fun visit => (visit, reported_by)) <$> new_visits);
                attentions := attentions value;
                total_seconds_of_attention :=
                  total_seconds_of_attention value |}
    | None =>
        match activity_attention activity with
        | Some attention =>
            Some {| visits := visits value;
                    attentions := attentions value ++ [attention];
                    total_seconds_of_attention :=
                      total_seconds_of_attention value
                      + attention_seconds attention |}
        | None => None
        end
    end in
  match updated with
  | None => resolve (inl InvalidActivityRequest)
  | Some value =>
      let* _ := set [{| yek := yek; lav := OriginToActivityLav value |}] in
      resolve
        (inr {| total_visits := visits value;
                seconds_of_attention := total_seconds_of_attention value |})
  end.

Definition getExternalUserActivity (origin : OriginId)
  : Promise TotalUserActivity :=
  let* lav := get_as (OriginToActivityYek origin) as_OriginToActivity in
  match lav with
  | None => resolve {| total_visits := []; seconds_of_attention := 0 |}
  | Some value =>
      resolve {| total_visits := visits value;
                 seconds_of_attention := total_seconds_of_attention value |}
  end.

Definition getUserAccountInforFromLocalStorage
  : Promise (option AccountInfo) :=
  get_as UserAccountInfoYek as_UserAccountInfo.

Definition setUserAccountInfoToLocalStorage (accountInfo : option AccountInfo)
  : Promise Ack :=
  match accountInfo with
  | Some info =>
      let* _ := set [{| yek := UserAccountInfoYek;
                        lav := UserAccountInfoLav info |}] in
      resolve {| ack := true |}
  | None =>
      let* _ := remove [UserAccountInfoYek] in
      resolve {| ack := true |}
  end.

(** [throwUnimplementedError(endpoint)], behind [node.url], [blob.upload],
    [blob.sourceUrl], [blob_index.build], [edge.sticky] and [edge.delete]. *)
Definition throwUnimplementedError {A} (endpoint : string)
  : Promise (ApiError + A) :=
  resolve (inl (UnimplementedEndpoint endpoint)).

End MoreStorageApi.

(** ** A concrete instance, for running the model *)
Module Sample.

Definition types : SmugglerTypes :=
  {| OriginHash := Z;
     hashToString := pretty;
     hashToString_inj := pretty_Z_inj;
     UserExternalPipelineId := string;
     pipeline_key := fun k => k;
     NodeTextData := string;
     NodeExtattrs := string;
     NodeIndexText := string;
     NodeType := nat;
     NodeType_Text := 0%nat;
     NodeCreatedVia := option string;
     autoIngestion := fun v => v;
     UserExternalAssociationType := string;
     ResourceVisit := Z;
     ResourceAttention := Z;
     NodeSimilaritySearchInfo := string;
     AccountInfo := string |}.
#[export] Existing Instance types.

Definition runtime : SmugglerRuntime :=
  {| TNode := TNodeJson;
     NodeUtil_fromJson := fun json => json;
     uuid_base36 := fun n => "u" +:+ pretty n |}.
#[export] Existing Instance runtime.

Definition empty : World :=
  {| storage := ∅; calls := []; drawn := 0; clock := 1000; events := [] |}.

Definition plain (t : string) (at_ : option Z) : NodeCreateArgs :=
  {| args_text := t; args_from_nid := None; args_to_nid := None;
     args_index_text := None; args_extattrs := None; args_ntype := None;
     args_origin := None; args_created_via := None; args_created_at := at_ |}.

Definition linked (t : string) (froms tos : list Nid) : NodeCreateArgs :=
  {| args_text := t; args_from_nid := Some froms; args_to_nid := Some tos;
     args_index_text := Some "idx"; args_extattrs := Some "ext";
     args_ntype := Some 3%nat; args_origin := Some {| id := 7 |};
     args_created_via := None; args_created_at := None |}.

(** The world after a call, whatever its outcome. *)
Definition after {A} (m : Promise A) (w : World) : World := (m w).2.

(** One node; then a second one created with an edge from the first. *)
Definition world1 : World := after (createNode (plain "a" None)) empty.
Definition world2 : World :=
  after (createNode (linked "b" ["u0"] [])) world1.

(** Three creations, the second with a creation time of its own. *)
Definition requests : list (Z * NodeCreateArgs) :=
  [(1000, plain "a" None); (900, plain "b" (Some 2000));
   (1100, plain "c" None)].

(** Three advances, of two pipelines. *)
Definition pipeline_p : UserExternalPipelineId := "p".
Definition pipeline_q : UserExternalPipelineId := "q".
Definition steps : list (UserExternalPipelineId * Z) :=
  [(pipeline_p, 10); (pipeline_q, 3); (pipeline_p, 5)].

Definition A : OriginId := {| id := 1 |}.
Definition B : OriginId := {| id := 2 |}.

(** The iterator constructed in [world2]. *)
Definition sample_iterator : Iterator.t :=
  {| Iterator.nids := ["u0"; "u1"]; Iterator.index := 0 |}.

Definition with_storage (m : gmap string Lav) : World :=
  {| storage := m; calls := []; drawn := 0; clock := 1000; events := [] |}.

(** Substrates in which one bucket only knows of the pair [A], [B]. *)
Definition forward_only : World :=
  with_storage
    {[ YekLavStore.stringify (OriginToExtAssociationYek A) :=
         OriginToExtAssociationLav
           [{| direction := DirTo; other := B; association := "t" |}] ]}.

Definition reverse_only : World :=
  with_storage
    {[ YekLavStore.stringify (OriginToExtAssociationYek B) :=
         OriginToExtAssociationLav
           [{| direction := DirFrom; other := A; association := "t" |}] ]}.

End Sample.

(** ** Vocabulary of the statements *)
Section Vocabulary.
Context `{ST : SmugglerTypes}.
Import YekLavStore.

Definition mismatched (item : YekLav) : Prop :=
  yek_kind (yek item) ≠ lav_kind (lav item).

Definition keys_of (items : list YekLav) : list string :=
  (fun item => stringify (yek item)) <$> items.

Definition records_of (items : list YekLav) : list (string * Lav) :=
  (fun item => (stringify (yek item), lav item)) <$> items.

(** Every record sits under a key of its own kind.  [set] is the only
    writer and checks the kinds of each pair, so the substrate of the engine
    is always in this state. *)
Definition kinded (w : World) : Prop :=
  ∀ yek lav, storage w !! stringify yek = Some lav →
             lav_kind lav = yek_kind yek.

(** The global listing, the canonical record of a node, the adjacency
    bucket of a node, the index of an origin or of a pipeline, and the
    association bucket of an origin, as stored; an absent array is empty. *)
Definition listing (w : World) : list NodeTag :=
  default [] (storage w !! stringify AllNidsYek ≫= as_AllNids).

Definition node_record (w : World) (nid : Nid)
  : option (TNodeJson * Auxiliary) :=
  storage w !! stringify (NidToNodeYek nid) ≫= as_NidToNode.

Definition bucket (w : World) (nid : Nid) : list TEdgeJson :=
  default [] (storage w !! stringify (NidToEdgeYek nid) ≫= as_NidToEdge).

Definition origin_index (w : World) (origin : OriginId) : list Nid :=
  default [] (storage w !! stringify (OriginToNidYek origin)
              ≫= as_OriginToNid).

Definition pipeline_index (w : World) (pipeline : UserExternalPipelineId)
  : list Nid :=
  default []
    (storage w !! stringify (ExtPipelineToNidYek pipeline)
     ≫= fun l => match l with ExtPipelineToNidLav v => Some v | _ => None end).

Definition associations (w : World) (origin : OriginId)
  : list OriginToExtAssociationValue :=
  default [] (storage w !! stringify (OriginToExtAssociationYek origin)
              ≫= as_OriginToExtAssociation).

(** The world after [n] more calls of [generateNid]. *)
Definition draw (n : nat) (w : World) : World :=
  {| storage := storage w; calls := calls w; drawn := drawn w + n;
     clock := clock w; events := events w |}.

(** [a] may come before [b] in a listing ordered latest first. *)
Definition latest_first (a b : NodeTag) : Prop :=
  tag_created_at b ≤ tag_created_at a.

(** A computation that leaves a kinded world kinded, however it ends. *)
Definition keeps_kinded {A} (m : Promise A) : Prop :=
  ∀ w, kinded w → kinded (m w).2.

End Vocabulary.

Section RunVocabulary.
Context `{SR : SmugglerRuntime}.
Import YekLavStore.

(** What one call of [createNode] computes from its arguments and the world
    it starts in: the creation time, the id drawn for the node, the ids drawn
    for its edges, and the batch handed to [set]. *)
Definition createdAt_of (args : NodeCreateArgs) (w : World) : Z :=
  default (clock w) (args_created_at args).

Definition new_nid_of (w : World) : Nid := uuid_base36 (drawn w).

Definition froms_of (args : NodeCreateArgs) : list Nid :=
  default [] (args_from_nid args).

Definition tos_of (args : NodeCreateArgs) : list Nid :=
  default [] (args_to_nid args).

Definition drawn_ids (start n : nat) : list Eid :=
  uuid_base36 <$> seq start n.

Definition created_node (args : NodeCreateArgs) (w : World) : TNodeJson :=
  {| nid := new_nid_of w;
     ntype := default NodeType_Text (args_ntype args);
     text := args_text args;
     extattrs := args_extattrs args;
     index_text := args_index_text args;
     created_at := createdAt_of args w;
     updated_at := createdAt_of args w |}.

Definition from_edges_of (args : NodeCreateArgs) (w : World)
  : list TEdgeJson :=
  zip_with
    (fun n e => {| eid := e; from_nid := n; to_nid := new_nid_of w;
                   crtd := createdAt_of args w; upd := createdAt_of args w;
                   is_sticky := false |})
    (froms_of args) (drawn_ids (drawn w + 1) (length (froms_of args))).

Definition to_edges_of (args : NodeCreateArgs) (w : World)
  : list TEdgeJson :=
  zip_with
    (fun n e => {| eid := e; from_nid := new_nid_of w; to_nid := n;
                   crtd := createdAt_of args w; upd := createdAt_of args w;
                   is_sticky := false |})
    (tos_of args)
    (drawn_ids (drawn w + 1 + length (froms_of args))
       (length (tos_of args))).

Definition createNode_batch (args : NodeCreateArgs) (w : World)
  : list YekLav :=
  [{| yek := AllNidsYek;
      lav := AllNidsLav
               (listing w ++ [{| tag_nid := new_nid_of w;
                                 tag_created_at := createdAt_of args w |}]) |};
   {| yek := NidToNodeYek (new_nid_of w);
      lav := NidToNodeLav (created_node args w)
               {| aux_origin := args_origin args;
                  aux_created_via := args_created_via args |} |}]
  ++ match args_origin args with
     | Some origin =>
         [{| yek := OriginToNidYek origin;
             lav := OriginToNidLav
                      (origin_index w origin ++ [new_nid_of w]) |}]
     | None => []
     end
  ++ match args_created_via args ≫= autoIngestion with
     | Some pipeline =>
         [{| yek := ExtPipelineToNidYek pipeline;
             lav := ExtPipelineToNidLav
                      (pipeline_index w pipeline ++ [new_nid_of w]) |}]
     | None => []
     end
  ++ if decide (0 < length (froms_of args) ∨ 0 < length (tos_of args))%nat
     then
       [{| yek := NidToEdgeYek (new_nid_of w);
           lav := NidToEdgeLav (from_edges_of args w ++ to_edges_of args w) |}]
       ++ ((fun edge =>
              {| yek := NidToEdgeYek (from_nid edge);
                 lav := NidToEdgeLav (bucket w (from_nid edge) ++ [edge]) |})
             <$> from_edges_of args w)
       ++ ((fun edge =>
              {| yek := NidToEdgeYek (to_nid edge);
                 lav := NidToEdgeLav (bucket w (to_nid edge) ++ [edge]) |})
             <$> to_edges_of args w)
     else [].

Definition created_event (args : NodeCreateArgs) (w : World)
  : NodeEventRecord :=
  EventCreated (new_nid_of w) (args_text args) (args_index_text args)
    (args_extattrs args) (default NodeType_Text (args_ntype args)).

(** The keys of that batch, in order: those that are always distinct, then
    the adjacency buckets. *)
Definition createNode_heads (args : NodeCreateArgs) (w : World) : list Yek :=
  [AllNidsYek; NidToNodeYek (new_nid_of w)]
  ++ match args_origin args with
     | Some origin => [OriginToNidYek origin]
     | None => []
     end
  ++ match args_created_via args ≫= autoIngestion with
     | Some pipeline => [ExtPipelineToNidYek pipeline]
     | None => []
     end.

Definition createNode_yeks (args : NodeCreateArgs) (w : World) : list Yek :=
  createNode_heads args w
  ++ if decide (0 < length (froms_of args) ∨ 0 < length (tos_of args))%nat
     then NidToEdgeYek <$> (new_nid_of w :: froms_of args ++ tos_of args)
     else [].

(** The world a successful [createNode] leaves. *)
Definition createNode_world (args : NodeCreateArgs) (w : World) : World :=
  {| storage := list_to_map (records_of (createNode_batch args w))
                ∪ storage w;
     calls := calls w ++ [StorageSet (records_of (createNode_batch args w))];
     drawn := drawn w + (1 + length (froms_of args) + length (tos_of args));
     clock := clock w;
     events := events w ++ [created_event args w] |}.

(** What [deleteNode] plans for one node: the keys it removes and the
    batch it then hands to [set]. *)
Definition origin_of (w : World) (nid : Nid) : option OriginId :=
  node_record w nid ≫= fun na => aux_origin na.2.

Definition deleteNode_toRemove (nid : Nid) : list Yek :=
  [NidToNodeYek nid; NidToEdgeYek nid; NidToNodeSimilaritySearchInfoYek nid].

Definition deleteNode_toSet (w : World) (nid : Nid) : list YekLav :=
  ((fun linkedNid =>
      {| yek := NidToEdgeYek linkedNid;
         lav := NidToEdgeLav (remove_edges [nid] (bucket w linkedNid)) |})
     <$> linkedNids nid (bucket w nid))
  ++ [{| yek := AllNidsYek;
         lav := AllNidsLav (remove_tags [nid] (listing w)) |}]
  ++ match origin_of w nid with
     | Some origin =>
         [{| yek := OriginToNidYek origin;
             lav := OriginToNidLav
                      (remove_nids [nid] (origin_index w origin)) |}]
     | None => []
     end.

(** The keys of that batch that follow the neighbours' buckets. *)
Definition deleteNode_tail (w : World) (nid : Nid) : list Yek :=
  AllNidsYek :: match origin_of w nid with
                | Some origin => [OriginToNidYek origin]
                | None => []
                end.

(** The world [deleteNode] leaves once the removal is done, before the
    batch is written; and the world it leaves when the batch is accepted. *)
Definition deleteNode_removed (w : World) (nid : Nid) : World :=
  {| storage := foldr delete (storage w)
                  (stringify <$> deleteNode_toRemove nid);
     calls := calls w ++ [StorageRemove (stringify <$> deleteNode_toRemove nid)];
     drawn := drawn w; clock := clock w;
     events := events w ++ [EventWillDelete nid] |}.

Definition deleteNode_world (w : World) (nid : Nid) : World :=
  substrate_set (records_of (deleteNode_toSet w nid))
    (deleteNode_removed w nid).

(** A caller that creates nodes one after the other; [now] is what the
    clock shows when the corresponding call starts. *)
Definition at_time {A} (now : Z) (m : Promise A) : Promise A :=
  fun w =>
    m {| storage := storage w; calls := calls w; drawn := drawn w;
         clock := now; events := events w |}.

Fixpoint createNodes (requests : list (Z * NodeCreateArgs))
  : Promise (list Nid) :=
  match requests with
  | [] => resolve []
  | (now, args) :: rest =>
      let* nid := at_time now (createNode args) in
      let* nids := createNodes rest in
      resolve (nid :: nids)
  end.

(** The listing entries of the nodes so created. *)
Definition tags_of (nids : list Nid) (requests : list (Z * NodeCreateArgs))
  : list NodeTag :=
  zip_with
    (fun nid request =>
       {| tag_nid := nid;
          tag_created_at := default request.1 (args_created_at request.2) |})
    nids requests.

(** The watermark stored for a pipeline ([0] when none is), and a caller
    that advances pipelines one call after the other. *)
Definition watermark (w : World) (pipeline : UserExternalPipelineId) : Z :=
  match storage w !! stringify (ExtPipelineYek pipeline) ≫= as_ExtPipeline with
  | Some value => ingested_until value
  | None => 0
  end.

Fixpoint advances (steps : list (UserExternalPipelineId * Z))
  : Promise unit :=
  match steps with
  | [] => resolve tt
  | (pipeline, mark) :: rest =>
      let* _ := advanceUserIngestionProgress pipeline mark in
      advances rest
  end.

(** The mark of the last step that names the key of [pipeline]. *)
Definition last_mark (pipeline : UserExternalPipelineId)
    (steps : list (UserExternalPipelineId * Z)) (initial : Z) : Z :=
  foldl (fun mark step =>
           if decide (pipeline_key step.1 = pipeline_key pipeline)
           then step.2 else mark) initial steps.

(** The two entries [recordAssociation] appends, and the ends a response
    of [getAssociations] is built from. *)
Definition to_entry (to : OriginId) (association : UserExternalAssociationType)
  : OriginToExtAssociationValue :=
  {| direction := DirTo; other := to; association := association |}.

Definition from_entry (from : OriginId)
    (association : UserExternalAssociationType)
  : OriginToExtAssociationValue :=
  {| direction := DirFrom; other := from; association := association |}.

Definition recordAssociation_batch (w : World) (from to : OriginId)
    (association : UserExternalAssociationType) : list YekLav :=
  [{| yek := OriginToExtAssociationYek from;
      lav := OriginToExtAssociationLav
               (associations w from ++ [to_entry to association]) |};
   {| yek := OriginToExtAssociationYek to;
      lav := OriginToExtAssociationLav
               (associations w to ++ [from_entry from association]) |}].

Definition association_end (w : World) (h : OriginHash)
  : ExternalAssociationEnd :=
  {| origin_hash := h; end_nids := origin_index w {| id := h |} |}.

(** What [getAssociations] answers from a substrate in state [w]. *)
Definition response_of (w : World) (origin : OriginId)
  : GetUserExternalAssociationsResponse :=
  {| resp_from :=
       omap (fun a =>
               match direction a with
               | DirFrom =>
                   Some {| assoc_from := association_end w (id (other a));
                           assoc_to := association_end w (id origin);
                           assoc_type := association a |}
               | DirTo => None
               end) (associations w origin);
     resp_to :=
       omap (fun a =>
               match direction a with
               | DirTo =>
                   Some {| assoc_from := association_end w (id origin);
                           assoc_to := association_end w (id (other a));
                           assoc_type := association a |}
               | DirFrom => None
               end) (associations w origin) |}.

(** An entry of a response that relates [from] to [to]. *)
Definition relates (from to : OriginId)
    (association : UserExternalAssociationType) (x : ExternalAssociation)
  : Prop :=
  origin_hash (assoc_from x) = id from
  ∧ origin_hash (assoc_to x) = id to
  ∧ assoc_type x = association.

(** The entries of a bucket that reference [x]. *)
Definition referencing (x : OriginId)
    (value : list OriginToExtAssociationValue)
  : list OriginToExtAssociationValue :=
  filter (fun assoc => id (other assoc) = id x) value.

(** The ids of a request in the order of their first occurrence, each
    once: the insertion order of the [Map] a batch [get] builds. *)
Definition first_occurrences (nids : list Nid) : list Nid :=
  foldl (fun seen n => if decide (n ∈ seen) then seen else seen ++ [n])
        [] nids.

(** The entry of that [Map] for a node id. *)
Definition keyed (n : Nid) : string * Yek :=
  (stringify (NidToNodeYek n), NidToNodeYek n).

(** The stored JSON of a node, when it has a canonical record. *)
Definition stored_node (w : World) (nid : Nid) : option TNodeJson :=
  fst <$> node_record w nid.

(** The states of an iterator that a caller reaches from [it0] through
    calls of [next] that return, whatever world each call runs in. *)
Inductive advanced_from (it0 : Iterator.t) : Iterator.t → Prop :=
| advanced_refl : advanced_from it0 it0
| advanced_next it w r it' w' :
    advanced_from it0 it →
    Iterator.next it w = (Returned (r, it'), w') →
    advanced_from it0 it'.

End RunVocabulary.

(** ** Vocabulary for the other functions *)
Section MoreVocabulary.
Context `{SX : SmugglerExtras}.
Import YekLavStore.

(** The part of a key that [stringify] prints after the prefix of its
    kind. *)
Definition payload (yek : Yek) : string :=
  match yek with
  | AllNidsYek | UserAccountInfoYek => ""
  | NidToNodeYek key | NidToEdgeYek key
  | NidToNodeSimilaritySearchInfoYek key => key
  | OriginToNidYek key | OriginToActivityYek key
  | OriginToExtAssociationYek key => hashToString (id key)
  | ExtPipelineYek key | ExtPipelineToNidYek key => pipeline_key key
  end.






(** What [prepareNodeRemoval] plans for a list of nodes: the keys to
    remove, and the batch for [set], made of the neighbours' buckets, the
    listing and the origin indexes. *)
Definition removal_toRemove (nids : list Nid) : list Yek :=
  ((NidToNodeYek <$> nids) ++ (NidToEdgeYek <$> nids))
  ++ (NidToNodeSimilaritySearchInfoYek <$> nids).

Definition removal_mirrors (w : World) (nids : list Nid) : list YekLav :=
  concat
    ((fun removedNid =>
        (fun linkedNid =>
           {| yek := NidToEdgeYek linkedNid;
              lav := NidToEdgeLav
                       (remove_edges [removedNid] (bucket w linkedNid)) |})
        <$> linkedNids removedNid (bucket w removedNid)) <$> nids).

Definition removal_by_origin (w : World) (nid : Nid) : option YekLav :=
  match origin_of w nid with
  | Some origin =>
      Some {| yek := OriginToNidYek origin;
              lav := OriginToNidLav
                       (remove_nids [nid] (origin_index w origin)) |}
  | None => None
  end.

Definition removal_toSet (w : World) (nids : list Nid) : list YekLav :=
  removal_mirrors w nids
  ++ [{| yek := AllNidsYek;
         lav := AllNidsLav (remove_tags nids (listing w)) |}]
  ++ omap (removal_by_origin w) nids.

(** The neighbours whose buckets the plan rewrites, one entry per edge of a
    removed node, and the origins whose indexes it rewrites, one entry per
    removed node that has an origin. *)
Definition removal_linked (w : World) (nids : list Nid) : list Nid :=
  concat ((fun removedNid => linkedNids removedNid (bucket w removedNid))
          <$> nids).

Definition removal_origins (w : World) (nids : list Nid) : list OriginId :=
  omap (origin_of w) nids.

(** What [bulkDeleteNodes] removes for a pipeline, the world it leaves once
    the removal is done, and the world it leaves when [set] accepts the
    batch. *)
Definition bulkDelete_toRemove (pipeline : UserExternalPipelineId)
    (nids : list Nid) : list Yek :=
  removal_toRemove nids
  ++ [ExtPipelineYek pipeline; ExtPipelineToNidYek pipeline].

Definition bulkDelete_removed (w : World)
    (pipeline : UserExternalPipelineId) : World :=
  substrate_remove
    (stringify <$> bulkDelete_toRemove pipeline (pipeline_index w pipeline))
    w.

Definition bulkDelete_world (w : World)
    (pipeline : UserExternalPipelineId) : World :=
  substrate_set
    (records_of (removal_toSet w (pipeline_index w pipeline)))
    (bulkDelete_removed w pipeline).

(** A caller that drains an iterator,
    [while ((node = await it.next()) != null) nodes.push(node)], through at
    most [fuel] calls of [next]. *)
Fixpoint drain (fuel : nat) (it : Iterator.t)
  : Promise (list TNode * Iterator.t) :=
  match fuel with
  | O => resolve ([], it)
  | S fuel =>
      let* r := Iterator.next it in
      match r.1 with
      | None => resolve ([], r.2)
      | Some node =>
          let* rest := drain fuel r.2 in
          resolve (node :: rest.1, rest.2)
      end
  end.

(** The calls that the object built by [makeBrowserExtStorageApi] offers,
    and [next] on an iterator it handed out. *)
Inductive ApiCall :=
| NodeGet (nid : Nid)
| NodeGetByOrigin (origin : OriginId)
| NodeGetAllNids
| NodeUpdate (args : NodeUpdateArgs)
| NodeCreate (args : NodeCreateArgs)
| NodeIterate
| NodeIteratorNext (it : Iterator.t)
| NodeDelete (nid : Nid)
| NodeBulkDelete (createdVia : NodeCreatedVia)
| NodeBatchGet (nids : list Nid)
| NodeSimilarityGetIndex (nid : Nid)
| NodeSimilaritySetIndex (nid : Nid) (simsearch : NodeSimilaritySearchInfo)
| NodeSimilarityRemoveIndex (nid : Nid)
| EdgeCreate (from to : Nid)
| EdgeGet (nid : Nid)
| ActivityExternalAdd (origin : OriginId) (activity : ExternalActivity)
| ActivityExternalGet (origin : OriginId)
| ActivityAssociationRecord (from to : OriginId)
    (association : UserExternalAssociationType)
| ActivityAssociationGet (origin : OriginId)
| ExternalIngestionGet (pipeline : UserExternalPipelineId)
| ExternalIngestionAdvance (pipeline : UserExternalPipelineId)
    (ingested_until : Z)
| AccountInfoGet
| AccountInfoSet (accountInfo : option AccountInfo)
| Unimplemented (endpoint : string).

(** How a call ends for its caller, the result forgotten: with no error,
    or with a throw. *)
Definition settle {A} (m : Promise A) (w : World)
  : option (Error + ApiError) * World :=
  match m w with
  | (Returned _, w') => (None, w')
  | (Thrown e, w') => (Some (inl e), w')
  end.

Definition settle_api {A} (m : Promise (ApiError + A)) (w : World)
  : option (Error + ApiError) * World :=
  match m w with
  | (Returned (inr _), w') => (None, w')
  | (Returned (inl e), w') => (Some (inr e), w')
  | (Thrown e, w') => (Some (inl e), w')
  end.

Definition perform (call : ApiCall)
  : World → option (Error + ApiError) * World :=
  match call with
  | NodeGet nid => settle (getNode nid)
  | NodeGetByOrigin origin => settle (getNodesByOrigin origin)
  | NodeGetAllNids => settle getAllNids
  | NodeUpdate args => settle_api (updateNode args)
  | NodeCreate args => settle (createNode args)
  | NodeIterate => settle Iterator.create
  | NodeIteratorNext it => settle (Iterator.next it)
  | NodeDelete nid => settle (deleteNode nid)
  | NodeBulkDelete createdVia => settle_api (bulkDeleteNodes createdVia)
  | NodeBatchGet nids => settle (getNodeBatch nids)
  | NodeSimilarityGetIndex nid => settle (getNodeSimilaritySearchInfo nid)
  | NodeSimilaritySetIndex nid simsearch =>
      settle (setNodeSimilaritySearchInfo nid simsearch)
  | NodeSimilarityRemoveIndex nid =>
      settle (deleteNodeSimilaritySearchInfo nid)
  | EdgeCreate from to => settle (createEdge from to)
  | EdgeGet nid => settle (getNodeAllEdges nid)
  | ActivityExternalAdd origin activity =>
      settle_api (addExternalUserActivity origin activity)
  | ActivityExternalGet origin => settle (getExternalUserActivity origin)
  | ActivityAssociationRecord from to association =>
      settle (recordAssociation from to association)
  | ActivityAssociationGet origin => settle (getAssociations origin)
  | ExternalIngestionGet pipeline => settle (getUserIngestionProgress pipeline)
  | ExternalIngestionAdvance pipeline ingested_until =>
      settle (advanceUserIngestionProgress pipeline ingested_until)
  | AccountInfoGet => settle getUserAccountInforFromLocalStorage
  | AccountInfoSet accountInfo =>
      settle (setUserAccountInfoToLocalStorage accountInfo)
  | Unimplemented endpoint =>
      settle_api (throwUnimplementedError (A := unit) endpoint)
  end.

(** The world after a sequence of calls, each made when the one before it
    has ended, however it ended. *)
Definition run_calls (calls : list ApiCall) (w : World) : World :=
  foldl (fun w call => (perform call w).2) w calls.

(** A computation that, from a kinded world, leaves a kinded world and
    does not stop at an unchecked cast. *)
Definition cast_safe {A} (m : Promise A) : Prop :=
  ∀ w, kinded w →
       kinded (m w).2 ∧ ∀ key, (m w).1 ≠ Thrown (UncheckedCast key).


End MoreVocabulary.

(** ** The sample instance, continued *)
Module MoreSample.
Import Sample.

Definition extras : SmugglerExtras :=
  {| TEdge := TEdgeJson;
     EdgeUtil_fromJson := fun json => json;
     attention_seconds := fun seconds => seconds |}.
#[export] Existing Instance extras.

(** The origin of the second node of [world2]. *)
Definition origin_b : OriginId := {| id := 7 |}.

(** The second node of [world2], as stored, and an update of its text. *)
Definition node_b : TNodeJson :=
  {| nid := "u1"; ntype := 3%nat; text := "b"; extattrs := Some "ext";
     index_text := Some "idx"; created_at := 1000; updated_at := 1000 |}.

Definition aux_b : Auxiliary :=
  {| aux_origin := Some {| id := 7 |}; aux_created_via := None |}.

Definition update_b : NodeUpdateArgs :=
  {| update_nid := "u1"; update_text := Some "b2";
     update_index_text := None; preserve_update_time := None |}.

Definition update_missing : NodeUpdateArgs :=
  {| update_nid := "zz"; update_text := Some "b2";
     update_index_text := None; preserve_update_time := None |}.

(** [world2] with a second edge between its two nodes. *)
Definition world_twice : World := after (createEdge "u0" "u1") world2.

(** Nodes ingested by the pipeline [p]: one, then a second one of the same
    origin. *)
Definition via_p : NodeCreatedVia := Some pipeline_p.

Definition ingested (t : string) : NodeCreateArgs :=
  {| args_text := t; args_from_nid := None; args_to_nid := None;
     args_index_text := None; args_extattrs := None; args_ntype := None;
     args_origin := Some {| id := 7 |}; args_created_via := Some via_p;
     args_created_at := None |}.

Definition world_p1 : World := after (createNode (ingested "c")) world2.
Definition world_p2 : World := after (createNode (ingested "d")) world_p1.


Definition attention (seconds : Z) : ExternalActivity :=
  {| activity_visit := None; activity_attention := Some seconds |}.

Definition nothing : ExternalActivity :=
  {| activity_visit := None; activity_attention := None |}.


(** A sequence of calls. *)
Definition session : list ApiCall :=
  [NodeCreate (plain "a" None); EdgeCreate "u0" "u0"; NodeDelete "u0";
   ActivityExternalAdd A nothing].

End MoreSample.

(** * Properties *)

(** ** The key codec *)
Section KeyCodec.
Context `{ST : SmugglerTypes}.
Import YekLavStore.

Lemma stringify_kind (y1 y2 : Yek) :
  stringify y1 = stringify y2 → yek_kind y1 = yek_kind y2.
Proof.
  destruct y1, y2; simpl; intros E; first [ reflexivity | discriminate E ].
Qed.

Lemma stringify_NidToNode_inj a b :
  stringify (NidToNodeYek a) = stringify (NidToNodeYek b) → a = b.
Proof. simpl. intros E. by simplify_eq. Qed.

Lemma stringify_NidToEdge_inj a b :
  stringify (NidToEdgeYek a) = stringify (NidToEdgeYek b) → a = b.
Proof. simpl. intros E. by simplify_eq. Qed.

#[export] Instance stringify_NidToEdge_Inj :
  Inj (=) (=) (fun n => stringify (NidToEdgeYek n)).
Proof. intros a b. apply stringify_NidToEdge_inj. Qed.

Lemma stringify_OriginToExtAssociation_eq a b :
  stringify (OriginToExtAssociationYek a)
  = stringify (OriginToExtAssociationYek b) ↔ id a = id b.
Proof.
  simpl. split; [|by intros ->].
  intros E. injection E as E. simpl in E. by apply (inj hashToString).
Qed.

End KeyCodec.

(** ** The record store *)
Section RecordStore.
Context `{ST : SmugglerTypes}.
Import YekLavStore.

Lemma records_of_keys items : (records_of items).*1 = keys_of items.
Proof. unfold records_of, keys_of. by rewrite <- list_fmap_compose. Qed.

Lemma find_mismatch_Some items item :
  List.find (fun item => bool_decide (mismatched item)) items = Some item →
  item ∈ items ∧ mismatched item.
Proof.
  intros [Hin Hb]%List.find_some. split.
  - by apply list_elem_of_In.
  - by apply bool_decide_eq_true in Hb.
Qed.


Lemma find_mismatch_None items :
  List.find (fun item => bool_decide (mismatched item)) items = None →
  Forall (fun item => ¬ mismatched item) items.
Proof.
  intros Hnone. apply Forall_forall. intros item Hin Hm.
  apply list_elem_of_In in Hin.
  pose proof (List.find_none _ _ Hnone item Hin) as Hb. simpl in Hb.
  apply bool_decide_eq_false in Hb. contradiction.
Qed.

Lemma set_records_inr items acc :
  NoDup (acc.*1 ++ keys_of items) →
  set_records items acc = inr (acc ++ records_of items).
Proof.
  revert acc. induction items as [|item rest IH]; intros acc Hnd; simpl.
  - by rewrite app_nil_r.
  - apply NoDup_app in Hnd as (Hacc & Hdisj & Hkeys).
    apply NoDup_cons in Hkeys as [Hfresh Hrest].
    destruct (decide _) as [Hin|Hnin].
    + exfalso. apply (Hdisj _ Hin). left.
    + rewrite IH.
      * by rewrite <- app_assoc.
      * rewrite fmap_app, <- app_assoc. simpl.
        apply NoDup_app. repeat split; [done| |by apply NoDup_cons].
        intros k Hk. apply Hdisj. exact Hk.
Qed.

Lemma filter_eq_elem_of {A} `{EqDecision A} (x : A) (l : list A) :
  x ∈ l → (0 < length (filter (x =.) l))%nat.
Proof.
  induction 1 as [|y l Hin IH].
  - rewrite filter_cons_True by done. simpl. lia.
  - rewrite filter_cons. destruct (decide _); simpl; lia.
Qed.

Lemma filter_eq_NoDup {A} `{EqDecision A} (x : A) (l : list A) :
  NoDup l → (length (filter (x =.) l) ≤ 1)%nat.
Proof.
  induction 1 as [|y l Hnin Hnd IH]; [simpl; lia|].
  rewrite filter_cons. destruct (decide _) as [<-|]; [|done].
  simpl. destruct (filter (x =.) l) as [|z rest] eqn:E; [simpl; lia|].
  assert (z ∈ filter (x =.) l) as [<- Hz]%list_elem_of_filter
    by (rewrite E; left).
  contradiction.
Qed.

Lemma filter_eq_fmap_inj {A B} `{EqDecision A, EqDecision B} (f : A → B)
    `{!Inj (=) (=) f} (x : A) (l : list A) :
  length (filter (f x =.) (f <$> l)) = length (filter (x =.) l).
Proof.
  induction l as [|y l IH]; [done|].
  rewrite fmap_cons, !filter_cons.
  destruct (decide (f x = f y)) as [E|Hne], (decide (x = y)) as [E'|Hne'];
    simpl; try congruence.
  by apply (inj f) in E.
Qed.

(** The key reported is one that occurs twice in the batch. *)
Lemma set_records_inl items acc :
  NoDup acc.*1 → ¬ NoDup (acc.*1 ++ keys_of items) →
  ∃ key, set_records items acc = inl (SetDuplicateKey key)
         ∧ (1 < length (filter (key =.) (acc.*1 ++ keys_of items)))%nat.
Proof.
  revert acc. induction items as [|item rest IH]; intros acc Hacc Hdup; simpl.
  - exfalso. apply Hdup. by rewrite app_nil_r.
  - destruct (decide _) as [Hin|Hnin].
    + eexists. split; [reflexivity|].
      rewrite filter_app, length_app, filter_cons_True by done.
      apply (filter_eq_elem_of (stringify (yek item))) in Hin. simpl. lia.
    + destruct (IH (acc ++ [(stringify (yek item), lav item)]))
        as (key & -> & Hkey).
      * rewrite fmap_app. simpl. apply NoDup_app. repeat split; [done| |].
        -- intros k Hk ->%list_elem_of_singleton. contradiction.
        -- apply NoDup_singleton.
      * intros Hnd. apply Hdup. rewrite fmap_app, <- app_assoc in Hnd.
        exact Hnd.
      * exists key. split; [reflexivity|].
        by rewrite fmap_app, <- app_assoc in Hkey.
Qed.

(** [set] on a batch without kind mismatches and without repeated keys. *)
Lemma set_returns items w :
  Forall (fun item => ¬ mismatched item) items →
  NoDup (keys_of items) →
  set items w = (Returned tt, substrate_set (records_of items) w).
Proof.
  intros Hkinds Hnd. unfold set.
  destruct (List.find _ items) as [item|] eqn:Hfind.
  - apply find_mismatch_Some in Hfind as [Hin Hm].
    rewrite Forall_forall in Hkinds. by destruct (Hkinds item Hin).
  - by rewrite (set_records_inr items []).
Qed.

Lemma set_throws_duplicate items w :
  Forall (fun item => ¬ mismatched item) items →
  ¬ NoDup (keys_of items) →
  ∃ key, set items w = (Thrown (SetDuplicateKey key), w)
         ∧ (1 < length (filter (key =.) (keys_of items)))%nat.
Proof.
  intros Hkinds Hdup. unfold set.
  destruct (List.find _ items) as [item|] eqn:Hfind.
  - apply find_mismatch_Some in Hfind as [Hin Hm].
    rewrite Forall_forall in Hkinds. by destruct (Hkinds item Hin).
  - destruct (set_records_inl items []) as (key & -> & Hkey);
      [apply NoDup_nil_2|done|]. by exists key.
Qed.

Lemma set_throws_mismatch items w :
  Exists mismatched items →
  ∃ item, set items w
          = (Thrown (SetMismatchingKinds (yek_kind (yek item))
                       (lav_kind (lav item))), w)
          ∧ item ∈ items ∧ mismatched item.
Proof.
  intros Hex. unfold set.
  destruct (List.find _ items) as [item|] eqn:Hfind.
  - exists item. split; [reflexivity|]. by apply find_mismatch_Some.
  - apply find_mismatch_None in Hfind.
    apply Exists_exists in Hex as (item & Hin & Hm).
    rewrite Forall_forall in Hfind. by destruct (Hfind item Hin).
Qed.

(** C6. [set] either throws and leaves the world (substrate content and
    the trace of substrate writes included) as it was, which happens exactly
    when some pair of the batch has mismatching kinds or two entries have the
    same substrate key; or it returns after one bulk write of the whole
    batch. *)
Theorem set_rejects_or_writes_once (items : list YekLav) (w : World) :
  ((Exists mismatched items ∨ ¬ NoDup (keys_of items))
   ∧ ∃ e, set items w = (Thrown e, w))
  ∨ ((Forall (fun item => ¬ mismatched item) items ∧ NoDup (keys_of items))
     ∧ ∃ w', set items w = (Returned tt, w')
             ∧ calls w' = calls w ++ [StorageSet (records_of items)]
             ∧ storage w' = list_to_map (records_of items) ∪ storage w).
Proof.
  destruct (decide (Exists mismatched items)) as [Hex|Hall].
  - left. split; [by left|].
    destruct (set_throws_mismatch items w Hex) as (item & -> & _). eauto.
  - apply not_Exists_Forall in Hall; [|intros item; apply _].
    destruct (decide (NoDup (keys_of items))) as [Hnd|Hdup].
    + right. split; [done|]. eexists. split; [by apply set_returns|done].
    + left. split; [by right|].
      destruct (set_throws_duplicate items w Hall Hdup) as (key & -> & _).
      eauto.
Qed.

End RecordStore.

(** ** Running one step *)
Section Steps.
Context `{SR : SmugglerRuntime}.
Import YekLavStore.

Lemma await_returned {A B} (m : Promise A) (k : A → Promise B) w a w' :
  m w = (Returned a, w') → (let* x := m in k x) w = k a w'.
Proof. unfold await. by intros ->. Qed.

Lemma await_thrown {A B} (m : Promise A) (k : A → Promise B) w e w' :
  m w = (Thrown e, w') → (let* x := m in k x) w = (Thrown e, w').
Proof. unfold await. by intros ->. Qed.

Lemma draw_0 w : draw 0 w = w.
Proof. destruct w. unfold draw. simpl. f_equal. lia. Qed.

Lemma draw_draw a b w : draw a (draw b w) = draw (b + a) w.
Proof. unfold draw. simpl. f_equal. lia. Qed.

Lemma draw_3 a b c w : draw c (draw b (draw a w)) = draw (a + b + c) w.
Proof. unfold draw. simpl. f_equal. lia. Qed.

Lemma generateNid_run w :
  generateNid w = (Returned (uuid_base36 (drawn w)), draw 1 w).
Proof. unfold generateNid, draw. do 2 f_equal. lia. Qed.

Lemma get_as_kinded {A} (y : Yek) (cast : Lav → option A) w :
  kinded w →
  (∀ l, lav_kind l = yek_kind y → is_Some (cast l)) →
  get_as y cast w = (Returned (storage w !! stringify y ≫= cast), w).
Proof.
  intros Hk Hcast. unfold get_as, await, get.
  destruct (storage w !! stringify y) as [l|] eqn:E; simpl; [|done].
  destruct (Hcast l (Hk _ _ E)) as [v ->]. done.
Qed.


Ltac kinded_cases Hk y E :=
  match type of E with
  | storage _ !! _ = Some ?l =>
      let H := fresh in
      pose proof (Hk y _ E) as H; destruct l; try discriminate H; clear H
  | _ => idtac
  end.

Ltac prepare_step Hk y :=
  unfold prepareAppend, prepareRemoval, await, get,
    listing, origin_index, pipeline_index, bucket; simpl;
  match goal with
  | |- context [storage ?w !! ?k] =>
      let E := fresh "E" in
      destruct (storage w !! k) eqn:E; kinded_cases Hk y E; simpl; reflexivity
  end.

Lemma prepareAppend_listing w tags :
  kinded w →
  prepareAppend AllNidsYek (AllNidsLav tags) w
  = (Returned {| yek := AllNidsYek; lav := AllNidsLav (listing w ++ tags) |},
     w).
Proof. intros Hk. prepare_step Hk AllNidsYek. Qed.

Lemma prepareAppend_origin w origin nids :
  kinded w →
  prepareAppend (OriginToNidYek origin) (OriginToNidLav nids) w
  = (Returned {| yek := OriginToNidYek origin;
                 lav := OriginToNidLav (origin_index w origin ++ nids) |}, w).
Proof. intros Hk. prepare_step Hk (OriginToNidYek origin). Qed.

Lemma prepareAppend_pipeline w pipeline nids :
  kinded w →
  prepareAppend (ExtPipelineToNidYek pipeline) (ExtPipelineToNidLav nids) w
  = (Returned {| yek := ExtPipelineToNidYek pipeline;
                 lav := ExtPipelineToNidLav
                          (pipeline_index w pipeline ++ nids) |}, w).
Proof. intros Hk. prepare_step Hk (ExtPipelineToNidYek pipeline). Qed.

Lemma prepareAppend_bucket w nid edges :
  kinded w →
  prepareAppend (NidToEdgeYek nid) (NidToEdgeLav edges) w
  = (Returned {| yek := NidToEdgeYek nid;
                 lav := NidToEdgeLav (bucket w nid ++ edges) |}, w).
Proof. intros Hk. prepare_step Hk (NidToEdgeYek nid). Qed.

Lemma prepareRemoval_listing w criteria :
  kinded w →
  prepareRemoval AllNidsYek criteria w
  = (Returned {| yek := AllNidsYek;
                 lav := AllNidsLav (remove_tags criteria (listing w)) |}, w).
Proof. intros Hk. prepare_step Hk AllNidsYek. Qed.

Lemma prepareRemoval_origin w origin criteria :
  kinded w →
  prepareRemoval (OriginToNidYek origin) criteria w
  = (Returned {| yek := OriginToNidYek origin;
                 lav := OriginToNidLav
                          (remove_nids criteria (origin_index w origin)) |},
     w).
Proof. intros Hk. prepare_step Hk (OriginToNidYek origin). Qed.

Lemma prepareRemoval_bucket w nid criteria :
  kinded w →
  prepareRemoval (NidToEdgeYek nid) criteria w
  = (Returned {| yek := NidToEdgeYek nid;
                 lav := NidToEdgeLav
                          (remove_edges criteria (bucket w nid)) |}, w).
Proof. intros Hk. prepare_step Hk (NidToEdgeYek nid). Qed.

End Steps.

(** ** The kind invariant of the substrate *)
Section Kinded.
Context `{SR : SmugglerRuntime}.
Import YekLavStore.

Lemma kinded_empty w : storage w = ∅ → kinded w.
Proof. intros E y l. rewrite E, lookup_empty. discriminate. Qed.

Lemma kinded_singleton y l w :
  storage w = {[ stringify y := l ]} → lav_kind l = yek_kind y → kinded w.
Proof.
  intros E Hkind y' l'. rewrite E.
  intros [Hkey <-]%lookup_singleton_Some. rewrite Hkind.
  by apply stringify_kind.
Qed.

Lemma kinded_substrate_set items w :
  Forall (fun item => ¬ mismatched item) items →
  kinded w → kinded (substrate_set (records_of items) w).
Proof.
  intros Hkinds Hk y l. simpl.
  intros [Hnew|[_ Hold]]%lookup_union_Some_raw; [|by apply Hk].
  apply elem_of_list_to_map_2 in Hnew.
  apply list_elem_of_fmap in Hnew as (item & [= Hkey ->] & Hin).
  rewrite Forall_forall in Hkinds.
  destruct (decide (yek_kind (yek item) = lav_kind (lav item))) as [<-|Hne].
  - symmetry. by apply stringify_kind.
  - by destruct (Hkinds item Hin).
Qed.


Lemma kinded_substrate_remove keys w :
  kinded w → kinded (substrate_remove keys w).
Proof.
  intros Hk y l. simpl. intros [_ Hold]%lookup_foldr_delete_Some.
  by apply Hk.
Qed.

Lemma keeps_resolve {A} (a : A) : keeps_kinded (resolve a).
Proof. by intros w. Qed.

Lemma keeps_throw {A} e : keeps_kinded (@throw _ A e).
Proof. by intros w. Qed.

Lemma keeps_await {A B} (m : Promise A) (k : A → Promise B) :
  keeps_kinded m → (∀ a, keeps_kinded (k a)) →
  keeps_kinded (let* x := m in k x).
Proof.
  intros Hm Hcont w Hk. unfold await. specialize (Hm w Hk).
  destruct (m w) as [[a|e] w']; simpl in *; [by apply Hcont|done].
Qed.

Lemma keeps_set items : keeps_kinded (set items).
Proof.
  intros w Hk.
  destruct (decide (Exists mismatched items)) as [Hex|Hall].
  { by destruct (set_throws_mismatch items w Hex) as (item & -> & _). }
  apply not_Exists_Forall in Hall; [|intros item; apply _].
  destruct (decide (NoDup (keys_of items))) as [Hnd|Hdup].
  - rewrite set_returns by done. simpl. by apply kinded_substrate_set.
  - by destruct (set_throws_duplicate items w Hall Hdup) as (key & -> & _).
Qed.

Lemma keeps_remove yeks : keeps_kinded (remove yeks).
Proof. intros w Hk. by apply kinded_substrate_remove. Qed.

Lemma keeps_get y : keeps_kinded (get y).
Proof. by intros w. Qed.

Lemma keeps_get_batch ys : keeps_kinded (get_batch ys).
Proof. by intros w. Qed.

Lemma keeps_registerEvent e : keeps_kinded (registerEvent e).
Proof. by intros w. Qed.

Lemma keeps_unixtime_now : keeps_kinded unixtime_now.
Proof. by intros w. Qed.

Lemma keeps_generateNid : keeps_kinded generateNid.
Proof. by intros w. Qed.

Lemma keeps_for_await {A B} (f : A → Promise B) xs :
  (∀ x, keeps_kinded (f x)) → keeps_kinded (for_await f xs).
Proof.
  intros Hf. induction xs as [|x rest IH]; simpl.
  - apply keeps_resolve.
  - apply keeps_await; [apply Hf|]. intros y.
    apply keeps_await; [apply IH|]. intros ys. apply keeps_resolve.
Qed.

End Kinded.

Create HintDb keeps.

#[export] Hint Resolve keeps_resolve keeps_throw keeps_set keeps_remove
  keeps_get keeps_get_batch keeps_registerEvent keeps_unixtime_now
  keeps_generateNid : keeps.

(** Walks through a computation built from [await], conditionals and the
    primitives above. *)
Ltac keeps_kinded_tac :=
  repeat first
    [ progress intros
    | apply keeps_await
    | apply keeps_for_await
    | solve [auto with keeps]
    | match goal with
      | |- keeps_kinded (match ?x with _ => _ end) => destruct x
      | |- keeps_kinded (if ?x then _ else _) => destruct x
      | |- keeps_kinded (let (_, _) := ?x in _) => destruct x
      end ].

Section KindedApi.
Context `{SR : SmugglerRuntime}.
Import YekLavStore.

Lemma keeps_get_as {A} y (cast : Lav → option A) :
  keeps_kinded (get_as y cast).
Proof. unfold get_as. keeps_kinded_tac. Qed.

Lemma keeps_prepareAppend y l : keeps_kinded (prepareAppend y l).
Proof. unfold prepareAppend. keeps_kinded_tac. Qed.

Lemma keeps_prepareRemoval y c : keeps_kinded (prepareRemoval y c).
Proof. unfold prepareRemoval. keeps_kinded_tac. Qed.

#[local] Hint Resolve keeps_get_as keeps_prepareAppend keeps_prepareRemoval
  : keeps.

Lemma keeps_createNode args : keeps_kinded (createNode args).
Proof. unfold createNode, new_edges, generateEid. keeps_kinded_tac. Qed.

Lemma keeps_deleteNode nid : keeps_kinded (deleteNode nid).
Proof. unfold deleteNode, prepareNodeRemoval. keeps_kinded_tac. Qed.

Lemma keeps_createEdge from to : keeps_kinded (createEdge from to).
Proof. unfold createEdge, generateEid. keeps_kinded_tac. Qed.

Lemma keeps_advanceUserIngestionProgress p n :
  keeps_kinded (advanceUserIngestionProgress p n).
Proof.
  unfold advanceUserIngestionProgress, getUserIngestionProgress.
  keeps_kinded_tac.
Qed.

Lemma keeps_recordAssociation from to a :
  keeps_kinded (recordAssociation from to a).
Proof. unfold recordAssociation. keeps_kinded_tac. Qed.

End KindedApi.

(** ** [createNode], step by step *)
Section CreateNode.
Context `{SR : SmugglerRuntime}.
Import YekLavStore.

Lemma for_await_pure {A B} (f : A → Promise B) (g : A → B) xs w :
  (∀ x, f x w = (Returned (g x), w)) →
  for_await f xs w = (Returned (g <$> xs), w).
Proof.
  intros Hf. induction xs as [|x rest IH]; simpl; [done|].
  rewrite (await_returned _ _ _ _ _ (Hf x)).
  by rewrite (await_returned _ _ _ _ _ IH).
Qed.

Lemma new_edges_run (mk : Nid → Eid → TEdgeJson) nids w :
  new_edges mk nids w
  = (Returned (zip_with mk nids (drawn_ids (drawn w) (length nids))),
     draw (length nids) w).
Proof.
  unfold new_edges, generateEid. revert w.
  induction nids as [|n rest IH]; intros w; simpl.
  - by rewrite draw_0.
  - erewrite await_returned; cycle 1.
    { erewrite await_returned by apply generateNid_run. reflexivity. }
    erewrite await_returned by apply IH.
    unfold resolve. rewrite draw_draw. simpl.
    by replace (drawn w + 1)%nat with (S (drawn w)) by lia.
Qed.

Lemma createNode_run args w :
  kinded w →
  createNode args w
  = (let* _ := set (createNode_batch args w) in
     let* _ := registerEvent (created_event args w) in
     resolve (new_nid_of w))
      (draw (1 + length (froms_of args) + length (tos_of args)) w).
Proof.
  intros Hk. unfold createNode.
  fold (froms_of args) (tos_of args).
  erewrite await_returned with (a := createdAt_of args w) (w' := w);
    [|unfold createdAt_of; by destruct (args_created_at args)].
  erewrite await_returned by apply generateNid_run.
  erewrite await_returned by (apply prepareAppend_listing; done).
  unfold createNode_batch.
  destruct (args_origin args) as [origin|].
  all: [> erewrite await_returned;
          [|erewrite await_returned by (apply prepareAppend_origin; done);
            reflexivity]
        | erewrite await_returned by reflexivity ].
  all: destruct (args_created_via args ≫= autoIngestion) as [pipeline|].
  all: [> erewrite await_returned;
          [|erewrite await_returned by (apply prepareAppend_pipeline; done);
            reflexivity]
        | erewrite await_returned by reflexivity
        | erewrite await_returned;
          [|erewrite await_returned by (apply prepareAppend_pipeline; done);
            reflexivity]
        | erewrite await_returned by reflexivity ].
  all: destruct (decide _) as [Hedges|Hnone].
  all: try
    (rewrite <- (draw_3 1 (length (froms_of args)) (length (tos_of args)));
     erewrite await_returned;
     [|erewrite await_returned by apply new_edges_run;
       erewrite await_returned by apply new_edges_run;
       erewrite await_returned
         by (apply for_await_pure; intros edge; apply prepareAppend_bucket;
             exact Hk);
       erewrite await_returned
         by (apply for_await_pure; intros edge; apply prepareAppend_bucket;
             exact Hk);
       reflexivity];
     reflexivity).
  all: assert (length (froms_of args) = 0 ∧ length (tos_of args) = 0)%nat
    as [-> ->] by lia.
  all: erewrite await_returned by reflexivity; reflexivity.
Qed.

Lemma NoDup_fmap_via {A B C} (f : A → B) (g : A → C) (l : list A) :
  (∀ x y, f x = f y → g x = g y) → NoDup (g <$> l) → NoDup (f <$> l).
Proof.
  intros Hfg. induction l as [|x l IH]; simpl; [constructor|].
  rewrite !NoDup_cons. intros [Hx Hl]. split; [|by apply IH].
  intros (y & Hxy & Hy)%list_elem_of_fmap. apply Hx.
  apply list_elem_of_fmap. exists y. split; [by apply Hfg|done].
Qed.

Lemma NoDup_stringify_app (ys1 ys2 : list Yek) :
  NoDup (stringify <$> ys1) → NoDup (stringify <$> ys2) →
  (∀ y1 y2, y1 ∈ ys1 → y2 ∈ ys2 → yek_kind y1 ≠ yek_kind y2) →
  NoDup (stringify <$> (ys1 ++ ys2)).
Proof.
  intros H1 H2 Hkinds. rewrite fmap_app. apply NoDup_app.
  repeat split; [done| |done].
  intros key (y1 & -> & Hy1)%list_elem_of_fmap
             (y2 & E & Hy2)%list_elem_of_fmap.
  by apply (Hkinds y1 y2), stringify_kind.
Qed.

Lemma from_edges_of_from_nid args w :
  from_nid <$> from_edges_of args w = froms_of args.
Proof.
  unfold from_edges_of, drawn_ids. apply fmap_zip_with_l; [done|].
  by rewrite length_fmap, length_seq.
Qed.

Lemma to_edges_of_to_nid args w :
  to_nid <$> to_edges_of args w = tos_of args.
Proof.
  unfold to_edges_of, drawn_ids. apply fmap_zip_with_l; [done|].
  by rewrite length_fmap, length_seq.
Qed.

Lemma createNode_batch_yeks args w :
  yek <$> createNode_batch args w = createNode_yeks args w.
Proof.
  unfold createNode_batch, createNode_yeks, createNode_heads.
  destruct (args_origin args), (args_created_via args ≫= autoIngestion),
    (decide _); simpl; try reflexivity.
  all: rewrite ?fmap_app, <- !list_fmap_compose; simpl.
  all: repeat f_equal.
  all: first
    [ by rewrite <- (from_edges_of_from_nid args w), <- list_fmap_compose
    | by rewrite <- (to_edges_of_to_nid args w), <- list_fmap_compose ].
Qed.

Lemma keys_of_yeks (items : list YekLav) :
  keys_of items = stringify <$> (yek <$> items).
Proof. unfold keys_of. by rewrite <- list_fmap_compose. Qed.

Lemma createNode_batch_kinds args w :
  Forall (fun item => ¬ mismatched item) (createNode_batch args w).
Proof.
  unfold createNode_batch.
  destruct (args_origin args), (args_created_via args ≫= autoIngestion),
    (decide _); simpl.
  all: repeat first
    [ apply Forall_nil_2
    | apply Forall_cons; split; [by intros []|]
    | apply Forall_app; split
    | apply Forall_fmap, Forall_forall; intros edge _; by intros [] ].
Qed.

Lemma createNode_heads_kinds args w :
  NoDup (yek_kind <$> createNode_heads args w)
  ∧ K_nid_edge ∉ yek_kind <$> createNode_heads args w.
Proof.
  unfold createNode_heads.
  destruct (args_origin args), (args_created_via args ≫= autoIngestion);
    simpl; split; compute_done.
Qed.

Lemma createNode_heads_NoDup args w :
  NoDup (stringify <$> createNode_heads args w).
Proof.
  apply (NoDup_fmap_via stringify yek_kind); [apply stringify_kind|].
  apply createNode_heads_kinds.
Qed.

Lemma createNode_heads_not_edge args w n :
  stringify (NidToEdgeYek n) ∉ stringify <$> createNode_heads args w.
Proof.
  intros (y & E & Hy)%list_elem_of_fmap.
  apply stringify_kind in E.
  destruct (createNode_heads_kinds args w) as [_ Hnin]. apply Hnin.
  apply list_elem_of_fmap. exists y. split; [exact E|exact Hy].
Qed.

Lemma createNode_yeks_NoDup args w :
  NoDup (new_nid_of w :: froms_of args ++ tos_of args) →
  NoDup (stringify <$> createNode_yeks args w).
Proof.
  intros Hnd. unfold createNode_yeks. rewrite fmap_app.
  apply NoDup_app. split; [apply createNode_heads_NoDup|].
  destruct (decide _).
  - split.
    + intros key Hhead
        (y & -> & (n & -> & _)%list_elem_of_fmap)%list_elem_of_fmap.
      by apply createNode_heads_not_edge in Hhead.
    + rewrite <- list_fmap_compose.
      by apply (NoDup_fmap_2 (fun n => stringify (NidToEdgeYek n))).
  - split; [|constructor]. intros key _ Hin. inversion Hin.
Qed.

Lemma createNode_batch_NoDup args w :
  NoDup (new_nid_of w :: froms_of args ++ tos_of args) →
  NoDup (keys_of (createNode_batch args w)).
Proof.
  rewrite keys_of_yeks, createNode_batch_yeks. apply createNode_yeks_NoDup.
Qed.

Lemma createNode_batch_dup args w :
  ¬ NoDup (new_nid_of w :: froms_of args ++ tos_of args) →
  ¬ NoDup (keys_of (createNode_batch args w)).
Proof.
  intros Hdup Hnd. apply Hdup. clear Hdup.
  rewrite keys_of_yeks, createNode_batch_yeks in Hnd.
  unfold createNode_yeks in Hnd. destruct (decide _) as [_|Hnone].
  - rewrite fmap_app in Hnd. apply NoDup_app in Hnd as (_ & _ & Hnd).
    by do 2 apply NoDup_fmap_1 in Hnd.
  - assert (length (froms_of args) = 0 ∧ length (tos_of args) = 0)%nat
      as [->%nil_length_inv ->%nil_length_inv] by lia.
    apply NoDup_singleton.
Qed.

(** A key that occurs twice in the batch of [createNode] is the adjacency
    bucket of an id that occurs twice among the new id and the neighbours. *)
Lemma createNode_batch_twice args w key :
  (1 < length (filter (key =.) (keys_of (createNode_batch args w))))%nat →
  ∃ n, key = stringify (NidToEdgeYek n)
       ∧ (1 < length (filter (n =.)
                        (new_nid_of w :: froms_of args ++ tos_of args)))%nat.
Proof.
  rewrite keys_of_yeks, createNode_batch_yeks. unfold createNode_yeks.
  rewrite fmap_app, filter_app, length_app.
  pose proof (filter_eq_NoDup key _ (createNode_heads_NoDup args w)) as Hle.
  remember (length (filter (key =.) (stringify <$> createNode_heads args w)))
    as in_heads eqn:Hheads.
  intros Htwice.
  destruct (decide (0 < length (froms_of args)
                    ∨ 0 < length (tos_of args))%nat) as [_|_];
    [|simpl in Htwice; lia].
  assert (key ∈ stringify <$> (NidToEdgeYek <$>
            (new_nid_of w :: froms_of args ++ tos_of args)))
    as (y & -> & (n & -> & Hn)%list_elem_of_fmap)%list_elem_of_fmap.
  { destruct (filter (key =.) (stringify <$> (NidToEdgeYek <$> _)))
      as [|k rest] eqn:E; [simpl in Htwice; lia|].
    assert (k ∈ filter (key =.)
                  (stringify <$> (NidToEdgeYek <$>
                     (new_nid_of w :: froms_of args ++ tos_of args))))
      as [<- Hk]%list_elem_of_filter by (rewrite E; left).
    exact Hk. }
  exists n. split; [reflexivity|].
  assert (filter (stringify (NidToEdgeYek n) =.)
            (stringify <$> createNode_heads args w) = []) as Hnone.
  { destruct (filter _ (stringify <$> createNode_heads args w))
      as [|k rest] eqn:E; [done|].
    assert (k ∈ filter (stringify (NidToEdgeYek n) =.)
                  (stringify <$> createNode_heads args w))
      as [<- Hk]%list_elem_of_filter by (rewrite E; left).
    by apply createNode_heads_not_edge in Hk. }
  rewrite Hnone in Hheads. simpl in Hheads. subst in_heads.
  rewrite <- list_fmap_compose in Htwice.
  by rewrite (filter_eq_fmap_inj (fun n => stringify (NidToEdgeYek n)))
    in Htwice.
Qed.

Lemma createNode_returns args w :
  kinded w →
  NoDup (new_nid_of w :: froms_of args ++ tos_of args) →
  createNode args w = (Returned (new_nid_of w), createNode_world args w).
Proof.
  intros Hk Hnd. rewrite createNode_run by done.
  erewrite await_returned; cycle 1.
  { apply set_returns;
      [apply createNode_batch_kinds|by apply createNode_batch_NoDup]. }
  reflexivity.
Qed.

Lemma createNode_throws args w :
  kinded w →
  ¬ NoDup (new_nid_of w :: froms_of args ++ tos_of args) →
  ∃ n, createNode args w
       = (Thrown (SetDuplicateKey (stringify (NidToEdgeYek n))),
          draw (1 + length (froms_of args) + length (tos_of args)) w)
       ∧ (1 < length (filter (n =.)
                        (new_nid_of w :: froms_of args ++ tos_of args)))%nat.
Proof.
  intros Hk Hdup. rewrite createNode_run by done.
  destruct (set_throws_duplicate (createNode_batch args w)
              (draw (1 + length (froms_of args) + length (tos_of args)) w))
    as (key & Hset & Htwice);
    [apply createNode_batch_kinds|by apply createNode_batch_dup|].
  apply createNode_batch_twice in Htwice as (n & -> & Hn).
  exists n. split; [|exact Hn].
  by rewrite (await_thrown _ _ _ _ _ Hset).
Qed.

Lemma lookup_set_in (items : list YekLav) (m : gmap string Lav) item :
  NoDup (keys_of items) → item ∈ items →
  (list_to_map (records_of items) ∪ m) !! stringify (yek item)
  = Some (lav item).
Proof.
  intros Hnd Hin. apply lookup_union_Some_l, elem_of_list_to_map_1.
  - by rewrite records_of_keys.
  - apply list_elem_of_fmap. by exists item.
Qed.

Lemma lookup_set_out (items : list YekLav) (m : gmap string Lav) key :
  key ∉ keys_of items →
  (list_to_map (records_of items) ∪ m) !! key = m !! key.
Proof.
  intros Hnin. apply lookup_union_r, not_elem_of_list_to_map_1.
  by rewrite records_of_keys.
Qed.

Lemma getNode_found nid w value auxiliary :
  storage w !! stringify (NidToNodeYek nid)
  = Some (NidToNodeLav value auxiliary) →
  getNode nid w = (Returned (NodeUtil_fromJson value), w).
Proof. intros E. unfold getNode, get_as, await, get. by rewrite E. Qed.

Lemma getNode_not_found nid w :
  storage w !! stringify (NidToNodeYek nid) = None →
  getNode nid w = (Thrown (NodeNotFound nid), w).
Proof. intros E. unfold getNode, get_as, await, get. by rewrite E. Qed.

Lemma createNode_world_node args w :
  NoDup (new_nid_of w :: froms_of args ++ tos_of args) →
  storage (createNode_world args w) !! stringify (NidToNodeYek (new_nid_of w))
  = Some (NidToNodeLav (created_node args w)
            {| aux_origin := args_origin args;
               aux_created_via := args_created_via args |}).
Proof.
  intros Hnd. simpl.
  apply (lookup_set_in (createNode_batch args w) (storage w)
           {| yek := NidToNodeYek (new_nid_of w);
              lav := NidToNodeLav (created_node args w)
                       {| aux_origin := args_origin args;
                          aux_created_via := args_created_via args |} |});
    [by apply createNode_batch_NoDup|].
  unfold createNode_batch. right. left.
Qed.

(** C10. When an id occurs more than once across the [from_nid] and
    [to_nid] lists of a [createNode] call on a kinded substrate, the call
    throws the duplicate-key error of [set], naming the adjacency-bucket key
    of an id that occurs twice among the new id and the declared neighbours,
    and nothing is written: the substrate content, the trace of substrate
    writes and the emitted events are as before. *)
Theorem createNode_repeated_neighbour (args : NodeCreateArgs) (w : World) :
  kinded w →
  ¬ NoDup (froms_of args ++ tos_of args) →
  ∃ n w',
    createNode args w
    = (Thrown (SetDuplicateKey (stringify (NidToEdgeYek n))), w')
    ∧ (1 < length (filter (n =.)
                     (new_nid_of w :: froms_of args ++ tos_of args)))%nat
    ∧ storage w' = storage w ∧ calls w' = calls w ∧ events w' = events w.
Proof.
  intros Hk Hdup.
  destruct (createNode_throws args w Hk) as (n & Hrun & Htwice).
  { intros [_ Hnd]%NoDup_cons. contradiction. }
  exists n. eexists. split; [exact Hrun|]. by repeat split.
Qed.

(** C2. On a kinded substrate, for creation arguments that name no
    neighbour twice (nor the id drawn for the new node), [createNode] returns
    the new id, and [getNode] of that id returns [NodeUtil.fromJson] of a
    record whose text, extended attributes and index text are those of the
    arguments, whose type tag is the one supplied ([NodeType.Text] when none
    was), and whose [updated_at] equals its [created_at]. *)
Theorem getNode_after_createNode (args : NodeCreateArgs) (w : World) :
  kinded w →
  NoDup (new_nid_of w :: froms_of args ++ tos_of args) →
  ∃ w' json,
    createNode args w = (Returned (nid json), w')
    ∧ getNode (nid json) w' = (Returned (NodeUtil_fromJson json), w')
    ∧ text json = args_text args
    ∧ extattrs json = args_extattrs args
    ∧ index_text json = args_index_text args
    ∧ ntype json = default NodeType_Text (args_ntype args)
    ∧ created_at json = default (clock w) (args_created_at args)
    ∧ updated_at json = created_at json.
Proof.
  intros Hk Hnd.
  exists (createNode_world args w), (created_node args w).
  split; [by apply createNode_returns|].
  split; [|by repeat split].
  eapply getNode_found. by apply createNode_world_node.
Qed.

End CreateNode.

(** ** [deleteNode], step by step *)
Section DeleteNode.
Context `{SR : SmugglerRuntime}.
Import YekLavStore.

Lemma mirrors_step removedNid w :
  kinded w →
  (let* edges := get_as (NidToEdgeYek removedNid) as_NidToEdge in
   for_await
     (fun linkedNid => prepareRemoval (NidToEdgeYek linkedNid) [removedNid])
     (linkedNids removedNid (default [] edges))) w
  = (Returned
       ((fun linkedNid =>
           {| yek := NidToEdgeYek linkedNid;
              lav := NidToEdgeLav
                       (remove_edges [removedNid] (bucket w linkedNid)) |})
          <$> linkedNids removedNid (bucket w removedNid)), w).
Proof.
  intros Hk.
  erewrite await_returned
    by (apply get_as_kinded; [exact Hk|by intros []; eauto]).
  apply for_await_pure. intros linkedNid. by apply prepareRemoval_bucket.
Qed.

Lemma by_origin_step nid w :
  kinded w →
  (let* node := get_as (NidToNodeYek nid) as_NidToNode in
   match node ≫= (fun na => aux_origin na.2) with
   | Some origin =>
       let* r := prepareRemoval (OriginToNidYek origin) [nid] in
       resolve (Some r)
   | None => resolve None
   end) w
  = (Returned
       (match origin_of w nid with
        | Some origin =>
            Some {| yek := OriginToNidYek origin;
                    lav := OriginToNidLav
                             (remove_nids [nid] (origin_index w origin)) |}
        | None => None
        end), w).
Proof.
  intros Hk.
  erewrite await_returned
    by (apply get_as_kinded; [exact Hk|by intros []; eauto]).
  fold (node_record w nid). fold (origin_of w nid).
  destruct (origin_of w nid) as [origin|]; [|reflexivity].
  by erewrite await_returned by (by apply prepareRemoval_origin).
Qed.

Lemma prepareNodeRemoval_run nid w :
  kinded w →
  prepareNodeRemoval [nid] w
  = (Returned (deleteNode_toRemove nid, deleteNode_toSet w nid), w).
Proof.
  intros Hk. unfold prepareNodeRemoval.
  erewrite await_returned
    by (apply for_await_pure; intros n; by apply mirrors_step).
  erewrite await_returned by (by apply prepareRemoval_listing).
  erewrite await_returned
    by (apply for_await_pure; intros n; by apply by_origin_step).
  unfold resolve, deleteNode_toSet. simpl. rewrite app_nil_r.
  by destruct (origin_of w nid).
Qed.

Lemma deleteNode_run nid w :
  kinded w →
  deleteNode nid w
  = (let* _ := set (deleteNode_toSet w nid) in resolve {| ack := true |})
      (deleteNode_removed w nid).
Proof.
  intros Hk. unfold deleteNode.
  erewrite await_returned by reflexivity.
  erewrite await_returned by (by apply prepareNodeRemoval_run).
  by erewrite await_returned by reflexivity.
Qed.

Lemma deleteNode_toSet_kinds w nid :
  Forall (fun item => ¬ mismatched item) (deleteNode_toSet w nid).
Proof.
  unfold deleteNode_toSet. apply Forall_app. split.
  - apply Forall_fmap, Forall_forall. intros n _. by intros [].
  - destruct (origin_of w nid); simpl;
      repeat (apply Forall_cons; split; [by intros []|]); constructor.
Qed.

Lemma deleteNode_toSet_yeks w nid :
  yek <$> deleteNode_toSet w nid
  = (NidToEdgeYek <$> linkedNids nid (bucket w nid)) ++ deleteNode_tail w nid.
Proof.
  unfold deleteNode_toSet, deleteNode_tail.
  rewrite fmap_app, <- list_fmap_compose. f_equal.
  by destruct (origin_of w nid).
Qed.

Lemma deleteNode_tail_kinds w nid :
  NoDup (yek_kind <$> deleteNode_tail w nid)
  ∧ (K_nid_edge ∉ yek_kind <$> deleteNode_tail w nid)
  ∧ (K_nid_node ∉ yek_kind <$> deleteNode_tail w nid).
Proof.
  unfold deleteNode_tail. destruct (origin_of w nid); simpl;
    repeat split; compute_done.
Qed.

Lemma deleteNode_toSet_NoDup w nid :
  NoDup (linkedNids nid (bucket w nid)) →
  NoDup (keys_of (deleteNode_toSet w nid)).
Proof.
  intros Hnd. rewrite keys_of_yeks, deleteNode_toSet_yeks.
  destruct (deleteNode_tail_kinds w nid) as (Htail & Hedge & _).
  apply NoDup_stringify_app.
  - rewrite <- list_fmap_compose.
    by apply (NoDup_fmap_2 (fun n => stringify (NidToEdgeYek n))).
  - by apply (NoDup_fmap_via stringify yek_kind); [apply stringify_kind|].
  - intros y1 y2 (n & -> & _)%list_elem_of_fmap Hy2 E. apply Hedge.
    apply list_elem_of_fmap. exists y2. by split.
Qed.

Lemma deleteNode_toSet_dup w nid :
  ¬ NoDup (linkedNids nid (bucket w nid)) →
  ¬ NoDup (keys_of (deleteNode_toSet w nid)).
Proof.
  intros Hdup Hnd. apply Hdup.
  rewrite keys_of_yeks, deleteNode_toSet_yeks, fmap_app in Hnd.
  apply NoDup_app in Hnd as (Hnd & _ & _).
  by do 2 apply NoDup_fmap_1 in Hnd.
Qed.

Lemma deleteNode_returns nid w :
  kinded w →
  NoDup (linkedNids nid (bucket w nid)) →
  deleteNode nid w = (Returned {| ack := true |}, deleteNode_world w nid).
Proof.
  intros Hk Hnd. rewrite deleteNode_run by done.
  erewrite await_returned; [reflexivity|].
  apply set_returns;
    [apply deleteNode_toSet_kinds|by apply deleteNode_toSet_NoDup].
Qed.

(** With two edges to one neighbour the batch names that neighbour's bucket
    twice: [set] throws after [remove] has been applied. *)
Lemma deleteNode_throws nid w :
  kinded w →
  ¬ NoDup (linkedNids nid (bucket w nid)) →
  ∃ key, deleteNode nid w
         = (Thrown (SetDuplicateKey key), deleteNode_removed w nid).
Proof.
  intros Hk Hdup. rewrite deleteNode_run by done.
  destruct (set_throws_duplicate (deleteNode_toSet w nid)
              (deleteNode_removed w nid))
    as (key & Hset & _);
    [apply deleteNode_toSet_kinds|by apply deleteNode_toSet_dup|].
  exists key. by rewrite (await_thrown _ _ _ _ _ Hset).
Qed.

Lemma deleteNode_world_bucket w nid linkedNid :
  NoDup (linkedNids nid (bucket w nid)) →
  linkedNid ∈ linkedNids nid (bucket w nid) →
  bucket (deleteNode_world w nid) linkedNid
  = remove_edges [nid] (bucket w linkedNid).
Proof.
  intros Hnd Hin. unfold bucket at 1. simpl.
  rewrite (lookup_set_in (deleteNode_toSet w nid) _
             {| yek := NidToEdgeYek linkedNid;
                lav := NidToEdgeLav
                         (remove_edges [nid] (bucket w linkedNid)) |});
    [done|by apply deleteNode_toSet_NoDup|].
  unfold deleteNode_toSet. apply elem_of_app. left.
  apply list_elem_of_fmap. by exists linkedNid.
Qed.

Lemma deleteNode_world_listing w nid :
  NoDup (linkedNids nid (bucket w nid)) →
  listing (deleteNode_world w nid) = remove_tags [nid] (listing w).
Proof.
  intros Hnd. unfold listing at 1. simpl.
  rewrite (lookup_set_in (deleteNode_toSet w nid) _
             {| yek := AllNidsYek;
                lav := AllNidsLav (remove_tags [nid] (listing w)) |});
    [done|by apply deleteNode_toSet_NoDup|].
  unfold deleteNode_toSet. apply elem_of_app. right. left.
Qed.

Lemma deleteNode_world_node w nid :
  storage (deleteNode_world w nid) !! stringify (NidToNodeYek nid) = None.
Proof.
  unfold deleteNode_world, substrate_set, deleteNode_removed. cbn [storage].
  rewrite lookup_set_out.
  - apply lookup_foldr_delete. left.
  - rewrite keys_of_yeks, deleteNode_toSet_yeks, fmap_app.
    destruct (deleteNode_tail_kinds w nid) as (_ & _ & Hnode).
    intros [(y & E & (n & -> & _)%list_elem_of_fmap)%list_elem_of_fmap
           |(y & E & Hy)%list_elem_of_fmap]%elem_of_app.
    + by apply stringify_kind in E.
    + apply Hnode. apply list_elem_of_fmap. exists y.
      split; [by apply stringify_kind in E|done].
Qed.

End DeleteNode.

(** ** The global listing *)
Section Listing.
Context `{SR : SmugglerRuntime}.
Import YekLavStore.

Lemma insert_tag_Permutation t l : insert_tag t l ≡ₚ t :: l.
Proof.
  induction l as [|u l IH]; simpl; [done|].
  destruct (decide _); [done|]. by rewrite IH, Permutation_swap.
Qed.

Lemma sort_latest_first_Permutation l : sort_latest_first l ≡ₚ l.
Proof.
  induction l as [|t l IH]; simpl; [done|].
  by rewrite insert_tag_Permutation, IH.
Qed.

#[local] Instance latest_first_trans : Transitive latest_first.
Proof. unfold latest_first. intros a b c ??. lia. Qed.

Lemma insert_tag_Sorted t l :
  Sorted latest_first l → Sorted latest_first (insert_tag t l).
Proof.
  induction 1 as [|u l Hl IH Hhd]; simpl.
  - by repeat constructor.
  - destruct (decide _) as [Hle|Hgt].
    + by repeat constructor.
    + constructor; [exact IH|].
      assert (latest_first u t) as Hut by (unfold latest_first; lia).
      destruct Hhd as [|v l' Huv]; simpl; [by constructor|].
      destruct (decide _); by constructor.
Qed.

Lemma sort_latest_first_Sorted l :
  StronglySorted latest_first (sort_latest_first l).
Proof.
  apply Sorted_StronglySorted; [apply _|].
  induction l as [|t l IH]; simpl; [constructor|].
  by apply insert_tag_Sorted.
Qed.

(** The sort is stable: nodes created at the same time keep the order in
    which they were listed. *)
Lemma insert_tag_stable c t l :
  filter (fun u => tag_created_at u = c) (insert_tag t l)
  = filter (fun u => tag_created_at u = c) (t :: l).
Proof.
  induction l as [|u l IH]; simpl; [done|].
  destruct (decide (tag_created_at u ≤ tag_created_at t)) as [Hle|Hgt];
    [done|].
  rewrite (filter_cons _ u), IH, !filter_cons.
  destruct (decide (tag_created_at u = c)) as [Hu|Hu];
    destruct (decide (tag_created_at t = c)) as [Ht|Ht]; try done.
  lia.
Qed.

Lemma sort_latest_first_stable c l :
  filter (fun u => tag_created_at u = c) (sort_latest_first l)
  = filter (fun u => tag_created_at u = c) l.
Proof.
  induction l as [|t l IH]; simpl; [done|].
  rewrite insert_tag_stable. by rewrite !filter_cons, IH.
Qed.

Lemma getAllNids_run w :
  kinded w →
  getAllNids w = (Returned (tag_nid <$> sort_latest_first (listing w)), w).
Proof.
  intros Hk. unfold getAllNids.
  erewrite await_returned
    by (apply get_as_kinded; [exact Hk|by intros []; eauto]).
  unfold listing. by destruct (_ ≫= _).
Qed.

Lemma kinded_createNode_world args w :
  kinded w →
  NoDup (new_nid_of w :: froms_of args ++ tos_of args) →
  kinded (createNode_world args w).
Proof.
  intros Hk Hnd. pose proof (keeps_createNode args w Hk) as H.
  by rewrite createNode_returns in H.
Qed.

Lemma createNode_world_listing args w :
  NoDup (new_nid_of w :: froms_of args ++ tos_of args) →
  listing (createNode_world args w)
  = listing w ++ [{| tag_nid := new_nid_of w;
                     tag_created_at := createdAt_of args w |}].
Proof.
  intros Hnd. unfold listing at 1.
  unfold createNode_world. cbn [storage].
  rewrite (lookup_set_in (createNode_batch args w) _
             {| yek := AllNidsYek;
                lav := AllNidsLav
                         (listing w
                          ++ [{| tag_nid := new_nid_of w;
                                 tag_created_at := createdAt_of args w |}]) |});
    [done|by apply createNode_batch_NoDup|].
  unfold createNode_batch. left.
Qed.

Lemma getAllNids_ordered w :
  kinded w →
  ∃ tags, getAllNids w = (Returned (tag_nid <$> tags), w)
          ∧ StronglySorted latest_first tags
          ∧ tags ≡ₚ listing w.
Proof.
  intros Hk. exists (sort_latest_first (listing w)).
  split; [by apply getAllNids_run|].
  split; [apply sort_latest_first_Sorted|apply sort_latest_first_Permutation].
Qed.

Lemma createNodes_listing requests :
  ∀ w nids w',
    kinded w →
    createNodes requests w = (Returned nids, w') →
    kinded w' ∧ listing w' = listing w ++ tags_of nids requests.
Proof.
  induction requests as [|[now args] rest IH]; intros w nids w' Hk Hrun.
  - simpl in Hrun. injection Hrun as <- <-. by rewrite app_nil_r.
  - simpl in Hrun. unfold await in Hrun at 1. unfold at_time in Hrun.
    set (w0 := {| storage := storage w; calls := calls w; drawn := drawn w;
                  clock := now; events := events w |}) in *.
    assert (kinded w0) as Hk0 by exact Hk.
    destruct (decide (NoDup (new_nid_of w0 :: froms_of args ++ tos_of args)))
      as [Hnd|Hdup].
    + rewrite (createNode_returns args w0 Hk0 Hnd) in Hrun.
      unfold await in Hrun.
      destruct (createNodes rest (createNode_world args w0))
        as [[rest_nids|e] w1] eqn:Hrest; [|discriminate].
      injection Hrun as <- <-.
      destruct (IH _ _ _ (kinded_createNode_world args w0 Hk0 Hnd) Hrest)
        as [Hk1 Hlist].
      split; [exact Hk1|].
      rewrite Hlist, createNode_world_listing by done.
      by rewrite <- app_assoc.
    + destruct (createNode_throws args w0 Hk0 Hdup) as (n & Hthrow & _).
      rewrite Hthrow in Hrun. discriminate.
Qed.

(** C8. After any sequence of successful node creations on a kinded
    substrate, [getAllNids] returns the ids of a listing that consists of
    the entries present before and one entry per created node (its id, and
    its creation time: [created_at] when supplied, the clock at the call
    otherwise), ordered by creation time, latest first. *)
Theorem getAllNids_after_creations
    (requests : list (Z * NodeCreateArgs)) (w w' : World) (nids : list Nid) :
  kinded w →
  createNodes requests w = (Returned nids, w') →
  ∃ tags, getAllNids w' = (Returned (tag_nid <$> tags), w')
          ∧ StronglySorted latest_first tags
          ∧ tags ≡ₚ listing w ++ tags_of nids requests
          ∧ length nids = length requests.
Proof.
  intros Hk Hrun.
  destruct (createNodes_listing requests w nids w' Hk Hrun) as [Hk' Hlist].
  destruct (getAllNids_ordered w' Hk') as (tags & Hget & Hsorted & Hperm).
  exists tags. repeat split; [done..|by rewrite Hperm, Hlist|].
  clear -Hrun. revert w nids w' Hrun.
  induction requests as [|[now args] rest IH]; intros w nids w' Hrun;
    simpl in Hrun.
  - by injection Hrun as <- <-.
  - unfold await in Hrun.
    destruct (at_time now (createNode args) w) as [[nid|?] w0];
      [|discriminate].
    destruct (createNodes rest w0) as [[rest_nids|?] w1] eqn:Hrest;
      [|discriminate].
    injection Hrun as <- <-. simpl. f_equal. by eapply IH.
Qed.

End Listing.

(** ** Cascading delete *)
Section CascadingDelete.
Context `{SR : SmugglerRuntime}.
Import YekLavStore.

(** Both ways of creating a node [B] with an edge from [A] lead to the
    situation in which the cascade is stated below: [createNode] with [A]
    among [from_nid], and [createEdge A B]. *)
Lemma createNode_world_bucket_from args w e :
  NoDup (new_nid_of w :: froms_of args ++ tos_of args) →
  e ∈ from_edges_of args w →
  bucket (createNode_world args w) (from_nid e) = bucket w (from_nid e) ++ [e].
Proof.
  intros Hnd He. unfold bucket at 1. unfold createNode_world. cbn [storage].
  rewrite (lookup_set_in (createNode_batch args w) _
             {| yek := NidToEdgeYek (from_nid e);
                lav := NidToEdgeLav (bucket w (from_nid e) ++ [e]) |});
    [done|by apply createNode_batch_NoDup|].
  unfold createNode_batch.
  assert (0 < length (froms_of args))%nat as Hlen.
  { rewrite <- (from_edges_of_from_nid args w), length_fmap.
    destruct (from_edges_of args w); [by apply elem_of_nil in He|simpl; lia]. }
  rewrite decide_True by (by left).
  do 3 (apply elem_of_app; right). right.
  apply elem_of_app. left. apply list_elem_of_fmap. by exists e.
Qed.

Lemma from_edges_of_elem args w e :
  e ∈ from_edges_of args w → to_nid e = new_nid_of w.
Proof.
  unfold from_edges_of.
  intros (n & i & -> & _)%elem_of_zip_with. reflexivity.
Qed.

Lemma createNode_links args w A :
  kinded w →
  NoDup (new_nid_of w :: froms_of args ++ tos_of args) →
  A ∈ froms_of args →
  NoDup (linkedNids A (bucket w A)) →
  new_nid_of w ∉ linkedNids A (bucket w A) →
  kinded (createNode_world args w)
  ∧ (∃ e, e ∈ bucket (createNode_world args w) A
          ∧ from_nid e = A ∧ to_nid e = new_nid_of w)
  ∧ NoDup (linkedNids A (bucket (createNode_world args w) A)).
Proof.
  intros Hk Hnd HA Hold Hfresh.
  rewrite <- (from_edges_of_from_nid args w) in HA.
  apply list_elem_of_fmap in HA as (e & -> & He).
  pose proof (from_edges_of_elem _ _ _ He) as Hto.
  rewrite (createNode_world_bucket_from args w e Hnd He).
  split; [by apply kinded_createNode_world|]. split.
  - exists e. split; [|done]. apply elem_of_app. right. left.
  - unfold linkedNids in *. rewrite fmap_app. apply NoDup_app.
    split; [done|]. simpl. rewrite decide_True by done. rewrite Hto.
    split; [|apply NoDup_singleton].
    intros n Hn ->%list_elem_of_singleton. contradiction.
Qed.

Lemma createEdge_links from to w :
  kinded w → from ≠ to →
  ∃ edge w',
    createEdge from to w = (Returned edge, w')
    ∧ from_nid edge = from ∧ to_nid edge = to
    ∧ kinded w'
    ∧ bucket w' from = bucket w from ++ [edge]
    ∧ bucket w' to = bucket w to ++ [edge].
Proof.
  intros Hk Hne. unfold createEdge, generateEid.
  erewrite await_returned by reflexivity.
  erewrite await_returned by apply generateNid_run.
  erewrite await_returned by (by apply prepareAppend_bucket).
  erewrite await_returned by (by apply prepareAppend_bucket).
  set (edge := {| eid := uuid_base36 (drawn w); from_nid := from;
                  to_nid := to; crtd := clock w; upd := clock w;
                  is_sticky := false |}).
  set (items := [{| yek := NidToEdgeYek from;
                    lav := NidToEdgeLav (bucket (draw 1 w) from ++ [edge]) |};
                 {| yek := NidToEdgeYek to;
                    lav := NidToEdgeLav (bucket (draw 1 w) to ++ [edge]) |}]).
  assert (Forall (fun item => ¬ mismatched item) items) as Hkinds.
  { repeat (apply Forall_cons; split; [by intros []|]). constructor. }
  assert (NoDup (keys_of items)) as Hnd.
  { unfold keys_of, items. cbn [fmap list_fmap yek].
    apply NoDup_cons. split; [|apply NoDup_singleton].
    intros E%list_elem_of_singleton.
    by apply stringify_NidToEdge_inj in E. }
  erewrite await_returned by (by apply set_returns).
  exists edge. eexists. split; [reflexivity|].
  split; [done|]. split; [done|].
  split; [by apply kinded_substrate_set|].
  split; unfold bucket at 1; cbn [storage substrate_set].
  - by rewrite (lookup_set_in items _ {| yek := NidToEdgeYek from;
                                         lav := _ |}) by (done || left).
  - by rewrite (lookup_set_in items _ {| yek := NidToEdgeYek to;
                                         lav := _ |})
      by (done || (right; left)).
Qed.

(** C1. Take a kinded substrate in which the adjacency bucket of [A] holds
    an edge from [A] to [B] and links [A] to each of its neighbours by one
    edge only.  Then [deleteNode A] completes, and afterwards no edge in the
    adjacency bucket of [B] has [A] as an endpoint, [A] is neither in the
    stored listing nor in what [getAllNids] returns, and [getNode A] throws
    the not-found error. *)
Theorem deleteNode_cascades (w : World) (A B : Nid) (e : TEdgeJson) :
  kinded w →
  e ∈ bucket w A → from_nid e = A → to_nid e = B →
  NoDup (linkedNids A (bucket w A)) →
  ∃ w',
    deleteNode A w = (Returned {| ack := true |}, w')
    ∧ Forall (fun e' => from_nid e' ≠ A ∧ to_nid e' ≠ A) (bucket w' B)
    ∧ (A ∉ tag_nid <$> listing w')
    ∧ (∃ nids, getAllNids w' = (Returned nids, w') ∧ A ∉ nids)
    ∧ getNode A w' = (Thrown (NodeNotFound A), w').
Proof.
  intros Hk He Hfrom Hto Hnd.
  exists (deleteNode_world w A).
  assert (kinded (deleteNode_world w A)) as Hk'.
  { pose proof (keeps_deleteNode A w Hk) as H.
    by rewrite deleteNode_returns in H. }
  assert (A ∉ tag_nid <$> listing (deleteNode_world w A)) as Hlisted.
  { rewrite deleteNode_world_listing by done.
    intros (t & -> & [Ht _]%list_elem_of_filter)%list_elem_of_fmap.
    apply Ht. left. }
  split; [by apply deleteNode_returns|].
  split; [|split; [exact Hlisted|split]].
  - rewrite deleteNode_world_bucket; [|done|].
    + apply Forall_forall. intros e' [He' _]%list_elem_of_filter.
      split; intros E; apply He'; [left|right]; rewrite E; left.
    + apply list_elem_of_fmap. exists e. split; [|done].
      by rewrite decide_True.
  - eexists. split; [by apply getAllNids_run|].
    intros Hin. apply Hlisted.
    by rewrite sort_latest_first_Permutation in Hin.
  - apply getNode_not_found, deleteNode_world_node.
Qed.

End CascadingDelete.

(** ** Ingestion progress *)
Section Ingestion.
Context `{SR : SmugglerRuntime}.
Import YekLavStore.

Lemma getUserIngestionProgress_run pipeline w :
  kinded w →
  ∃ progress,
    getUserIngestionProgress pipeline w = (Returned progress, w)
    ∧ ingested_until progress = watermark w pipeline.
Proof.
  intros Hk. unfold getUserIngestionProgress, watermark.
  erewrite await_returned
    by (apply get_as_kinded; [exact Hk|by intros []; eauto]).
  destruct (_ ≫= _); eauto.
Qed.

Lemma stringify_ExtPipeline_eq p q :
  stringify (ExtPipelineYek p) = stringify (ExtPipelineYek q)
  ↔ pipeline_key p = pipeline_key q.
Proof. simpl. split; [intros E; by simplify_eq|by intros ->]. Qed.

Lemma advanceUserIngestionProgress_run pipeline mark w :
  kinded w →
  ∃ w',
    advanceUserIngestionProgress pipeline mark w
    = (Returned {| ack := true |}, w')
    ∧ kinded w'
    ∧ ∀ p, watermark w' p
           = if decide (pipeline_key pipeline = pipeline_key p)
             then mark else watermark w p.
Proof.
  intros Hk. unfold advanceUserIngestionProgress.
  destruct (getUserIngestionProgress_run pipeline w Hk)
    as (progress & Hget & _).
  rewrite (await_returned _ _ _ _ _ Hget).
  erewrite await_returned; cycle 1.
  { apply set_returns; [|apply NoDup_singleton].
    apply Forall_singleton. by intros []. }
  eexists. split; [reflexivity|]. split.
  - apply (kinded_substrate_set [_]); [|done].
    apply Forall_singleton. by intros [].
  - intros p. unfold watermark at 1. cbn [storage substrate_set].
    destruct (decide (pipeline_key pipeline = pipeline_key p)) as [E|Hne].
    + rewrite (lookup_union_Some_l _ _ _
                 (ExtPipelineLav {| epid := epid progress;
                                    ingested_until := mark |})); [done|].
      apply stringify_ExtPipeline_eq in E. rewrite <- E.
      apply lookup_insert_eq.
    + rewrite lookup_union_r; [done|].
      apply lookup_insert_None. split; [done|].
      by intros E%stringify_ExtPipeline_eq.
Qed.

Lemma advances_run steps :
  ∀ w, kinded w →
  ∃ w', advances steps w = (Returned tt, w')
        ∧ kinded w'
        ∧ ∀ p, watermark w' p = last_mark p steps (watermark w p).
Proof.
  induction steps as [|[pipeline mark] rest IH]; intros w Hk.
  - by exists w.
  - destruct (advanceUserIngestionProgress_run pipeline mark w Hk)
      as (w1 & Hadv & Hk1 & Hmark).
    destruct (IH w1 Hk1) as (w' & Hrest & Hk' & Hmarks).
    exists w'. split; [|split; [exact Hk'|]].
    + simpl. by rewrite (await_returned _ _ _ _ _ Hadv).
    + intros p. rewrite Hmarks, Hmark. done.
Qed.

(** C5 (as amended). On a kinded substrate any sequence of
    [advanceUserIngestionProgress] calls returns, and afterwards
    [getUserIngestionProgress] of a pipeline returns the watermark supplied
    by the last call of the sequence that named its key, whether or not an
    earlier call stored a larger one; when no call named it, it returns the
    watermark stored before, which is zero for a pipeline never seen. *)
Theorem advances_read_back (steps : list (UserExternalPipelineId * Z))
    (w : World) (pipeline : UserExternalPipelineId) :
  kinded w →
  ∃ w' progress,
    advances steps w = (Returned tt, w')
    ∧ getUserIngestionProgress pipeline w' = (Returned progress, w')
    ∧ ingested_until progress
      = last_mark pipeline steps (watermark w pipeline).
Proof.
  intros Hk.
  destruct (advances_run steps w Hk) as (w' & Hrun & Hk' & Hmarks).
  destruct (getUserIngestionProgress_run pipeline w' Hk')
    as (progress & Hget & Hread).
  exists w', progress. split; [done|]. split; [done|].
  by rewrite Hread, Hmarks.
Qed.

End Ingestion.

(** ** Associations *)
Section Associations.
Context `{SR : SmugglerRuntime}.
Import YekLavStore.

Lemma every_other_differs_true x value :
  every_other_differs x value = true ↔ referencing x value = [].
Proof.
  unfold every_other_differs, referencing.
  induction value as [|a value IH]; simpl; [done|].
  rewrite andb_true_iff, IH, bool_decide_eq_true, filter_cons.
  destruct (decide (id (other a) = id x)) as [E|Hne].
  - split; [by intros [? _]|discriminate].
  - split; [by intros [_ ?]|done].
Qed.

Lemma every_other_differs_false x value :
  every_other_differs x value = false ↔ referencing x value ≠ [].
Proof.
  rewrite <- every_other_differs_true. by destruct (every_other_differs _ _).
Qed.

Lemma recordAssociation_run from to a w :
  kinded w →
  recordAssociation from to a w
  = (if negb (every_other_differs to (associations w from))
     then resolve {| ack := true |}
     else if negb (every_other_differs from (associations w to))
     then throw (AssociationInconsistent (id from) (id to))
     else let* _ := set (recordAssociation_batch w from to a) in
          resolve {| ack := true |}) w.
Proof.
  intros Hk. unfold recordAssociation.
  erewrite await_returned
    by (apply get_as_kinded; [exact Hk|by intros []; eauto]).
  by erewrite await_returned
    by (apply get_as_kinded; [exact Hk|by intros []; eauto]).
Qed.

Lemma recordAssociation_writes from to a w :
  kinded w → id from ≠ id to →
  referencing to (associations w from) = [] →
  referencing from (associations w to) = [] →
  recordAssociation from to a w
  = (Returned {| ack := true |},
     substrate_set (records_of (recordAssociation_batch w from to a)) w).
Proof.
  intros Hk Hne Hfrom%every_other_differs_true Hto%every_other_differs_true.
  rewrite recordAssociation_run, Hfrom, Hto by done. cbn [negb].
  erewrite await_returned; [reflexivity|].
  apply set_returns.
  - repeat (apply Forall_cons; split; [by intros []|]). constructor.
  - unfold keys_of, recordAssociation_batch. cbn [fmap list_fmap yek].
    apply NoDup_cons. split; [|apply NoDup_singleton].
    intros E%list_elem_of_singleton.
    by apply stringify_OriginToExtAssociation_eq in E.
Qed.

Lemma recordAssociation_duplicate from to a w :
  kinded w →
  referencing to (associations w from) ≠ [] →
  recordAssociation from to a w = (Returned {| ack := true |}, w).
Proof.
  intros Hk Hfrom%every_other_differs_false.
  by rewrite recordAssociation_run, Hfrom by done.
Qed.


Lemma recorded_associations_from from to a w :
  id from ≠ id to →
  associations
    (substrate_set (records_of (recordAssociation_batch w from to a)) w) from
  = associations w from ++ [to_entry to a].
Proof.
  intros Hne. unfold associations at 1. cbn [storage substrate_set].
  by rewrite (lookup_union_Some_l _ _ _
                (OriginToExtAssociationLav
                   (associations w from ++ [to_entry to a])))
    by apply lookup_insert_eq.
Qed.

Lemma recorded_associations_to from to a w :
  id from ≠ id to →
  associations
    (substrate_set (records_of (recordAssociation_batch w from to a)) w) to
  = associations w to ++ [from_entry from a].
Proof.
  intros Hne. unfold associations at 1. cbn [storage substrate_set].
  rewrite (lookup_union_Some_l _ _ _
             (OriginToExtAssociationLav
                (associations w to ++ [from_entry from a]))); [done|].
  unfold records_of, recordAssociation_batch. cbn [fmap list_fmap yek lav].
  cbn [list_to_map foldr uncurry fst snd].
  rewrite lookup_insert_ne; [apply lookup_insert_eq|].
  by intros E%stringify_OriginToExtAssociation_eq.
Qed.

Lemma Map_set_elem {V} key (v : V) m kv :
  kv ∈ Map_set key v m → kv = (key, v) ∨ kv ∈ m.
Proof.
  induction m as [|[k v'] m IH]; simpl.
  - intros ->%list_elem_of_singleton. by left.
  - destruct (decide (k = key)) as [->|Hne].
    + intros [->|Hin]%elem_of_cons; [by left|]. right. by right.
    + intros [->|Hin]%elem_of_cons; [right; left|].
      destruct (IH Hin) as [->|Hm]; [by left|right; by right].
Qed.

Lemma Map_set_key {V} key (v : V) m :
  ∃ v', (key, v') ∈ Map_set key v m.
Proof.
  induction m as [|[k v'] m [v'' IH]]; simpl.
  - exists v. left.
  - destruct (decide (k = key)) as [->|Hne]; [exists v; left|].
    exists v''. by right.
Qed.

Lemma Map_set_keeps {V} key (v : V) m k :
  k ∈ m.*1 → k ∈ (Map_set key v m).*1.
Proof.
  induction m as [|[k' v'] m IH]; simpl; [by intros ?%elem_of_nil|].
  destruct (decide (k' = key)) as [->|Hne]; simpl; [done|].
  intros [->|Hin]%elem_of_cons; [left|right; by apply IH].
Qed.

Lemma keyToYek_elem yeks key y :
  (key, y) ∈ keyToYek yeks → key = stringify y ∧ y ∈ yeks.
Proof.
  unfold keyToYek.
  assert (∀ acc : list (string * Yek),
            (key, y) ∈ foldl (fun m singleYek =>
                                Map_set (stringify singleYek) singleYek m)
                         acc yeks →
            (key, y) ∈ acc ∨ (key = stringify y ∧ y ∈ yeks)) as Hgen.
  { induction yeks as [|y0 yeks IH]; intros acc; simpl; [by left|].
    intros [[[= -> ->]|Hin]%Map_set_elem|[-> Hin]]%IH.
    - right. split; [done|left].
    - by left.
    - right. split; [done|by right]. }
  intros [Hin%elem_of_nil|H]%Hgen; done.
Qed.

Lemma keyToYek_keys yeks y :
  y ∈ yeks → stringify y ∈ (keyToYek yeks).*1.
Proof.
  unfold keyToYek.
  assert (∀ acc : list (string * Yek),
            stringify y ∈ acc.*1 ∨ y ∈ yeks →
            stringify y
            ∈ (foldl (fun m singleYek =>
                        Map_set (stringify singleYek) singleYek m)
                     acc yeks).*1) as Hgen.
  { induction yeks as [|y0 yeks IH]; intros acc; simpl.
    - by intros [?|?%elem_of_nil].
    - intros [Hacc|[->|Hin]%elem_of_cons]; apply IH.
      + left. by apply Map_set_keeps.
      + left. destruct (Map_set_key (stringify y0) y0 acc) as [v' Hv'].
        apply list_elem_of_fmap. by exists (stringify y0, v').
      + by right. }
  intros Hin. apply Hgen. by right.
Qed.

(** What a batch [get] returns: records stored under the keys asked for, and
    one for each key asked for that has a record. *)
Lemma get_batch_sound yeks w yl :
  yl ∈ omap (fun '(key, yek) =>
               match storage w !! key with
               | Some lav => Some {| yek := yek; lav := lav |}
               | None => None
               end) (keyToYek yeks) →
  yek yl ∈ yeks ∧ storage w !! stringify (yek yl) = Some (lav yl).
Proof.
  intros ([key y] & Hin & Hsome)%list_elem_of_omap.
  apply keyToYek_elem in Hin as [-> Hy].
  destruct (storage w !! stringify y) eqn:E; [|done].
  injection Hsome as <-. by split.
Qed.

Lemma get_batch_complete yeks w y l :
  y ∈ yeks → storage w !! stringify y = Some l →
  ∃ y', stringify y' = stringify y
        ∧ {| yek := y'; lav := l |}
          ∈ omap (fun '(key, yek) =>
                    match storage w !! key with
                    | Some lav => Some {| yek := yek; lav := lav |}
                    | None => None
                    end) (keyToYek yeks).
Proof.
  intros Hin Hl. apply keyToYek_keys in Hin.
  apply list_elem_of_fmap in Hin as ([key y'] & Hkey & Hin). simpl in Hkey.
  subst key. pose proof (keyToYek_elem _ _ _ Hin) as [E _].
  exists y'. split; [done|].
  apply list_elem_of_omap. exists (stringify y, y'). split; [done|].
  by rewrite Hl.
Qed.

Lemma stringify_OriginToNid_eq a b :
  stringify (OriginToNidYek a) = stringify (OriginToNidYek b) ↔ id a = id b.
Proof.
  simpl. split; [|by intros ->].
  intros E. injection E as E. simpl in E. by apply (inj hashToString).
Qed.

Lemma originToNids_set_get h nids m h' :
  originToNids_get h' (originToNids_set h nids m)
  = if decide (h = h') then Some nids else originToNids_get h' m.
Proof.
  induction m as [|[k v] m IH]; simpl.
  - destruct (decide (h = h')); done.
  - destruct (decide (k = h)) as [->|Hkh]; simpl.
    + destruct (decide (h = h')); done.
    + destruct (decide (k = h')) as [->|Hkh'].
      * by rewrite decide_False by done.
      * exact IH.
Qed.

(** The table of step 2 holds, for an origin, the node ids stored in its
    index; it has an entry for every origin of the batch read. *)
Lemma originToNids_of_spec w yeklavs :
  kinded w →
  Forall (fun yl => (∃ o, yek yl = OriginToNidYek o)
                    ∧ storage w !! stringify (yek yl) = Some (lav yl))
         yeklavs →
  ∀ m0,
    (∀ h v, originToNids_get h m0 = Some v →
            storage w !! stringify (OriginToNidYek {| id := h |})
            = Some (OriginToNidLav v)) →
    ∃ m,
      originToNids_of yeklavs m0 w = (Returned m, w)
      ∧ (∀ h v, originToNids_get h m = Some v →
                storage w !! stringify (OriginToNidYek {| id := h |})
                = Some (OriginToNidLav v))
      ∧ (∀ yl o, yl ∈ yeklavs → yek yl = OriginToNidYek o →
                 is_Some (originToNids_get (id o) m))
      ∧ (∀ h, is_Some (originToNids_get h m0) →
              is_Some (originToNids_get h m)).
Proof.
  intros Hk. induction 1 as [|yl rest [[o Ho] Hstored] Hrest IH];
    intros m0 Hgood; simpl.
  - exists m0. repeat split; [done| |done].
    by intros yl o ?%elem_of_nil.
  - rewrite Ho in *. pose proof (Hk _ _ Hstored) as Hkind.
    destruct (lav yl) as [| |value| | | | | | |] eqn:Hlav;
      try discriminate Hkind.
    destruct (IH (originToNids_set (id o) value m0))
      as (m & Hrun & Hm & Hall & Hkeep).
    { intros h v. rewrite originToNids_set_get.
      destruct (decide (id o = h)) as [<-|Hne]; [|by apply Hgood].
      intros [= <-]. by destruct o. }
    exists m. repeat split; [done|done| |].
    + intros yl' o' [->|Hin]%elem_of_cons Ho'.
      * rewrite Ho in Ho'. injection Ho' as <-. apply Hkeep.
        rewrite originToNids_set_get, decide_True by done. eauto.
      * by eapply Hall.
    + intros h Hsome. apply Hkeep. rewrite originToNids_set_get.
      destruct (decide (id o = h)); eauto.
Qed.

Lemma omap_ext_elem {A B} (f g : A → option B) (l : list A) :
  (∀ x, x ∈ l → f x = g x) → omap f l = omap g l.
Proof.
  induction l as [|x l IH]; intros Hfg; simpl; [done|].
  rewrite (Hfg x) by left.
  destruct (g x); [f_equal|]; apply IH; intros y Hy; apply Hfg; by right.
Qed.

Lemma getAssociations_run origin w :
  kinded w →
  getAssociations origin w = (Returned (response_of w origin), w).
Proof.
  intros Hk. unfold getAssociations.
  erewrite await_returned
    by (apply get_as_kinded; [exact Hk|by intros []; eauto]).
  fold (associations w origin). unfold response_of.
  destruct (decide (length (associations w origin) = 0%nat)) as [E|Hne].
  { apply nil_length_inv in E. by rewrite E. }
  set (yeks := ((fun v => OriginToNidYek (other v)) <$> associations w origin)
               ++ [OriginToNidYek origin]).
  erewrite await_returned by reflexivity.
  assert (Forall (fun yl => (∃ o, yek yl = OriginToNidYek o)
                            ∧ storage w !! stringify (yek yl) = Some (lav yl))
            (omap (fun '(key, yek) =>
                     match storage w !! key with
                     | Some lav => Some {| yek := yek; lav := lav |}
                     | None => None
                     end) (keyToYek yeks))) as Hread.
  { apply Forall_forall. intros yl [Hin Hstored]%get_batch_sound.
    split; [|done]. subst yeks.
    apply elem_of_app in Hin as [(v & -> & _)%list_elem_of_fmap
                                |Hin%list_elem_of_singleton];
      [|rewrite Hin]; eauto. }
  destruct (originToNids_of_spec w _ Hk Hread [])
    as (m & Hrun & Hgood & Hall & _).
  { intros h v. simpl. discriminate. }
  rewrite (await_returned _ _ _ _ _ Hrun).
  assert (∀ o, OriginToNidYek o ∈ yeks →
               default [] (originToNids_get (id o) m) = origin_index w o)
    as Hend.
  { intros o Hin. unfold origin_index.
    destruct (originToNids_get (id o) m) as [v|] eqn:Hget.
    - destruct o as [h]. cbn [id] in Hget. apply Hgood in Hget.
      by rewrite Hget.
    - destruct (storage w !! stringify (OriginToNidYek o)) as [l|] eqn:Hl;
        [|done].
      destruct (get_batch_complete yeks w _ l Hin Hl) as (y' & Hy' & Hyl).
      pose proof (get_batch_sound _ _ _ Hyl) as [Hy'in _]. simpl in Hy'in.
      assert (∃ o', y' = OriginToNidYek o') as [o' ->].
      { subst yeks.
        apply elem_of_app in Hy'in as [(v & -> & _)%list_elem_of_fmap
                                      |Hy'in%list_elem_of_singleton];
          [|rewrite Hy'in]; eauto. }
      apply stringify_OriginToNid_eq in Hy'.
      destruct (Hall _ o' Hyl eq_refl) as [v Hv].
      rewrite Hy' in Hv. congruence. }
  assert (OriginToNidYek origin ∈ yeks) as Horigin.
  { subst yeks. apply elem_of_app. right. left. }
  unfold resolve. do 2 f_equal.
  f_equal; apply omap_ext_elem; intros a Ha; destruct (direction a);
    try reflexivity.
  all: assert (OriginToNidYek (other a) ∈ yeks) as Hother
    by (subst yeks; apply elem_of_app; left; apply list_elem_of_fmap; eauto).
  all: unfold association_end.
  all: rewrite (Hend _ Hother), (Hend _ Horigin).
  all: by destruct origin, (other a).
Qed.

(** C3 (as amended). For two origins with different ids, neither of whose
    buckets references the other yet, on a kinded substrate:
    [recordAssociation A B type] returns; afterwards [getAssociations A] has
    an entry from [A] to [B] of that type in its [to] list and
    [getAssociations B] has one in its [from] list; a second
    [recordAssociation A B type] returns and leaves the world, the trace of
    substrate writes included, as it is; and each of the two buckets holds
    exactly one entry that references the other origin. *)
Theorem recordAssociation_symmetric (w : World) (A B : OriginId)
    (type : UserExternalAssociationType) :
  kinded w → id A ≠ id B →
  referencing B (associations w A) = [] →
  referencing A (associations w B) = [] →
  ∃ w1,
    recordAssociation A B type w = (Returned {| ack := true |}, w1)
    ∧ (∃ ra x, getAssociations A w1 = (Returned ra, w1)
               ∧ x ∈ resp_to ra ∧ relates A B type x)
    ∧ (∃ rb x, getAssociations B w1 = (Returned rb, w1)
               ∧ x ∈ resp_from rb ∧ relates A B type x)
    ∧ recordAssociation A B type w1 = (Returned {| ack := true |}, w1)
    ∧ length (referencing B (associations w1 A)) = 1%nat
    ∧ length (referencing A (associations w1 B)) = 1%nat.
Proof.
  intros Hk Hne HA HB.
  set (w1 := substrate_set
               (records_of (recordAssociation_batch w A B type)) w).
  assert (kinded w1) as Hk1.
  { apply kinded_substrate_set; [|done].
    repeat (apply Forall_cons; split; [by intros []|]). constructor. }
  assert (referencing B (associations w1 A) = [to_entry B type]) as HA1.
  { subst w1. rewrite recorded_associations_from by done.
    unfold referencing in *. rewrite filter_app, HA. simpl.
    by rewrite filter_cons_True by done. }
  assert (referencing A (associations w1 B) = [from_entry A type]) as HB1.
  { subst w1. rewrite recorded_associations_to by done.
    unfold referencing in *. rewrite filter_app, HB. simpl.
    by rewrite filter_cons_True by done. }
  exists w1. split; [by apply recordAssociation_writes|].
  split; [|split; [|split; [|split]]].
  - exists (response_of w1 A),
      {| assoc_from := association_end w1 (id A);
         assoc_to := association_end w1 (id B);
         assoc_type := type |}.
    split; [by apply getAssociations_run|]. split; [|done].
    apply list_elem_of_omap. exists (to_entry B type). split; [|done].
    subst w1. rewrite recorded_associations_from by done.
    apply elem_of_app. right. left.
  - exists (response_of w1 B),
      {| assoc_from := association_end w1 (id A);
         assoc_to := association_end w1 (id B);
         assoc_type := type |}.
    split; [by apply getAssociations_run|]. split; [|done].
    apply list_elem_of_omap. exists (from_entry A type). split; [|done].
    subst w1. rewrite recorded_associations_to by done.
    apply elem_of_app. right. left.
  - apply recordAssociation_duplicate; [done|]. by rewrite HA1.
  - by rewrite HA1.
  - by rewrite HB1.
Qed.

(** C4 (as amended). When the bucket of [from] does not reference [to]
    while the bucket of [to] does reference [from], [recordAssociation]
    throws the inconsistency error, which carries both origin ids, and the
    world is left as it was: nothing is written and no bucket is repaired. *)
Theorem recordAssociation_reverse_only (w : World) (from to : OriginId)
    (type : UserExternalAssociationType) :
  kinded w →
  referencing to (associations w from) = [] →
  referencing from (associations w to) ≠ [] →
  recordAssociation from to type w
  = (Thrown (AssociationInconsistent (id from) (id to)), w).
Proof.
  intros Hk Hfrom%every_other_differs_true Hto%every_other_differs_false.
  by rewrite recordAssociation_run, Hfrom, Hto by done.
Qed.

End Associations.

(** ** Batch get of nodes *)
Section NodeBatch.
Context `{SR : SmugglerRuntime}.
Import YekLavStore.

Lemma Map_set_keyed seen n :
  Map_set (stringify (NidToNodeYek n)) (NidToNodeYek n) (keyed <$> seen)
  = keyed <$> (if decide (n ∈ seen) then seen else seen ++ [n]).
Proof.
  induction seen as [|s seen IH].
  - destruct (decide (n ∈ [])) as [Hin%elem_of_nil|]; done.
  - rewrite fmap_cons. cbn [Map_set keyed].
    destruct (decide (stringify (NidToNodeYek s) = stringify (NidToNodeYek n)))
      as [E|Hne].
    + apply stringify_NidToNode_inj in E as ->.
      destruct (decide (n ∈ n :: seen)) as [_|Hnin]; [done|].
      destruct Hnin. left.
    + rewrite IH.
      assert (s ≠ n) as Hsn by (intros ->; by apply Hne).
      destruct (decide (n ∈ seen)) as [Hin|Hnin],
               (decide (n ∈ s :: seen)) as [Hin'|Hnin']; try done.
      * destruct Hnin'. by right.
      * apply elem_of_cons in Hin' as [->|?]; done.
Qed.

Lemma keyToYek_fold nids :
  ∀ seen,
    foldl (fun m singleYek => Map_set (stringify singleYek) singleYek m)
          (keyed <$> seen) (NidToNodeYek <$> nids)
    = keyed <$> foldl (fun seen n =>
                         if decide (n ∈ seen) then seen else seen ++ [n])
                      seen nids.
Proof.
  induction nids as [|n nids IH]; intros seen; [done|].
  rewrite fmap_cons. cbn [foldl]. by rewrite Map_set_keyed, IH.
Qed.

Lemma keyToYek_NidToNode nids :
  keyToYek (NidToNodeYek <$> nids) = keyed <$> first_occurrences nids.
Proof. apply (keyToYek_fold nids []). Qed.

Lemma first_occurrences_elem nids n :
  n ∈ first_occurrences nids ↔ n ∈ nids.
Proof.
  unfold first_occurrences.
  assert (∀ seen, n ∈ foldl (fun seen n =>
                               if decide (n ∈ seen) then seen
                               else seen ++ [n]) seen nids
                  ↔ n ∈ seen ∨ n ∈ nids) as Hgen.
  { induction nids as [|m nids IH]; intros seen; simpl.
    - rewrite elem_of_nil. tauto.
    - rewrite IH, elem_of_cons. destruct (decide (m ∈ seen)).
      + split; [tauto|]. intros [?|[->|?]]; tauto.
      + rewrite elem_of_app, list_elem_of_singleton. tauto. }
  rewrite Hgen, elem_of_nil. tauto.
Qed.

Lemma first_occurrences_NoDup nids : NoDup (first_occurrences nids).
Proof.
  unfold first_occurrences.
  assert (∀ seen, NoDup seen →
                  NoDup (foldl (fun seen n =>
                                  if decide (n ∈ seen) then seen
                                  else seen ++ [n]) seen nids)) as Hgen.
  { induction nids as [|m nids IH]; intros seen Hseen; simpl; [done|].
    apply IH. destruct (decide (m ∈ seen)); [done|].
    apply NoDup_app. repeat split; [done| |apply NoDup_singleton].
    intros x Hx ->%list_elem_of_singleton. contradiction. }
  apply Hgen. constructor.
Qed.

Lemma nodes_of_run w (l : list Nid) :
  kinded w →
  nodes_of
    (omap (fun '(key, yek) =>
             match storage w !! key with
             | Some lav => Some {| yek := yek; lav := lav |}
             | None => None
             end) (keyed <$> l)) w
  = (Returned (NodeUtil_fromJson <$> omap (stored_node w) l), w).
Proof.
  intros Hk. induction l as [|n l IH]; [done|].
  rewrite fmap_cons. cbn [omap list_omap keyed].
  unfold stored_node at 1, node_record.
  destruct (storage w !! stringify (NidToNodeYek n)) as [l0|] eqn:E;
    [|exact IH].
  pose proof (Hk _ _ E) as Hkind.
  destruct l0; try discriminate Hkind.
  cbn [nodes_of lav as_NidToNode].
  by rewrite (await_returned _ _ _ _ _ IH).
Qed.

(** C7. On a kinded substrate [getNodeBatch] never throws and changes
    nothing; it returns [NodeUtil.fromJson] of the stored record of every
    requested id that has one, once per id, in the order in which the ids
    are first requested.  Ids without a record contribute nothing: every
    element returned is the record of a requested id. *)
Theorem getNodeBatch_only_existing (nids : list Nid) (w : World) :
  kinded w →
  ∃ found,
    getNodeBatch nids w = (Returned (NodeUtil_fromJson <$> found), w)
    ∧ found = omap (stored_node w) (first_occurrences nids)
    ∧ (∀ value, value ∈ found
                ↔ ∃ nid, nid ∈ nids ∧ stored_node w nid = Some value)
    ∧ (length found ≤ length (first_occurrences nids))%nat.
Proof.
  intros Hk. exists (omap (stored_node w) (first_occurrences nids)).
  split; [|split; [done|split]].
  - unfold getNodeBatch.
    erewrite await_returned by reflexivity.
    rewrite keyToYek_NidToNode. by apply nodes_of_run.
  - intros value. rewrite list_elem_of_omap.
    split; intros (nid & Hin & Hv); exists nid;
      (split; [by apply first_occurrences_elem|done]).
  - induction (first_occurrences nids) as [|n l IH]; [done|].
    change (omap (stored_node w) l) with (list_omap _ _ (stored_node w) l)
      in IH.
    simpl. destruct (stored_node w n); simpl; lia.
Qed.

End NodeBatch.

(** ** The node iterator *)
Section NodeIterator.
Context `{SR : SmugglerRuntime}.
Import YekLavStore.

Lemma create_run w :
  kinded w →
  Iterator.create w
  = (Returned {| Iterator.nids := tag_nid <$> sort_latest_first (listing w);
                 Iterator.index := 0 |}, w).
Proof.
  intros Hk. unfold Iterator.create.
  by rewrite (await_returned _ _ _ _ _ (getAllNids_run w Hk)).
Qed.

Lemma next_exhausted it w :
  (length (Iterator.nids it) ≤ Iterator.index it)%nat →
  Iterator.next it w = (Returned (None, it), w).
Proof.
  intros Hge. unfold Iterator.next.
  by rewrite (lookup_ge_None_2 _ _ Hge).
Qed.

Lemma next_found it w nid value :
  kinded w →
  Iterator.nids it !! Iterator.index it = Some nid →
  stored_node w nid = Some value →
  Iterator.next it w
  = (Returned (Some (NodeUtil_fromJson value),
               {| Iterator.nids := Iterator.nids it;
                  Iterator.index := S (Iterator.index it) |}), w).
Proof.
  intros Hk Hnid Hstored. unfold Iterator.next. rewrite Hnid.
  erewrite await_returned
    by (apply get_as_kinded; [exact Hk|by intros []; eauto]).
  unfold stored_node, node_record in Hstored.
  by destruct (_ ≫= _) as [[v aux]|]; simplify_eq/=.
Qed.

Lemma next_missing it w nid :
  kinded w →
  Iterator.nids it !! Iterator.index it = Some nid →
  stored_node w nid = None →
  Iterator.next it w = (Thrown (IteratorNodeNotFound nid), w).
Proof.
  intros Hk Hnid Hstored. unfold Iterator.next. rewrite Hnid.
  erewrite await_returned
    by (apply get_as_kinded; [exact Hk|by intros []; eauto]).
  unfold stored_node, node_record in Hstored.
  by destruct (_ ≫= _) as [[v aux]|]; simplify_eq/=.
Qed.

Lemma next_keeps_nids it w r it' w' :
  Iterator.next it w = (Returned (r, it'), w') →
  Iterator.nids it' = Iterator.nids it.
Proof.
  unfold Iterator.next.
  destruct (Iterator.nids it !! Iterator.index it) as [nid|].
  - unfold await, get_as, await, get.
    destruct (storage w !! _) as [l|]; simpl; [|discriminate].
    destruct (as_NidToNode l) as [[v aux]|]; simpl; [|discriminate].
    by intros [= <- <- <-].
  - by intros [= <- <- <-].
Qed.

Lemma advanced_from_nids it0 it :
  advanced_from it0 it → Iterator.nids it = Iterator.nids it0.
Proof.
  induction 1 as [|it w r it' w' _ IH Hnext]; [done|].
  by rewrite (next_keeps_nids _ _ _ _ _ Hnext).
Qed.

(** C9 (as amended). The ids an iterator walks are those [getAllNids]
    returned when it was constructed, and calls of [next] never change them.
    In whatever kinded world a call of [next] runs: past the end of the
    snapshot it returns the end marker and leaves the iterator as it is; at
    an id of the snapshot whose canonical record is absent (the node was
    deleted since) it throws the iterator's not-found error, in place of
    skipping the id or ending the sequence; at an id whose record is present
    it returns that record as it is now and moves on by one.  So every node
    it yields has an id that was listed at construction. *)
Theorem iterator_walks_snapshot (w0 w : World) (it0 it : Iterator.t) :
  kinded w0 → Iterator.create w0 = (Returned it0, w0) →
  advanced_from it0 it → kinded w →
  Iterator.nids it = tag_nid <$> sort_latest_first (listing w0)
  ∧ ((length (Iterator.nids it) ≤ Iterator.index it)%nat →
     Iterator.next it w = (Returned (None, it), w))
  ∧ (∀ nid, Iterator.nids it !! Iterator.index it = Some nid →
            stored_node w nid = None →
            Iterator.next it w = (Thrown (IteratorNodeNotFound nid), w))
  ∧ (∀ nid value,
       Iterator.nids it !! Iterator.index it = Some nid →
       stored_node w nid = Some value →
       Iterator.next it w
       = (Returned (Some (NodeUtil_fromJson value),
                    {| Iterator.nids := Iterator.nids it;
                       Iterator.index := S (Iterator.index it) |}), w))
  ∧ (∀ node it' w',
       Iterator.next it w = (Returned (Some node, it'), w') →
       ∃ nid value, nid ∈ tag_nid <$> listing w0
                    ∧ stored_node w nid = Some value
                    ∧ node = NodeUtil_fromJson value).
Proof.
  intros Hk0 Hcreate Hadv Hk.
  rewrite create_run in Hcreate by done. injection Hcreate as <-.
  pose proof (advanced_from_nids _ _ Hadv) as Hnids. simpl in Hnids.
  split; [exact Hnids|].
  split; [apply next_exhausted|].
  split; [intros nid; by apply next_missing|].
  split; [intros nid value; by apply next_found|].
  intros node it' w' Hnext.
  destruct (Iterator.nids it !! Iterator.index it) as [nid|] eqn:Hnid.
  - assert (nid ∈ tag_nid <$> listing w0) as Hlisted.
    { apply list_elem_of_lookup_2 in Hnid. rewrite Hnids in Hnid.
      by rewrite sort_latest_first_Permutation in Hnid. }
    destruct (stored_node w nid) as [value|] eqn:Hstored.
    + rewrite (next_found _ _ _ _ Hk Hnid Hstored) in Hnext.
      injection Hnext as <- <- <-. eauto.
    + by rewrite (next_missing _ _ _ Hk Hnid Hstored) in Hnext.
  - apply lookup_ge_None_1 in Hnid.
    by rewrite (next_exhausted _ _ Hnid) in Hnext.
Qed.

End NodeIterator.

(** * Properties of the other functions *)

(** ** The record store, continued *)
Section MoreRecordStore.
Context `{ST : SmugglerTypes}.
Import YekLavStore.

Lemma stringify_payload (y1 y2 : Yek) :
  stringify y1 = stringify y2 → payload y1 = payload y2.
Proof.
  intros E. pose proof (stringify_kind _ _ E) as Hk.
  destruct y1, y2; try discriminate Hk;
    first [ reflexivity | injection E as E; simpl in E; exact E ].
Qed.

(** X1. Two keys have the same substrate key exactly when they are of the
    same kind and print the same payload (the node id, the origin hash, the
    pipeline key; nothing for the two singleton kinds). *)
Theorem stringify_collision (y1 y2 : Yek) :
  stringify y1 = stringify y2
  ↔ yek_kind y1 = yek_kind y2 ∧ payload y1 = payload y2.
Proof.
  split.
  - intros E. split; [by apply stringify_kind|by apply stringify_payload].
  - intros [Hk Hp].
    destruct y1, y2; try discriminate Hk; simpl in *; by rewrite ?Hp.
Qed.

Lemma set_returned_inv (items : list YekLav) (w w' : World) :
  set items w = (Returned tt, w') →
  Forall (fun item => ¬ mismatched item) items
  ∧ NoDup (keys_of items)
  ∧ w' = substrate_set (records_of items) w.
Proof.
  intros Hset.
  destruct (decide (Exists mismatched items)) as [Hex|Hall].
  { destruct (set_throws_mismatch items w Hex) as (item & E & _). congruence. }
  apply not_Exists_Forall in Hall; [|intros item; apply _].
  destruct (decide (NoDup (keys_of items))) as [Hnd|Hdup].
  - rewrite set_returns in Hset by done. by injection Hset as <-.
  - destruct (set_throws_duplicate items w Hall Hdup) as (key & E & _).
    congruence.
Qed.

(** X2. After a [set] that returned, [get] of the key of any entry of the
    batch returns the value of that entry, and [get] of a key outside the
    batch returns what it returned before. *)
Theorem get_after_set (items : list YekLav) (w w' : World) :
  set items w = (Returned tt, w') →
  (∀ item, item ∈ items →
           get (yek item) w' = (Returned (Some (lav item)), w'))
  ∧ (∀ y, stringify y ∉ keys_of items →
          get y w' = (Returned (storage w !! stringify y), w')).
Proof.
  intros (Hkinds & Hnd & ->)%set_returned_inv. split.
  - intros item Hin. unfold get. cbn [storage substrate_set].
    by rewrite lookup_set_in.
  - intros y Hy. unfold get. cbn [storage substrate_set].
    by rewrite lookup_set_out.
Qed.

(** X3. [remove] never throws: it makes one substrate call, after which
    [get] finds nothing under the keys removed (whether or not they were
    present) and finds under every other key what was there before. *)
Theorem get_after_remove (yeks : list Yek) (w : World) :
  ∃ w',
    remove yeks w = (Returned tt, w')
    ∧ calls w' = calls w ++ [StorageRemove (stringify <$> yeks)]
    ∧ (∀ y, stringify y ∈ stringify <$> yeks →
            get y w' = (Returned None, w'))
    ∧ (∀ y, stringify y ∉ stringify <$> yeks →
            get y w' = (Returned (storage w !! stringify y), w')).
Proof.
  eexists. split; [reflexivity|]. split; [reflexivity|]. split.
  - intros y Hy. unfold get. cbn [storage substrate_remove].
    by rewrite lookup_foldr_delete.
  - intros y Hy. unfold get. cbn [storage substrate_remove].
    by rewrite lookup_foldr_delete_not_elem_of.
Qed.

Lemma concat_value_kind (stored : option Lav) (l new_lav : Lav) :
  concat_value stored l = Some new_lav → lav_kind new_lav = lav_kind l.
Proof.
  destruct stored as [[]|], l; simpl; intros E; by simplify_eq.
Qed.

(** X4. [prepareAppend] reads only: the world is the same after it,
    however it ends.  With a value of another kind than the key it throws
    before it reads; and a record it returns is under the key asked for and
    of the kind of that key, so that the kind check of [set] accepts it. *)
Theorem prepareAppend_proposes (y : Yek) (l : Lav) (w : World) :
  (prepareAppend y l w).2 = w
  ∧ (yek_kind y ≠ lav_kind l →
     (prepareAppend y l w).1
     = Thrown (AppendMismatchingKinds (yek_kind y) (lav_kind l)))
  ∧ (∀ item, (prepareAppend y l w).1 = Returned item →
             yek item = y ∧ lav_kind (lav item) = yek_kind y).
Proof.
  unfold prepareAppend.
  destruct (decide (yek_kind y ≠ lav_kind l)) as [Hne|Heq%dec_stable].
  { split; [done|]. split; [done|]. intros item. discriminate. }
  unfold await, get.
  destruct (storage w !! stringify y) as [stored|]; cbn [negb].
  - destruct (isOfArrayKind stored); cbn [negb];
      [|split; [done|split; [done|intros item; discriminate]]].
    destruct (concat_value (Some stored) l) as [new_lav|] eqn:E;
      (split; [done|split; [done|]]); intros item; [|discriminate].
    intros [= <-]. apply concat_value_kind in E. simpl. by rewrite E.
  - destruct (concat_value None l) as [new_lav|] eqn:E;
      (split; [done|split; [done|]]); intros item; [|discriminate].
    intros [= <-]. apply concat_value_kind in E. simpl. by rewrite E.
Qed.

(** X5. [prepareRemoval] on an adjacency bucket reads only, on a kinded
    substrate never throws, and proposes for the key asked for the edges of
    the stored bucket that have no endpoint among the ids given, in their
    stored order; for a key without a record it proposes the empty
    bucket. *)
Theorem prepareRemoval_bucket_proposes (nid : Nid) (criteria : list Nid)
    (w : World) :
  kinded w →
  ∃ edges,
    prepareRemoval (NidToEdgeYek nid) criteria w
    = (Returned {| yek := NidToEdgeYek nid; lav := NidToEdgeLav edges |}, w)
    ∧ edges `sublist_of` bucket w nid
    ∧ (∀ e, e ∈ edges ↔ (e ∈ bucket w nid)
                        ∧ (from_nid e ∉ criteria) ∧ (to_nid e ∉ criteria))
    ∧ (storage w !! stringify (NidToEdgeYek nid) = None → edges = []).
Proof.
  intros Hk. exists (remove_edges criteria (bucket w nid)).
  split; [by apply prepareRemoval_bucket|]. split; [apply sublist_filter|].
  split.
  - intros e. unfold remove_edges. rewrite list_elem_of_filter. tauto.
  - intros E. unfold bucket. by rewrite E.
Qed.

End MoreRecordStore.

(** ** Edges *)
Section MoreEdges.
Context `{SX : SmugglerExtras}.
Import YekLavStore.

Lemma getNodeAllEdges_fold nid (value : list TEdgeJson) (ret : NodeEdges) :
  foldl
    (fun ret edge =>
       if decide (to_nid edge = nid) then
         {| from_edges := from_edges ret ++ [EdgeUtil_fromJson edge];
            to_edges := to_edges ret |}
       else
         {| from_edges := from_edges ret;
            to_edges := to_edges ret ++ [EdgeUtil_fromJson edge] |})
    ret value
  = {| from_edges :=
         from_edges ret
         ++ (EdgeUtil_fromJson <$> filter (fun e => to_nid e = nid) value);
       to_edges :=
         to_edges ret
         ++ (EdgeUtil_fromJson <$> filter (fun e => to_nid e ≠ nid) value) |}.
Proof.
  revert ret. induction value as [|edge value IH]; intros ret; simpl.
  - rewrite !app_nil_r. by destruct ret.
  - rewrite IH, !filter_cons.
    destruct (decide (to_nid edge = nid)) as [E|Hne]; simpl.
    + rewrite decide_False by (by intros ?). by rewrite <- app_assoc.
    + rewrite decide_True by done. by rewrite <- app_assoc.
Qed.

Lemma getNodeAllEdges_run nid w :
  kinded w →
  getNodeAllEdges nid w
  = (Returned
       {| from_edges :=
            EdgeUtil_fromJson
            <$> filter (fun e => to_nid e = nid) (bucket w nid);
          to_edges :=
            EdgeUtil_fromJson
            <$> filter (fun e => to_nid e ≠ nid) (bucket w nid) |}, w).
Proof.
  intros Hk. unfold getNodeAllEdges.
  erewrite await_returned
    by (apply get_as_kinded; [exact Hk|by intros []; eauto]).
  unfold bucket.
  destruct (storage w !! stringify (NidToEdgeYek nid) ≫= as_NidToEdge)
    as [value|]; [|done].
  unfold resolve. by rewrite getNodeAllEdges_fold.
Qed.

(** X6. On a kinded substrate [getNodeAllEdges] never throws and splits the
    adjacency bucket of the node in two, in stored order: the edges whose
    [to_nid] is the node, as incoming, and all the others, as outgoing.  A
    node without a bucket has no edges. *)
Theorem getNodeAllEdges_partitions (nid : Nid) (w : World) :
  kinded w →
  ∃ r,
    getNodeAllEdges nid w = (Returned r, w)
    ∧ from_edges r
      = EdgeUtil_fromJson <$> filter (fun e => to_nid e = nid) (bucket w nid)
    ∧ to_edges r
      = EdgeUtil_fromJson <$> filter (fun e => to_nid e ≠ nid) (bucket w nid)
    ∧ (length (from_edges r) + length (to_edges r)
       = length (bucket w nid))%nat
    ∧ (storage w !! stringify (NidToEdgeYek nid) = None →
       from_edges r = [] ∧ to_edges r = []).
Proof.
  intros Hk. eexists. split; [by apply getNodeAllEdges_run|].
  cbn [from_edges to_edges]. split; [done|]. split; [done|]. split.
  - rewrite !length_fmap.
    induction (bucket w nid) as [|e l IH]; [done|].
    rewrite !filter_cons. destruct (decide (to_nid e = nid)) as [E|Hne].
    + rewrite decide_False by (by intros ?). simpl. lia.
    + rewrite decide_True by done. simpl. lia.
  - intros E. unfold bucket. by rewrite E.
Qed.

(** X7. On a kinded substrate [createEdge] between two different nodes
    returns, and afterwards [getNodeAllEdges] reports
    the new edge among the outgoing edges of its source and among the
    incoming edges of its target. *)
Theorem getNodeAllEdges_after_createEdge (from to : Nid) (w : World) :
  kinded w → from ≠ to →
  ∃ edge w' rf rt,
    createEdge from to w = (Returned edge, w')
    ∧ from_nid edge = from ∧ to_nid edge = to
    ∧ getNodeAllEdges from w' = (Returned rf, w')
    ∧ EdgeUtil_fromJson edge ∈ to_edges rf
    ∧ getNodeAllEdges to w' = (Returned rt, w')
    ∧ EdgeUtil_fromJson edge ∈ from_edges rt.
Proof.
  intros Hk Hne.
  destruct (createEdge_links from to w Hk Hne)
    as (edge & w' & Hrun & Hfrom & Hto & Hk' & Hbf & Hbt).
  exists edge, w'. do 2 eexists.
  split; [exact Hrun|]. split; [done|]. split; [done|].
  split; [by apply getNodeAllEdges_run|]. split.
  { cbn [to_edges]. apply list_elem_of_fmap_2, list_elem_of_filter.
    split; [congruence|]. rewrite Hbf. apply elem_of_app. right. left. }
  split; [by apply getNodeAllEdges_run|].
  cbn [from_edges]. apply list_elem_of_fmap_2, list_elem_of_filter.
  split; [done|]. rewrite Hbt. apply elem_of_app. right. left.
Qed.

(** X8. [createEdge] from a node to itself prepares two appends to one
    bucket: on a kinded substrate [set] throws the duplicate-key error for
    that bucket and nothing is written. *)
Theorem createEdge_self_loop (nid : Nid) (w : World) :
  kinded w →
  ∃ w',
    createEdge nid nid w
    = (Thrown (SetDuplicateKey (stringify (NidToEdgeYek nid))), w')
    ∧ storage w' = storage w ∧ calls w' = calls w.
Proof.
  intros Hk. unfold createEdge, generateEid.
  erewrite await_returned by reflexivity.
  erewrite await_returned by apply generateNid_run.
  erewrite await_returned by (by apply prepareAppend_bucket).
  erewrite await_returned by (by apply prepareAppend_bucket).
  exists (draw 1 w). split; [|done].
  apply await_thrown. unfold set. cbn [List.find yek lav yek_kind lav_kind].
  rewrite !bool_decide_eq_false_2 by (by intros ?).
  cbn [set_records yek lav fmap list_fmap app fst].
  rewrite decide_False by apply not_elem_of_nil.
  rewrite decide_True by left. reflexivity.
Qed.

End MoreEdges.

(** ** Single-record writes *)
Section MoreSteps.
Context `{ST : SmugglerTypes}.
Import YekLavStore.

Lemma set_one (y : Yek) (l : Lav) (w : World) :
  lav_kind l = yek_kind y →
  set [{| yek := y; lav := l |}] w
  = (Returned tt, substrate_set [(stringify y, l)] w).
Proof.
  intros E. rewrite set_returns; [done| |apply NoDup_singleton].
  apply Forall_singleton. intros Hm. by apply Hm.
Qed.

Lemma lookup_set_one (y : Yek) (l : Lav) (w : World) :
  storage (substrate_set [(stringify y, l)] w) !! stringify y = Some l.
Proof.
  cbn [storage substrate_set list_to_map foldr].
  apply lookup_union_Some_l. apply lookup_insert_eq.
Qed.

Lemma lookup_set_one_ne (y : Yek) (l : Lav) (w : World) (key : string) :
  key ≠ stringify y →
  storage (substrate_set [(stringify y, l)] w) !! key = storage w !! key.
Proof.
  intros Hne. cbn [storage substrate_set list_to_map foldr].
  apply lookup_union_r. by rewrite lookup_insert_ne.
Qed.

Lemma lookup_remove_one (y : Yek) (w : World) :
  storage (substrate_remove [stringify y] w) !! stringify y = None.
Proof. cbn [storage substrate_remove foldr]. apply lookup_delete_eq. Qed.

Lemma lookup_remove_one_ne (y : Yek) (w : World) (key : string) :
  key ≠ stringify y →
  storage (substrate_remove [stringify y] w) !! key = storage w !! key.
Proof.
  intros Hne. cbn [storage substrate_remove foldr].
  by apply lookup_delete_ne.
Qed.

End MoreSteps.

(** ** Nodes by origin, node updates *)
Section MoreNodes.
Context `{SX : SmugglerExtras}.
Import YekLavStore.

Lemma getNodesByOrigin_run origin w :
  kinded w →
  getNodesByOrigin origin w
  = (Returned
       (NodeUtil_fromJson
        <$> omap (stored_node w)
              (first_occurrences (origin_index w origin))), w).
Proof.
  intros Hk. unfold getNodesByOrigin.
  erewrite await_returned
    by (apply get_as_kinded; [exact Hk|by intros []; eauto]).
  unfold origin_index.
  destruct (storage w !! stringify (OriginToNidYek origin) ≫= as_OriginToNid)
    as [value|]; [|done].
  erewrite await_returned by reflexivity.
  rewrite keyToYek_NidToNode. by apply nodes_of_run.
Qed.

Lemma createNode_world_origin args w origin :
  NoDup (new_nid_of w :: froms_of args ++ tos_of args) →
  args_origin args = Some origin →
  origin_index (createNode_world args w) origin
  = origin_index w origin ++ [new_nid_of w].
Proof.
  intros Hnd Ho. unfold origin_index at 1.
  unfold createNode_world. cbn [storage].
  rewrite (lookup_set_in (createNode_batch args w) _
             {| yek := OriginToNidYek origin;
                lav := OriginToNidLav
                         (origin_index w origin ++ [new_nid_of w]) |});
    [done|by apply createNode_batch_NoDup|].
  unfold createNode_batch. rewrite Ho. do 2 right. left.
Qed.

(** X9. On a kinded substrate [getNodesByOrigin] never throws and changes
    nothing: it returns [NodeUtil.fromJson] of the stored record of every
    node id in the index of the origin that still has a record, once per id,
    in the order of the index.  Indexed ids without a record are skipped,
    and an origin without an index has no nodes. *)
Theorem getNodesByOrigin_reads_index (origin : OriginId) (w : World) :
  kinded w →
  ∃ found,
    getNodesByOrigin origin w = (Returned (NodeUtil_fromJson <$> found), w)
    ∧ found
      = omap (stored_node w) (first_occurrences (origin_index w origin))
    ∧ (∀ value, value ∈ found
                ↔ ∃ nid, nid ∈ origin_index w origin
                         ∧ stored_node w nid = Some value)
    ∧ (storage w !! stringify (OriginToNidYek origin) = None → found = []).
Proof.
  intros Hk. eexists. split; [by apply getNodesByOrigin_run|].
  split; [done|]. split.
  - intros value. rewrite list_elem_of_omap.
    split; intros (nid & Hin & Hv); exists nid;
      (split; [by apply first_occurrences_elem|done]).
  - intros E. unfold origin_index. by rewrite E.
Qed.

(** X10. A node created with an origin is found by that origin: after a
    [createNode] that returns, [getNodesByOrigin] of the origin of the
    arguments returns a list that contains the new node. *)
Theorem getNodesByOrigin_after_createNode
    (args : NodeCreateArgs) (origin : OriginId) (w : World) :
  kinded w →
  NoDup (new_nid_of w :: froms_of args ++ tos_of args) →
  args_origin args = Some origin →
  ∃ w' json nodes,
    createNode args w = (Returned (nid json), w')
    ∧ text json = args_text args
    ∧ getNodesByOrigin origin w' = (Returned nodes, w')
    ∧ NodeUtil_fromJson json ∈ nodes.
Proof.
  intros Hk Hnd Ho.
  exists (createNode_world args w), (created_node args w). eexists.
  split; [by apply createNode_returns|]. split; [done|].
  split; [by apply getNodesByOrigin_run, kinded_createNode_world|].
  apply list_elem_of_fmap_2, list_elem_of_omap.
  exists (new_nid_of w). split.
  - apply first_occurrences_elem.
    rewrite (createNode_world_origin _ _ _ Hnd Ho).
    apply elem_of_app. right. left.
  - unfold stored_node, node_record.
    by rewrite (createNode_world_node _ _ Hnd).
Qed.

(** X11. [updateNode] of a node that has a record returns the
    acknowledgement and the ['updated'] notification carrying the arguments,
    after exactly one write, of the record of that node.  [getNode] then
    returns the merged record: [text] and [index_text] are replaced where
    the arguments supply one and kept otherwise (an index text cannot be
    cleared), [updated_at] is the clock unless [preserve_update_time] is
    set, every other field and the auxiliary data are kept, and no other key
    of the substrate changes. *)
Theorem updateNode_then_getNode
    (args : NodeUpdateArgs) (w : World) (value : TNodeJson)
    (auxiliary : Auxiliary) :
  node_record w (update_nid args) = Some (value, auxiliary) →
  ∃ w' json,
    updateNode args w
    = (Returned
         (inr ({| ack := true |},
               {| updated_nid := update_nid args;
                  updated_text := update_text args;
                  updated_index_text := update_index_text args |})), w')
    ∧ getNode (update_nid args) w' = (Returned (NodeUtil_fromJson json), w')
    ∧ node_record w' (update_nid args) = Some (json, auxiliary)
    ∧ text json = default (text value) (update_text args)
    ∧ index_text json
      = match update_index_text args with
        | Some t => Some t
        | None => index_text value
        end
    ∧ updated_at json
      = (if default false (preserve_update_time args) then updated_at value
         else clock w)
    ∧ nid json = nid value ∧ ntype json = ntype value
    ∧ extattrs json = extattrs value ∧ created_at json = created_at value
    ∧ (∀ key, key ≠ stringify (NidToNodeYek (update_nid args)) →
              storage w' !! key = storage w !! key)
    ∧ calls w'
      = calls w
        ++ [StorageSet [(stringify (NidToNodeYek (update_nid args)),
                         NidToNodeLav json auxiliary)]].
Proof.
  intros Hrec. unfold node_record in Hrec.
  destruct (storage w !! stringify (NidToNodeYek (update_nid args)))
    as [l|] eqn:E; [|discriminate Hrec].
  destruct l; try discriminate Hrec. simpl in Hrec.
  injection Hrec as -> ->.
  unfold updateNode.
  erewrite await_returned
    by (unfold get_as, await, get; rewrite E; reflexivity).
  destruct (default false (preserve_update_time args)) eqn:Hp; cbn [negb].
  - erewrite await_returned by reflexivity.
    erewrite await_returned by (by apply set_one).
    do 2 eexists. split; [reflexivity|].
    split; [eapply getNode_found, lookup_set_one|].
    split; [unfold node_record; by rewrite lookup_set_one|].
    cbn [text index_text updated_at nid ntype extattrs created_at].
    split; [by destruct (update_text args)|].
    repeat (split; [done|]).
    split; [|done]. intros key Hne. by apply lookup_set_one_ne.
  - erewrite await_returned
      by (erewrite await_returned by reflexivity; reflexivity).
    erewrite await_returned by (by apply set_one).
    do 2 eexists. split; [reflexivity|].
    split; [eapply getNode_found, lookup_set_one|].
    split; [unfold node_record; by rewrite lookup_set_one|].
    cbn [text index_text updated_at nid ntype extattrs created_at].
    split; [by destruct (update_text args)|].
    repeat (split; [done|]).
    split; [|done]. intros key Hne. by apply lookup_set_one_ne.
Qed.

(** X12. [updateNode] of an id without a record fails with the not-found
    error of that id and touches nothing: no write, no notification, and a
    later [getNode] still throws. *)
Theorem updateNode_missing (args : NodeUpdateArgs) (w : World) :
  kinded w →
  node_record w (update_nid args) = None →
  updateNode args w = (Returned (inl (UpdateNodeNotFound (update_nid args))), w)
  ∧ getNode (update_nid args) w = (Thrown (NodeNotFound (update_nid args)), w).
Proof.
  intros Hk Hrec. unfold node_record in Hrec.
  destruct (storage w !! stringify (NidToNodeYek (update_nid args)))
    as [l|] eqn:E.
  - pose proof (Hk _ _ E) as Hkind. by destruct l.
  - split; [|by apply getNode_not_found].
    unfold updateNode.
    by erewrite await_returned
      by (unfold get_as, await, get; rewrite E; reflexivity).
Qed.

End MoreNodes.

(** ** Similarity information, account information, activity *)
Section MoreRecords.
Context `{SX : SmugglerExtras}.
Import YekLavStore.

(** X13. The similarity information of a node makes a round trip: after
    [setNodeSimilaritySearchInfo] the getter returns what was set, after
    [deleteNodeSimilaritySearchInfo] it returns [null], and no other key of
    the substrate has changed.  None of the calls throws, whatever the
    substrate holds. *)
Theorem similarity_info_round_trip
    (nid : Nid) (simsearch : NodeSimilaritySearchInfo) (w : World) :
  ∃ w1 w2,
    setNodeSimilaritySearchInfo nid simsearch w
    = (Returned {| ack := true |}, w1)
    ∧ getNodeSimilaritySearchInfo nid w1 = (Returned (Some simsearch), w1)
    ∧ deleteNodeSimilaritySearchInfo nid w1 = (Returned {| ack := true |}, w2)
    ∧ getNodeSimilaritySearchInfo nid w2 = (Returned None, w2)
    ∧ (∀ key, key ≠ stringify (NidToNodeSimilaritySearchInfoYek nid) →
              storage w1 !! key = storage w !! key
              ∧ storage w2 !! key = storage w !! key).
Proof.
  do 2 eexists. split.
  { unfold setNodeSimilaritySearchInfo.
    by erewrite await_returned by (by apply set_one). }
  split.
  { unfold getNodeSimilaritySearchInfo, get_as, await, get.
    by rewrite lookup_set_one. }
  split.
  { unfold deleteNodeSimilaritySearchInfo.
    by erewrite await_returned by reflexivity. }
  split.
  { unfold getNodeSimilaritySearchInfo, get_as, await, get.
    cbn [fmap list_fmap]. by rewrite lookup_remove_one. }
  intros key Hne. cbn [fmap list_fmap].
  by rewrite lookup_remove_one_ne, lookup_set_one_ne.
Qed.

(** X14. The account information makes a round trip: after
    [setUserAccountInfoToLocalStorage] with an account the getter returns
    it, after the same call without one it returns [null], and no other key
    of the substrate has changed. *)
Theorem account_info_round_trip (info : AccountInfo) (w : World) :
  ∃ w1 w2,
    setUserAccountInfoToLocalStorage (Some info) w
    = (Returned {| ack := true |}, w1)
    ∧ getUserAccountInforFromLocalStorage w1 = (Returned (Some info), w1)
    ∧ setUserAccountInfoToLocalStorage None w1
      = (Returned {| ack := true |}, w2)
    ∧ getUserAccountInforFromLocalStorage w2 = (Returned None, w2)
    ∧ (∀ key, key ≠ stringify UserAccountInfoYek →
              storage w1 !! key = storage w !! key
              ∧ storage w2 !! key = storage w !! key).
Proof.
  do 2 eexists. split.
  { unfold setUserAccountInfoToLocalStorage.
    by erewrite await_returned by (by apply set_one). }
  split.
  { unfold getUserAccountInforFromLocalStorage, get_as, await, get.
    by rewrite lookup_set_one. }
  split.
  { unfold setUserAccountInfoToLocalStorage.
    by erewrite await_returned by reflexivity. }
  split.
  { unfold getUserAccountInforFromLocalStorage, get_as, await, get.
    cbn [fmap list_fmap]. by rewrite lookup_remove_one. }
  intros key Hne. cbn [fmap list_fmap].
  by rewrite lookup_remove_one_ne, lookup_set_one_ne.
Qed.


Lemma OriginId_eq (a b : OriginId) : id a = id b → a = b.
Proof. destruct a, b. simpl. by intros ->. Qed.











End MoreRecords.

(** ** Removal of several nodes *)
Section BulkDelete.
Context `{SX : SmugglerExtras}.
Import YekLavStore.

Lemma omap_fmap_id {A B} (f : A → option B) (l : list A) :
  omap (fun r => r) (f <$> l) = omap f l.
Proof.
  induction l as [|x l IH]; [done|].
  rewrite fmap_cons. cbn [omap list_omap]. destruct (f x); by rewrite <- IH.
Qed.

Lemma prepareNodeRemoval_plan nids w :
  kinded w →
  prepareNodeRemoval nids w
  = (Returned (removal_toRemove nids, removal_toSet w nids), w).
Proof.
  intros Hk. unfold prepareNodeRemoval.
  erewrite await_returned
    by (apply for_await_pure; intros n; by apply mirrors_step).
  erewrite await_returned by (by apply prepareRemoval_listing).
  erewrite await_returned
    by (apply for_await_pure; intros n; by apply by_origin_step).
  unfold resolve, removal_toSet, removal_toRemove, removal_mirrors.
  by rewrite omap_fmap_id.
Qed.

Lemma bulkDeleteNodes_run createdVia pipeline w :
  kinded w →
  autoIngestion createdVia = Some pipeline →
  bulkDeleteNodes createdVia w
  = (let* _ := set (removal_toSet w (pipeline_index w pipeline)) in
     resolve (inr (length (pipeline_index w pipeline))))
      (bulkDelete_removed w pipeline).
Proof.
  intros Hk Hvia. unfold bulkDeleteNodes. rewrite Hvia.
  erewrite await_returned
    by (apply get_as_kinded; [exact Hk|by intros []; eauto]).
  change (default [] (storage w !! stringify (ExtPipelineToNidYek pipeline)
                      ≫= as_ExtPipelineToNid))
    with (pipeline_index w pipeline).
  erewrite await_returned by (by apply prepareNodeRemoval_plan).
  by erewrite await_returned by reflexivity.
Qed.

Lemma removal_toSet_kinds w nids :
  Forall (fun item => ¬ mismatched item) (removal_toSet w nids).
Proof.
  unfold removal_toSet. apply Forall_app. split; [|apply Forall_app; split].
  - unfold removal_mirrors. apply Forall_concat, Forall_fmap, Forall_forall.
    intros n _. apply Forall_fmap, Forall_forall. intros m _. by intros [].
  - apply Forall_singleton. by intros [].
  - apply Forall_forall. intros item (n & _ & Hn)%list_elem_of_omap.
    unfold removal_by_origin in Hn. destruct (origin_of w n); [|done].
    injection Hn as <-. by intros [].
Qed.

Lemma removal_toSet_yeks w nids :
  yek <$> removal_toSet w nids
  = (NidToEdgeYek <$> removal_linked w nids)
    ++ [AllNidsYek] ++ (OriginToNidYek <$> removal_origins w nids).
Proof.
  unfold removal_toSet, removal_mirrors, removal_linked, removal_origins.
  rewrite !fmap_app. f_equal; [|f_equal].
  - induction nids as [|n nids IH]; [done|].
    rewrite !fmap_cons. cbn [concat]. rewrite !fmap_app, IH. f_equal.
    by rewrite <- list_fmap_compose.
  - induction nids as [|n nids IH]; [done|].
    cbn [omap list_omap]. unfold removal_by_origin at 1.
    destruct (origin_of w n); [|exact IH].
    rewrite !fmap_cons. by f_equal.
Qed.

Lemma stringify_OriginToNid_inj a b :
  stringify (OriginToNidYek a) = stringify (OriginToNidYek b) → a = b.
Proof. intros E%stringify_OriginToNid_eq. by apply OriginId_eq. Qed.

Lemma removal_toSet_NoDup w nids :
  NoDup (removal_linked w nids) →
  NoDup (removal_origins w nids) →
  NoDup (keys_of (removal_toSet w nids)).
Proof.
  intros Hl Ho. rewrite keys_of_yeks, removal_toSet_yeks.
  apply NoDup_stringify_app; [|apply NoDup_stringify_app|].
  - rewrite <- list_fmap_compose.
    by apply (NoDup_fmap_2 (fun n => stringify (NidToEdgeYek n))).
  - apply NoDup_singleton.
  - rewrite <- list_fmap_compose. apply NoDup_fmap_2_strong; [|done].
    intros a b _ _. apply stringify_OriginToNid_inj.
  - intros y1 y2 ->%list_elem_of_singleton (o & -> & _)%list_elem_of_fmap.
    done.
  - intros y1 y2 (n & -> & _)%list_elem_of_fmap
      [E%list_elem_of_singleton|(o & -> & _)%list_elem_of_fmap]%elem_of_app;
      [by rewrite E|done].
Qed.

Lemma removal_toSet_dup w nids :
  ¬ NoDup (removal_linked w nids) ∨ ¬ NoDup (removal_origins w nids) →
  ¬ NoDup (keys_of (removal_toSet w nids)).
Proof.
  intros Hdup Hnd.
  rewrite keys_of_yeks, removal_toSet_yeks, !fmap_app in Hnd.
  apply NoDup_app in Hnd as (Hl & _ & Hnd).
  apply NoDup_app in Hnd as (_ & _ & Ho).
  destruct Hdup as [Hdup|Hdup]; apply Hdup.
  - by do 2 apply NoDup_fmap_1 in Hl.
  - by do 2 apply NoDup_fmap_1 in Ho.
Qed.

(** The batch only names buckets, the listing and origin indexes. *)
Lemma removal_toSet_key_kind w nids y :
  stringify y ∈ keys_of (removal_toSet w nids) →
  yek_kind y = K_nid_edge ∨ yek_kind y = K_all_nids
  ∨ yek_kind y = K_origin_nid.
Proof.
  rewrite keys_of_yeks, removal_toSet_yeks.
  intros (y' & E%stringify_kind & Hy')%list_elem_of_fmap. rewrite E.
  apply elem_of_app in Hy' as [(n & -> & _)%list_elem_of_fmap|Hy'];
    [by left|].
  apply elem_of_app in Hy' as [E'%list_elem_of_singleton
                              |(o & -> & _)%list_elem_of_fmap];
    [right; left; by rewrite E'|right; by right].
Qed.

Lemma bulkDelete_world_removed w pipeline y :
  y ∈ bulkDelete_toRemove pipeline (pipeline_index w pipeline) →
  yek_kind y ≠ K_nid_edge →
  storage (bulkDelete_world w pipeline) !! stringify y = None.
Proof.
  intros Hy Hkind.
  unfold bulkDelete_world, substrate_set, bulkDelete_removed.
  cbn [storage]. rewrite lookup_set_out.
  - cbn [storage substrate_remove]. apply lookup_foldr_delete.
    by apply list_elem_of_fmap_2.
  - intros Hin%removal_toSet_key_kind.
    unfold bulkDelete_toRemove, removal_toRemove in Hy.
    rewrite !elem_of_app, !list_elem_of_fmap in Hy.
    destruct Hy as [[[(n & -> & _)|(n & -> & _)]|(n & -> & _)]|Hy];
      [by destruct Hin as [?|[?|?]]|done|by destruct Hin as [?|[?|?]]|].
    apply elem_of_cons in Hy as [->|E%list_elem_of_singleton];
      [|rewrite E in Hin]; by destruct Hin as [?|[?|?]].
Qed.

Lemma bulkDelete_world_listing w pipeline :
  NoDup (keys_of (removal_toSet w (pipeline_index w pipeline))) →
  listing (bulkDelete_world w pipeline)
  = remove_tags (pipeline_index w pipeline) (listing w).
Proof.
  intros Hnd. unfold listing at 1. unfold bulkDelete_world.
  cbn [storage substrate_set].
  rewrite (lookup_set_in _ _
             {| yek := AllNidsYek;
                lav := AllNidsLav
                         (remove_tags (pipeline_index w pipeline)
                            (listing w)) |});
    [done|done|].
  unfold removal_toSet. apply elem_of_app. right. left.
Qed.

Lemma bulkDelete_removed_kept w pipeline y :
  y ∉ bulkDelete_toRemove pipeline (pipeline_index w pipeline) →
  (∀ y', y' ∈ bulkDelete_toRemove pipeline (pipeline_index w pipeline) →
         stringify y' = stringify y → y' = y) →
  storage (bulkDelete_removed w pipeline) !! stringify y
  = storage w !! stringify y.
Proof.
  intros Hy Hinj. unfold bulkDelete_removed. cbn [storage substrate_remove].
  destruct (storage w !! stringify y) as [l|] eqn:E.
  - apply lookup_foldr_delete_Some. split; [|done].
    intros (y' & E' & Hy')%list_elem_of_fmap.
    apply Hy. by rewrite <- (Hinj y' Hy' (eq_sym E')).
  - apply eq_None_not_Some. intros [l Hl].
    apply lookup_foldr_delete_Some in Hl as [_ Hl]. congruence.
Qed.

(** X18. Take a kinded substrate in which the nodes ingested by a pipeline
    have, between them, one edge at most to any neighbour and no origin in
    common.  Then [bulkDeleteNodes] of that pipeline returns the number of
    ids in the index of the pipeline and afterwards every one of them is
    gone: [getNode] throws the not-found error, the similarity information
    reads [null], the id is neither in the stored listing nor in what
    [getAllNids] returns.  The index of the pipeline is empty and its
    ingestion progress reads as that of a pipeline never seen. *)
Theorem bulkDeleteNodes_removes
    (createdVia : NodeCreatedVia) (pipeline : UserExternalPipelineId)
    (w : World) :
  kinded w →
  autoIngestion createdVia = Some pipeline →
  NoDup (removal_linked w (pipeline_index w pipeline)) →
  NoDup (removal_origins w (pipeline_index w pipeline)) →
  ∃ w' listed,
    bulkDeleteNodes createdVia w
    = (Returned (inr (length (pipeline_index w pipeline))), w')
    ∧ getAllNids w' = (Returned listed, w')
    ∧ (∀ nid, nid ∈ pipeline_index w pipeline →
              getNode nid w' = (Thrown (NodeNotFound nid), w')
              ∧ getNodeSimilaritySearchInfo nid w' = (Returned None, w')
              ∧ (nid ∉ tag_nid <$> listing w')
              ∧ nid ∉ listed)
    ∧ pipeline_index w' pipeline = []
    ∧ getUserIngestionProgress pipeline w'
      = (Returned {| epid := pipeline; ingested_until := 0 |}, w').
Proof.
  intros Hk Hvia Hl Ho.
  pose proof (removal_toSet_NoDup _ _ Hl Ho) as Hnd.
  assert (bulkDeleteNodes createdVia w
          = (Returned (inr (length (pipeline_index w pipeline))),
             bulkDelete_world w pipeline)) as Hrun.
  { rewrite (bulkDeleteNodes_run _ pipeline) by done.
    erewrite await_returned; [reflexivity|].
    apply set_returns; [apply removal_toSet_kinds|done]. }
  assert (kinded (bulkDelete_world w pipeline)) as Hk'.
  { apply kinded_substrate_set; [apply removal_toSet_kinds|].
    by apply kinded_substrate_remove. }
  assert (∀ nid, nid ∈ pipeline_index w pipeline →
                 nid ∉ tag_nid <$> listing (bulkDelete_world w pipeline))
    as Hlisted.
  { intros nid Hin. rewrite bulkDelete_world_listing by done.
    intros (t & -> & [Ht _]%list_elem_of_filter)%list_elem_of_fmap.
    by apply Ht. }
  exists (bulkDelete_world w pipeline). eexists.
  split; [exact Hrun|]. split; [by apply getAllNids_run|].
  split; [|split].
  - intros nid Hin. split; [|split; [|split]].
    + apply getNode_not_found, bulkDelete_world_removed; [|done].
      unfold bulkDelete_toRemove, removal_toRemove.
      rewrite !elem_of_app. do 3 left. by apply list_elem_of_fmap_2.
    + unfold getNodeSimilaritySearchInfo, get_as, await, get.
      rewrite bulkDelete_world_removed; [done| |done].
      unfold bulkDelete_toRemove, removal_toRemove.
      rewrite !elem_of_app. left. right. by apply list_elem_of_fmap_2.
    + by apply Hlisted.
    + intros Hin'. apply (Hlisted nid Hin).
      by rewrite sort_latest_first_Permutation in Hin'.
  - unfold pipeline_index at 1.
    rewrite bulkDelete_world_removed; [done| |done].
    unfold bulkDelete_toRemove. apply elem_of_app. right. right. left.
  - unfold getUserIngestionProgress.
    erewrite await_returned
      by (apply get_as_kinded; [exact Hk'|by intros []; eauto]).
    rewrite bulkDelete_world_removed; [done| |done].
    unfold bulkDelete_toRemove. apply elem_of_app. right. left.
Qed.

(** X19. When two of the nodes ingested by a pipeline share an origin, or
    edges of theirs lead to one neighbour twice, [bulkDeleteNodes] throws
    the duplicate-key error of [set] after the removal has been applied:
    the records of the nodes, the index and the progress of the pipeline
    are gone, while the listing still holds what it held, so that
    [getAllNids] goes on returning the ids of removed nodes. *)
Theorem bulkDeleteNodes_partial
    (createdVia : NodeCreatedVia) (pipeline : UserExternalPipelineId)
    (w : World) :
  kinded w →
  autoIngestion createdVia = Some pipeline →
  ¬ NoDup (removal_linked w (pipeline_index w pipeline))
  ∨ ¬ NoDup (removal_origins w (pipeline_index w pipeline)) →
  ∃ key w' listed,
    bulkDeleteNodes createdVia w = (Thrown (SetDuplicateKey key), w')
    ∧ calls w'
      = calls w
        ++ [StorageRemove
              (stringify
               <$> bulkDelete_toRemove pipeline (pipeline_index w pipeline))]
    ∧ (∀ nid, nid ∈ pipeline_index w pipeline →
              getNode nid w' = (Thrown (NodeNotFound nid), w'))
    ∧ pipeline_index w' pipeline = []
    ∧ listing w' = listing w
    ∧ getAllNids w' = (Returned listed, w')
    ∧ (∀ nid, nid ∈ tag_nid <$> listing w → nid ∈ listed).
Proof.
  intros Hk Hvia Hdup.
  destruct (set_throws_duplicate
              (removal_toSet w (pipeline_index w pipeline))
              (bulkDelete_removed w pipeline))
    as (key & Hset & _);
    [apply removal_toSet_kinds|by apply removal_toSet_dup|].
  assert (kinded (bulkDelete_removed w pipeline)) as Hk'
    by (by apply kinded_substrate_remove).
  assert (listing (bulkDelete_removed w pipeline) = listing w) as Hlisting.
  { unfold listing.
    rewrite (bulkDelete_removed_kept w pipeline AllNidsYek); [done| |].
    - unfold bulkDelete_toRemove, removal_toRemove.
      rewrite !elem_of_app, !list_elem_of_fmap, elem_of_cons,
        list_elem_of_singleton.
      intros [[[(? & ? & _)|(? & ? & _)]|(? & ? & _)]|[?|?]]; done.
    - intros y' _ E. pose proof (stringify_kind _ _ E) as Hkind.
      by destruct y'. }
  exists key, (bulkDelete_removed w pipeline). eexists.
  split.
  { rewrite (bulkDeleteNodes_run _ pipeline) by done.
    by rewrite (await_thrown _ _ _ _ _ Hset). }
  split; [done|]. split; [|split; [|split; [done|split]]].
  - intros nid Hin. apply getNode_not_found.
    unfold bulkDelete_removed. cbn [storage substrate_remove].
    apply lookup_foldr_delete. apply list_elem_of_fmap_2.
    unfold bulkDelete_toRemove, removal_toRemove.
    rewrite !elem_of_app. do 3 left. by apply list_elem_of_fmap_2.
  - unfold pipeline_index at 1, bulkDelete_removed.
    cbn [storage substrate_remove].
    rewrite lookup_foldr_delete; [done|].
    apply list_elem_of_fmap_2.
    unfold bulkDelete_toRemove. apply elem_of_app. right. right. left.
  - by apply getAllNids_run.
  - intros nid Hin. rewrite Hlisting.
    by rewrite sort_latest_first_Permutation.
Qed.

End BulkDelete.

(** ** [deleteNode], however it ends *)
Section MoreDelete.
Context `{SX : SmugglerExtras}.
Import YekLavStore.

Lemma deleteNode_toSet_plan w nid :
  deleteNode_toSet w nid = removal_toSet w [nid].
Proof.
  unfold deleteNode_toSet, removal_toSet, removal_mirrors.
  cbn [fmap list_fmap concat omap list_omap]. rewrite app_nil_r.
  unfold removal_by_origin. by destruct (origin_of w nid).
Qed.

Lemma deleteNode_removed_gone w nid y :
  y ∈ deleteNode_toRemove nid →
  storage (deleteNode_removed w nid) !! stringify y = None.
Proof.
  intros Hy. unfold deleteNode_removed. cbn [storage].
  apply lookup_foldr_delete. by apply list_elem_of_fmap_2.
Qed.

Lemma deleteNode_world_gone w nid y :
  y ∈ deleteNode_toRemove nid →
  yek_kind y ≠ K_nid_edge →
  storage (deleteNode_world w nid) !! stringify y = None.
Proof.
  intros Hy Hkind. unfold deleteNode_world, substrate_set. cbn [storage].
  rewrite lookup_set_out; [by apply deleteNode_removed_gone|].
  rewrite deleteNode_toSet_plan. intros Hin%removal_toSet_key_kind.
  unfold deleteNode_toRemove in Hy.
  apply elem_of_cons in Hy as [->|Hy]; [by destruct Hin as [?|[?|?]]|].
  apply elem_of_cons in Hy as [->|Hy]; [done|].
  apply list_elem_of_singleton in Hy. rewrite Hy in Hin.
  by destruct Hin as [?|[?|?]].
Qed.

Lemma deleteNode_removed_kept w nid y :
  y ∉ deleteNode_toRemove nid →
  (∀ y', y' ∈ deleteNode_toRemove nid →
         stringify y' = stringify y → y' = y) →
  storage (deleteNode_removed w nid) !! stringify y
  = storage w !! stringify y.
Proof.
  intros Hy Hinj. unfold deleteNode_removed. cbn [storage].
  destruct (storage w !! stringify y) as [l|] eqn:E.
  - apply lookup_foldr_delete_Some. split; [|done].
    intros (y' & E' & Hy')%list_elem_of_fmap.
    apply Hy. by rewrite <- (Hinj y' Hy' (eq_sym E')).
  - apply eq_None_not_Some. intros [l Hl].
    apply lookup_foldr_delete_Some in Hl as [_ Hl]. congruence.
Qed.

(** X20. However [deleteNode] ends on a kinded substrate, the record of the
    node and its similarity information are gone afterwards and the
    ['will-delete'] notification has been registered: [getNode] throws the
    not-found error and the similarity information reads [null], also when
    the call itself has thrown. *)
Theorem deleteNode_always_removes (nid : Nid) (w : World) :
  kinded w →
  ∃ outcome w',
    deleteNode nid w = (outcome, w')
    ∧ getNode nid w' = (Thrown (NodeNotFound nid), w')
    ∧ getNodeSimilaritySearchInfo nid w' = (Returned None, w')
    ∧ events w' = events w ++ [EventWillDelete nid]
    ∧ (outcome = Returned {| ack := true |}
       ∨ ∃ key, outcome = Thrown (SetDuplicateKey key)).
Proof.
  intros Hk.
  destruct (decide (NoDup (linkedNids nid (bucket w nid)))) as [Hnd|Hdup].
  - do 2 eexists. split; [by apply deleteNode_returns|].
    split; [apply getNode_not_found, deleteNode_world_gone; [left|done]|].
    split; [|split; [done|by left]].
    unfold getNodeSimilaritySearchInfo, get_as, await, get.
    rewrite deleteNode_world_gone; [done| |done]. do 2 right. left.
  - destruct (deleteNode_throws nid w Hk Hdup) as (key & Hrun).
    do 2 eexists. split; [exact Hrun|].
    split; [apply getNode_not_found, deleteNode_removed_gone; left|].
    split; [|split; [done|right; by exists key]].
    unfold getNodeSimilaritySearchInfo, get_as, await, get.
    rewrite deleteNode_removed_gone; [done|]. do 2 right. left.
Qed.

(** X21. When two edges of a node lead to one neighbour, [deleteNode] of
    that node throws the duplicate-key error of [set] after the removal has
    been applied, and the cascade is not done: after exactly one substrate
    call, a removal, the listing still holds what it held, so [getAllNids]
    goes on returning the id, and the bucket of every other node still holds
    its edges to the node. *)
Theorem deleteNode_partial (nid : Nid) (w : World) :
  kinded w →
  ¬ NoDup (linkedNids nid (bucket w nid)) →
  ∃ key w' listed,
    deleteNode nid w = (Thrown (SetDuplicateKey key), w')
    ∧ calls w'
      = calls w ++ [StorageRemove (stringify <$> deleteNode_toRemove nid)]
    ∧ listing w' = listing w
    ∧ getAllNids w' = (Returned listed, w')
    ∧ (nid ∈ tag_nid <$> listing w → nid ∈ listed)
    ∧ (∀ other, other ≠ nid → bucket w' other = bucket w other).
Proof.
  intros Hk Hdup.
  destruct (deleteNode_throws nid w Hk Hdup) as (key & Hrun).
  assert (kinded (deleteNode_removed w nid)) as Hk'.
  { pose proof (keeps_deleteNode nid w Hk) as H. by rewrite Hrun in H. }
  assert (listing (deleteNode_removed w nid) = listing w) as Hlisting.
  { unfold listing.
    rewrite (deleteNode_removed_kept w nid AllNidsYek); [done| |].
    - unfold deleteNode_toRemove. rewrite !elem_of_cons, elem_of_nil.
      intros [?|[?|[?|[]]]]; done.
    - intros y' _ E. pose proof (stringify_kind _ _ E) as Hkind.
      by destruct y'. }
  exists key, (deleteNode_removed w nid). eexists.
  split; [exact Hrun|]. split; [done|]. split; [done|].
  split; [by apply getAllNids_run|]. split.
  - intros Hin. rewrite Hlisting. by rewrite sort_latest_first_Permutation.
  - intros other Hne. unfold bucket.
    rewrite (deleteNode_removed_kept w nid (NidToEdgeYek other)); [done| |].
    + unfold deleteNode_toRemove. rewrite !elem_of_cons, elem_of_nil.
      intros [?|[?|[?|[]]]]; [done|by simplify_eq|done].
    + intros y' _ E. pose proof (stringify_kind _ _ E) as Hkind.
      destruct y'; try discriminate Hkind.
      by apply stringify_NidToEdge_inj in E as ->.
Qed.

End MoreDelete.

(** ** Draining an iterator *)
Section MoreIterator.
Context `{SX : SmugglerExtras}.
Import YekLavStore.

Lemma drain_S fuel it :
  drain (S fuel) it
  = let* r := Iterator.next it in
    match r.1 with
    | None => resolve ([], r.2)
    | Some node =>
        let* rest := drain fuel r.2 in
        resolve (node :: rest.1, rest.2)
    end.
Proof. reflexivity. Qed.

Lemma drain_run w nids rest :
  kinded w →
  ∀ seen,
    nids = seen ++ rest →
    Forall (fun nid => is_Some (stored_node w nid)) rest →
    ∃ found,
      drain (S (length rest))
        {| Iterator.nids := nids; Iterator.index := length seen |} w
      = (Returned (NodeUtil_fromJson <$> found,
                   {| Iterator.nids := nids;
                      Iterator.index := length nids |}), w)
      ∧ Forall2 (fun nid value => stored_node w nid = Some value) rest found.
Proof.
  intros Hk. induction rest as [|n rest IH]; intros seen Hnids Hall.
  - exists []. split; [|constructor].
    rewrite drain_S.
    erewrite await_returned
      by (apply next_exhausted; cbn [Iterator.nids Iterator.index];
          rewrite Hnids, app_nil_r; done).
    cbn [fst snd]. rewrite Hnids at 3. by rewrite app_nil_r.
  - apply Forall_cons in Hall as [[value Hvalue] Hall].
    destruct (IH (seen ++ [n])) as (found & Hrun & Hfound);
      [by rewrite <- app_assoc|done|].
    exists (value :: found). split; [|by constructor].
    rewrite drain_S.
    erewrite await_returned; cycle 1.
    { apply (next_found _ _ n value); [done| |done].
      cbn [Iterator.nids Iterator.index]. rewrite Hnids.
      by apply list_lookup_middle. }
    cbn [fst snd Iterator.nids Iterator.index].
    rewrite length_app in Hrun. cbn [length] in Hrun.
    rewrite Nat.add_1_r in Hrun.
    by erewrite await_returned by exact Hrun.
Qed.

(** X22. On a kinded substrate in which every listed id has a record, an
    iterator created in it and drained in it yields every listed node once,
    in the order of [getAllNids], through as many calls of [next] as there
    are listed ids plus one, and then goes on returning [null]; [total]
    then counts the nodes yielded.  After [abort] the iterator returns
    [null] at once and counts nothing. *)
Theorem iterator_drains (w : World) :
  kinded w →
  (∀ nid, nid ∈ tag_nid <$> listing w → is_Some (stored_node w nid)) →
  ∃ it0 it1 found,
    Iterator.create w = (Returned it0, w)
    ∧ drain (S (length (listing w))) it0 w
      = (Returned (NodeUtil_fromJson <$> found, it1), w)
    ∧ Forall2 (fun nid value => stored_node w nid = Some value)
        (tag_nid <$> sort_latest_first (listing w)) found
    ∧ Iterator.total it1 = length (listing w)
    ∧ Iterator.next it1 w = (Returned (None, it1), w)
    ∧ Iterator.total (Iterator.abort it1) = 0%nat
    ∧ Iterator.next (Iterator.abort it1) w
      = (Returned (None, Iterator.abort it1), w).
Proof.
  intros Hk Hall.
  set (nids := tag_nid <$> sort_latest_first (listing w)).
  assert (length nids = length (listing w)) as Hlen.
  { unfold nids. rewrite length_fmap.
    by rewrite sort_latest_first_Permutation. }
  destruct (drain_run w nids nids Hk []) as (found & Hrun & Hfound);
    [done| |].
  { apply Forall_forall. intros nid Hin. apply Hall.
    unfold nids in Hin. by rewrite sort_latest_first_Permutation in Hin. }
  do 2 eexists. exists found.
  split; [by apply create_run|].
  split; [rewrite <- Hlen; exact Hrun|].
  split; [exact Hfound|]. split; [exact Hlen|].
  split; [by apply next_exhausted|]. split; [done|].
  by apply next_exhausted.
Qed.

End MoreIterator.

(** ** More on creation, listing and associations *)
Section MoreApi.
Context `{SX : SmugglerExtras}.
Import YekLavStore.

Lemma createNode_world_pipeline args w pipeline :
  NoDup (new_nid_of w :: froms_of args ++ tos_of args) →
  args_created_via args ≫= autoIngestion = Some pipeline →
  pipeline_index (createNode_world args w) pipeline
  = pipeline_index w pipeline ++ [new_nid_of w].
Proof.
  intros Hnd Hvia. unfold pipeline_index at 1.
  unfold createNode_world. cbn [storage].
  rewrite (lookup_set_in (createNode_batch args w) _
             {| yek := ExtPipelineToNidYek pipeline;
                lav := ExtPipelineToNidLav
                         (pipeline_index w pipeline ++ [new_nid_of w]) |});
    [done|by apply createNode_batch_NoDup|].
  unfold createNode_batch. rewrite Hvia.
  destruct (args_origin args); [do 3 right|do 2 right]; left.
Qed.

(** X23. A [createNode] that returns has made exactly one substrate call, a
    bulk write, and registered exactly one notification, ['created'], for
    the new id.  The new id is appended to the stored listing with its
    creation time, to the index of the origin when the arguments name one,
    and to the index of the ingesting pipeline when the node is created by
    one. *)
Theorem createNode_writes_once (args : NodeCreateArgs) (w : World) :
  kinded w →
  NoDup (new_nid_of w :: froms_of args ++ tos_of args) →
  ∃ nid w' records,
    createNode args w = (Returned nid, w')
    ∧ calls w' = calls w ++ [StorageSet records]
    ∧ events w'
      = events w
        ++ [EventCreated nid (args_text args) (args_index_text args)
              (args_extattrs args) (default NodeType_Text (args_ntype args))]
    ∧ listing w'
      = listing w
        ++ [{| tag_nid := nid;
               tag_created_at := default (clock w) (args_created_at args) |}]
    ∧ (∀ origin, args_origin args = Some origin →
                 origin_index w' origin = origin_index w origin ++ [nid])
    ∧ (∀ pipeline,
         args_created_via args ≫= autoIngestion = Some pipeline →
         pipeline_index w' pipeline = pipeline_index w pipeline ++ [nid]).
Proof.
  intros Hk Hnd.
  exists (new_nid_of w), (createNode_world args w). eexists.
  split; [by apply createNode_returns|]. split; [reflexivity|].
  split; [done|]. split; [by apply createNode_world_listing|].
  split.
  - intros origin. by apply createNode_world_origin.
  - intros pipeline. by apply createNode_world_pipeline.
Qed.

(** X24. [getAllNids] keeps the stored order among nodes created at the
    same time: for every creation time, the listed entries with that time
    come out in the order in which the listing holds them. *)
Theorem getAllNids_stable (w : World) :
  kinded w →
  ∃ tags,
    getAllNids w = (Returned (tag_nid <$> tags), w)
    ∧ tags ≡ₚ listing w
    ∧ ∀ c, filter (fun t => tag_created_at t = c) tags
           = filter (fun t => tag_created_at t = c) (listing w).
Proof.
  intros Hk. exists (sort_latest_first (listing w)).
  split; [by apply getAllNids_run|].
  split; [apply sort_latest_first_Permutation|].
  intros c. apply sort_latest_first_stable.
Qed.

(** X25. An origin cannot be associated with itself: on a kinded substrate
    whose bucket for the origin holds no entry for the origin itself,
    [recordAssociation] from the origin to itself prepares two writes of
    that one bucket, [set] throws the duplicate-key error for it, and
    nothing is written. *)
Theorem recordAssociation_self
    (origin : OriginId) (type : UserExternalAssociationType) (w : World) :
  kinded w →
  referencing origin (associations w origin) = [] →
  recordAssociation origin origin type w
  = (Thrown
       (SetDuplicateKey (stringify (OriginToExtAssociationYek origin))), w).
Proof.
  intros Hk Href%every_other_differs_true.
  rewrite recordAssociation_run, Href by done. cbn [negb].
  apply await_thrown. unfold set, recordAssociation_batch.
  cbn [List.find yek lav yek_kind lav_kind].
  rewrite !bool_decide_eq_false_2 by (by intros ?).
  cbn [set_records yek lav fmap list_fmap app fst].
  rewrite decide_False by apply not_elem_of_nil.
  rewrite decide_True by left. reflexivity.
Qed.


End MoreApi.

(** ** The unchecked casts *)
Section CastSafety.
Context `{SX : SmugglerExtras}.
Import YekLavStore.

Lemma Map_set_NoDup {V} key (v : V) m :
  NoDup m.*1 → NoDup (Map_set key v m).*1.
Proof.
  induction m as [|[k v'] m IH]; simpl.
  - intros _. apply NoDup_singleton.
  - rewrite NoDup_cons. intros [Hk Hm].
    destruct (decide (k = key)) as [->|Hne]; simpl.
    + by apply NoDup_cons.
    + apply NoDup_cons. split; [|by apply IH].
      intros ([k' v''] & Ek & [[= -> ->]|Hin]%Map_set_elem)%list_elem_of_fmap;
        simpl in Ek; [done|].
      apply Hk. apply list_elem_of_fmap. by exists (k', v'').
Qed.

Lemma keyToYek_NoDup yeks : NoDup (keyToYek yeks).*1.
Proof.
  unfold keyToYek.
  assert (∀ acc : list (string * Yek),
            NoDup acc.*1 →
            NoDup (foldl (fun m singleYek =>
                            Map_set (stringify singleYek) singleYek m)
                     acc yeks).*1) as Hgen.
  { induction yeks as [|y yeks IH]; intros acc Hacc; simpl; [done|].
    by apply IH, Map_set_NoDup. }
  apply Hgen. constructor.
Qed.

Lemma omap_keys_NoDup w (m : list (string * Yek)) :
  (∀ key y, (key, y) ∈ m → key = stringify y) →
  NoDup m.*1 →
  NoDup (keys_of
           (omap (fun '(key, yek) =>
                    match storage w !! key with
                    | Some lav => Some {| yek := yek; lav := lav |}
                    | None => None
                    end) m)).
Proof.
  induction m as [|[k y] m IH]; intros Hkeys Hnd; [constructor|].
  simpl in Hnd. apply NoDup_cons in Hnd as [Hk Hnd].
  assert (∀ key y', (key, y') ∈ m → key = stringify y') as Hkeys'
    by (intros key y' Hin; apply Hkeys; by right).
  cbn [omap list_omap].
  change (list_omap _ _ ?f m) with (omap f m).
  destruct (storage w !! k); [|by apply IH].
  unfold keys_of. rewrite fmap_cons. cbn [yek].
  apply NoDup_cons. split; [|by apply IH].
  intros (yl & E & ([k' y'] & Hin & Hyl)%list_elem_of_omap)%list_elem_of_fmap.
  destruct (storage w !! k'); [|done]. injection Hyl as <-. simpl in E.
  apply Hk. apply list_elem_of_fmap. exists (k', y'). split; [|done].
  simpl. rewrite (Hkeys k y) by left. rewrite E. symmetry. by apply Hkeys'.
Qed.

(** X27. The batch form of [get] never throws and changes nothing.  Every
    record it returns is the one stored under the key it is paired with,
    which is one of the keys asked for; every key asked for that has a
    record is answered, under a key that prints the same; and no two of the
    records returned are under keys that print the same, however often a
    key was asked for. *)
Theorem get_batch_answers (yeks : list Yek) (w : World) :
  ∃ yeklavs,
    get_batch yeks w = (Returned yeklavs, w)
    ∧ (∀ yl, yl ∈ yeklavs →
             yek yl ∈ yeks ∧ storage w !! stringify (yek yl) = Some (lav yl))
    ∧ (∀ y l, y ∈ yeks → storage w !! stringify y = Some l →
              ∃ y', stringify y' = stringify y
                    ∧ {| yek := y'; lav := l |} ∈ yeklavs)
    ∧ NoDup (keys_of yeklavs).
Proof.
  eexists. split; [reflexivity|]. split; [|split].
  - intros yl. apply get_batch_sound.
  - intros y l. apply get_batch_complete.
  - apply omap_keys_NoDup; [|apply keyToYek_NoDup].
    intros key y Hin. by apply keyToYek_elem in Hin as [-> _].
Qed.

Lemma cast_safe_resolve {A} (a : A) : cast_safe (resolve a).
Proof. by intros w Hk. Qed.

Lemma cast_safe_throw {A} e :
  (∀ key, e ≠ UncheckedCast key) → cast_safe (@throw _ A e).
Proof.
  intros He w Hk. split; [done|]. intros key [= E]. by apply (He key).
Qed.

Lemma cast_safe_await {A B} (m : Promise A) (k : A → Promise B) :
  cast_safe m → (∀ a, cast_safe (k a)) → cast_safe (let* x := m in k x).
Proof.
  intros Hm Hcont w Hk. unfold await. destruct (Hm w Hk) as [Hk' Hne].
  destruct (m w) as [[a|e] w']; simpl in *; [by apply Hcont|].
  split; [done|]. intros key [= ->]. by apply (Hne key).
Qed.

Lemma cast_safe_for_await {A B} (f : A → Promise B) xs :
  (∀ x, cast_safe (f x)) → cast_safe (for_await f xs).
Proof.
  intros Hf. induction xs as [|x rest IH]; simpl.
  - apply cast_safe_resolve.
  - apply cast_safe_await; [apply Hf|]. intros y.
    apply cast_safe_await; [apply IH|]. intros ys. apply cast_safe_resolve.
Qed.

(** A computation that always returns, in the world it started in. *)
Lemma cast_safe_read {A} (m : Promise A) :
  (∀ w, kinded w → ∃ a, m w = (Returned a, w)) → cast_safe m.
Proof. intros Hm w Hk. by destruct (Hm w Hk) as [a ->]. Qed.

Lemma cast_safe_set items : cast_safe (set items).
Proof.
  intros w Hk. split; [by apply keeps_set|]. intros key.
  destruct (decide (Exists mismatched items)) as [Hex|Hall].
  { by destruct (set_throws_mismatch items w Hex) as (item & -> & _). }
  apply not_Exists_Forall in Hall; [|intros item; apply _].
  destruct (decide (NoDup (keys_of items))) as [Hnd|Hdup].
  - by rewrite set_returns.
  - by destruct (set_throws_duplicate items w Hall Hdup) as (k & -> & _).
Qed.

Lemma cast_safe_remove yeks : cast_safe (remove yeks).
Proof. intros w Hk. split; [by apply keeps_remove|done]. Qed.

Lemma cast_safe_get_batch ys : cast_safe (get_batch ys).
Proof. by intros w Hk. Qed.

Lemma cast_safe_registerEvent e : cast_safe (registerEvent e).
Proof. by intros w Hk. Qed.

Lemma cast_safe_unixtime_now : cast_safe unixtime_now.
Proof. by intros w Hk. Qed.

Lemma cast_safe_generateNid : cast_safe generateNid.
Proof. by intros w Hk. Qed.

Lemma cast_safe_get_as {A} y (cast : Lav → option A) :
  (∀ l, lav_kind l = yek_kind y → is_Some (cast l)) →
  cast_safe (get_as y cast).
Proof.
  intros Hcast. apply cast_safe_read. intros w Hk.
  eexists. by apply get_as_kinded.
Qed.

Lemma cast_safe_prepareAppend y l :
  isOfArrayKind l = true → cast_safe (prepareAppend y l).
Proof.
  intros Harr w Hk. unfold prepareAppend.
  destruct (decide (yek_kind y ≠ lav_kind l)) as [Hne|Heq]; [done|].
  apply dec_stable in Heq. unfold await, get.
  destruct (storage w !! stringify y) as [stored|] eqn:E.
  - pose proof (Hk _ _ E) as Hstored. rewrite Heq in Hstored.
    destruct stored, l; try discriminate Hstored; try discriminate Harr;
      done.
  - destruct l; try discriminate Harr; done.
Qed.

Lemma cast_safe_prepareRemoval y criteria :
  is_Some (removal_value y None criteria) →
  cast_safe (prepareRemoval y criteria).
Proof.
  intros [v Hv] w Hk. unfold prepareRemoval, await, get.
  destruct (storage w !! stringify y) as [stored|] eqn:E.
  - pose proof (Hk _ _ E) as Hstored.
    destruct y, stored; try discriminate Hstored; try discriminate Hv; done.
  - by rewrite Hv.
Qed.

Lemma cast_safe_node_batch nids :
  cast_safe (let* yeklavs := get_batch (NidToNodeYek <$> nids) in
             nodes_of yeklavs).
Proof.
  apply cast_safe_read. intros w Hk. eexists.
  erewrite await_returned by reflexivity.
  rewrite keyToYek_NidToNode. by apply nodes_of_run.
Qed.

Ltac cast_safe_tac :=
  repeat first
    [ progress intros
    | solve [apply cast_safe_throw; intros; discriminate]
    | solve [apply cast_safe_get_as; by intros []; eauto]
    | solve [apply cast_safe_prepareAppend; reflexivity]
    | solve [apply cast_safe_prepareRemoval; by eexists]
    | apply cast_safe_node_batch
    | apply cast_safe_resolve
    | apply cast_safe_set
    | apply cast_safe_remove
    | apply cast_safe_get_batch
    | apply cast_safe_registerEvent
    | apply cast_safe_unixtime_now
    | apply cast_safe_generateNid
    | apply cast_safe_for_await
    | apply cast_safe_await
    | match goal with
      | |- cast_safe (match ?x with _ => _ end) => destruct x
      | |- cast_safe (if ?x then _ else _) => destruct x
      | |- cast_safe (let (_, _) := ?x in _) => destruct x
      end ].

Lemma cast_safe_perform (call : ApiCall) (w : World) :
  kinded w →
  kinded (perform call w).2
  ∧ ∀ key, (perform call w).1 ≠ Some (inl (UncheckedCast key)).
Proof.
  intros Hk.
  assert (∀ A (m : Promise A),
            cast_safe m →
            kinded (settle m w).2
            ∧ ∀ key, (settle m w).1 ≠ Some (inl (UncheckedCast key)))
    as Hsettle.
  { intros A m Hm. destruct (Hm w Hk) as [Hk' Hne]. unfold settle.
    destruct (m w) as [[a|e] w']; simpl in *; [done|].
    split; [done|]. intros key [= ->]. by apply (Hne key). }
  assert (∀ A (m : Promise (ApiError + A)),
            cast_safe m →
            kinded (settle_api m w).2
            ∧ ∀ key, (settle_api m w).1 ≠ Some (inl (UncheckedCast key)))
    as Hsettle_api.
  { intros A m Hm. destruct (Hm w Hk) as [Hk' Hne]. unfold settle_api.
    destruct (m w) as [[[e|a]|e] w']; simpl in *; [done|done|].
    split; [done|]. intros key [= ->]. by apply (Hne key). }
  destruct call; cbn [perform];
    first [apply Hsettle | apply Hsettle_api].
  - unfold getNode. cast_safe_tac.
  - unfold getNodesByOrigin. cast_safe_tac.
  - unfold getAllNids. cast_safe_tac.
  - unfold updateNode. cast_safe_tac.
  - unfold createNode, new_edges, generateEid. cast_safe_tac.
  - unfold Iterator.create, getAllNids. cast_safe_tac.
  - unfold Iterator.next. cast_safe_tac.
  - unfold deleteNode, prepareNodeRemoval. cast_safe_tac.
  - unfold bulkDeleteNodes, prepareNodeRemoval. cast_safe_tac.
  - unfold getNodeBatch. cast_safe_tac.
  - unfold getNodeSimilaritySearchInfo. cast_safe_tac.
  - unfold setNodeSimilaritySearchInfo. cast_safe_tac.
  - unfold deleteNodeSimilaritySearchInfo. cast_safe_tac.
  - unfold createEdge, generateEid. cast_safe_tac.
  - unfold getNodeAllEdges. cast_safe_tac.
  - unfold addExternalUserActivity. cast_safe_tac.
  - unfold getExternalUserActivity. cast_safe_tac.
  - unfold recordAssociation. cast_safe_tac.
  - apply cast_safe_read. intros w' Hk'. eexists.
    by apply getAssociations_run.
  - unfold getUserIngestionProgress. cast_safe_tac.
  - unfold advanceUserIngestionProgress, getUserIngestionProgress.
    cast_safe_tac.
  - unfold getUserAccountInforFromLocalStorage. cast_safe_tac.
  - unfold setUserAccountInfoToLocalStorage. cast_safe_tac.
  - unfold throwUnimplementedError. cast_safe_tac.
Qed.

(** X28. The casts that the typed overloads of [get] leave unchecked are
    safe.  In every state that a sequence of calls of the storage API
    reaches from a kinded substrate, such as the empty one, every record
    sits under a key of its own kind, and no call stops at an unchecked
    cast: a record read always has the shape the call site takes it to
    have. *)
Theorem api_casts_are_safe (calls : list ApiCall) (w : World) :
  kinded w →
  kinded (run_calls calls w)
  ∧ ∀ call key,
      (perform call (run_calls calls w)).1 ≠ Some (inl (UncheckedCast key)).
Proof.
  revert w. induction calls as [|call calls IH]; intros w Hk.
  - split; [done|]. intros call. by apply cast_safe_perform.
  - apply (IH (perform call w).2). by apply cast_safe_perform.
Qed.

End CastSafety.

(** * The statements on the sample instance *)
Section OnSample.
Import YekLavStore Sample.

Lemma outcome_after {A} (m : Promise A) (w : World) (a : A) :
  (m w).1 = Returned a → m w = (Returned a, after m w).
Proof. unfold after. destruct (m w) as [o w']. simpl. by intros ->. Qed.

Lemma kinded_world1 : kinded world1.
Proof. by apply keeps_createNode, kinded_empty. Qed.

Lemma kinded_world2 : kinded world2.
Proof. apply keeps_createNode, kinded_world1. Qed.

Lemma deleteNode_cascades_witness :
  ∃ w',
    deleteNode "u0" world2 = (Returned {| ack := true |}, w')
    ∧ Forall (fun e' => from_nid e' ≠ "u0" ∧ to_nid e' ≠ "u0")
             (bucket w' "u1")
    ∧ ("u0" ∉ tag_nid <$> listing w')
    ∧ (∃ nids, getAllNids w' = (Returned nids, w') ∧ "u0" ∉ nids)
    ∧ getNode "u0" w' = (Thrown (NodeNotFound "u0"), w').
Proof.
  apply (deleteNode_cascades world2 "u0" "u1"
           {| eid := "u2"; from_nid := "u0"; to_nid := "u1"; crtd := 1000;
              upd := 1000; is_sticky := false |}).
  - apply kinded_world2.
  - vm_compute. left.
  - reflexivity.
  - reflexivity.
  - vm_compute. apply NoDup_singleton.
Defined.

Lemma getNode_after_createNode_witness :
  ∃ w' json,
    createNode (linked "b" ["u0"] []) world1 = (Returned (nid json), w')
    ∧ getNode (nid json) w' = (Returned (NodeUtil_fromJson json), w')
    ∧ text json = "b"
    ∧ extattrs json = Some "ext"
    ∧ index_text json = Some "idx"
    ∧ ntype json = 3%nat
    ∧ created_at json = 1000
    ∧ updated_at json = created_at json.
Proof.
  apply (getNode_after_createNode (linked "b" ["u0"] []) world1).
  - apply kinded_world1.
  - vm_compute. apply (bool_decide_unpack _). vm_compute. reflexivity.
Defined.

Lemma recordAssociation_symmetric_witness :
  ∃ w1,
    recordAssociation A B "t" empty = (Returned {| ack := true |}, w1)
    ∧ (∃ ra x, getAssociations A w1 = (Returned ra, w1)
               ∧ x ∈ resp_to ra ∧ relates A B "t" x)
    ∧ (∃ rb x, getAssociations B w1 = (Returned rb, w1)
               ∧ x ∈ resp_from rb ∧ relates A B "t" x)
    ∧ recordAssociation A B "t" w1 = (Returned {| ack := true |}, w1)
    ∧ length (referencing B (associations w1 A)) = 1%nat
    ∧ length (referencing A (associations w1 B)) = 1%nat.
Proof.
  apply (recordAssociation_symmetric empty A B "t").
  - by apply kinded_empty.
  - vm_compute. discriminate.
  - reflexivity.
  - reflexivity.
Defined.

(** C3 as stated fails when the pair was first recorded the other way
    round: [recordAssociation A B] then returns without writing, and the
    [to] list of [getAssociations A] stays empty. *)
Lemma recordAssociation_after_reverse :
  let w1 := after (recordAssociation B A "t") empty in
  recordAssociation B A "t" empty = (Returned {| ack := true |}, w1)
  ∧ recordAssociation A B "t" w1 = (Returned {| ack := true |}, w1)
  ∧ ∃ ra, getAssociations A w1 = (Returned ra, w1)
          ∧ resp_to ra = []
          ∧ length (resp_from ra) = 1%nat.
Proof.
  intros w1.
  assert (kinded w1) as Hk1 by (by apply keeps_recordAssociation, kinded_empty).
  split; [by apply outcome_after|].
  split.
  - apply recordAssociation_duplicate; [exact Hk1|].
    vm_compute. discriminate.
  - exists (response_of w1 A).
    split; [by apply getAssociations_run|]. by vm_compute.
Qed.

Lemma recordAssociation_reverse_only_witness :
  recordAssociation A B "t" reverse_only
  = (Thrown (AssociationInconsistent 1 2), reverse_only).
Proof.
  apply (recordAssociation_reverse_only reverse_only A B "t").
  - by apply (kinded_singleton (OriginToExtAssociationYek B)
                (OriginToExtAssociationLav
                   [{| direction := DirFrom; other := A;
                       association := "t" |}])).
  - reflexivity.
  - vm_compute. discriminate.
Defined.

(** C4 as stated fails: when only the bucket of [from] references [to],
    the call returns as for a duplicate, without an error and without a
    write. *)
Lemma recordAssociation_forward_only :
  referencing B (associations forward_only A) ≠ []
  ∧ referencing A (associations forward_only B) = []
  ∧ recordAssociation A B "t" forward_only
    = (Returned {| ack := true |}, forward_only).
Proof.
  split; [vm_compute; discriminate|]. split; [reflexivity|].
  apply recordAssociation_duplicate; [|vm_compute; discriminate].
  by apply (kinded_singleton (OriginToExtAssociationYek A)
              (OriginToExtAssociationLav
                 [{| direction := DirTo; other := B; association := "t" |}])).
Qed.

Lemma advances_read_back_witness :
  ∃ w' progress,
    advances steps empty = (Returned tt, w')
    ∧ getUserIngestionProgress pipeline_p w' = (Returned progress, w')
    ∧ ingested_until progress = 5.
Proof.
  apply (advances_read_back steps empty pipeline_p).
  by apply kinded_empty.
Defined.

(** C5 as stated fails: a smaller watermark replaces a larger one. *)
Lemma advance_lowers_watermark :
  let w1 := after (advanceUserIngestionProgress pipeline_p 10) empty in
  let w2 := after (advanceUserIngestionProgress pipeline_p 5) w1 in
  advanceUserIngestionProgress pipeline_p 10 empty
  = (Returned {| ack := true |}, w1)
  ∧ (getUserIngestionProgress pipeline_p w1).1
    = Returned {| epid := pipeline_p; ingested_until := 10 |}
  ∧ advanceUserIngestionProgress pipeline_p 5 w1
    = (Returned {| ack := true |}, w2)
  ∧ (getUserIngestionProgress pipeline_p w2).1
    = Returned {| epid := pipeline_p; ingested_until := 5 |}.
Proof.
  intros w1 w2.
  split; [by apply outcome_after|]. split; [by vm_compute|].
  split; [apply outcome_after|]; by vm_compute.
Qed.

Lemma getNodeBatch_only_existing_witness :
  ∃ found,
    getNodeBatch ["u1"; "zz"; "u0"; "u1"] world2
    = (Returned (NodeUtil_fromJson <$> found), world2)
    ∧ found = omap (stored_node world2)
                (first_occurrences ["u1"; "zz"; "u0"; "u1"])
    ∧ (∀ value, value ∈ found
                ↔ ∃ nid, nid ∈ ["u1"; "zz"; "u0"; "u1"]
                         ∧ stored_node world2 nid = Some value)
    ∧ (length found ≤ length (first_occurrences ["u1"; "zz"; "u0"; "u1"]))%nat.
Proof.
  apply (getNodeBatch_only_existing ["u1"; "zz"; "u0"; "u1"] world2).
  apply kinded_world2.
Defined.

Lemma getAllNids_after_creations_witness :
  let w' := after (createNodes requests) empty in
  ∃ tags, getAllNids w' = (Returned (tag_nid <$> tags), w')
          ∧ StronglySorted latest_first tags
          ∧ tags ≡ₚ listing empty ++ tags_of ["u0"; "u1"; "u2"] requests
          ∧ length ["u0"; "u1"; "u2"] = length requests.
Proof.
  apply (getAllNids_after_creations requests empty
           (after (createNodes requests) empty) ["u0"; "u1"; "u2"]).
  - by apply kinded_empty.
  - apply outcome_after. by vm_compute.
Defined.

Lemma createNode_repeated_neighbour_witness :
  ∃ n w',
    createNode (linked "b" ["u0"] ["u0"]) world1
    = (Thrown (SetDuplicateKey (stringify (NidToEdgeYek n))), w')
    ∧ (1 < length (filter (n =.)
                     (new_nid_of world1
                      :: froms_of (linked "b" ["u0"] ["u0"])
                         ++ tos_of (linked "b" ["u0"] ["u0"]))))%nat
    ∧ storage w' = storage world1 ∧ calls w' = calls world1
    ∧ events w' = events world1.
Proof.
  apply (createNode_repeated_neighbour (linked "b" ["u0"] ["u0"]) world1).
  - apply kinded_world1.
  - vm_compute. intros Hnd. apply NoDup_cons in Hnd as [Hnin _].
    apply Hnin. left.
Defined.

Lemma create_world2 :
  Iterator.create world2 = (Returned sample_iterator, world2).
Proof.
  rewrite create_run by apply kinded_world2. do 2 f_equal.
Qed.

Lemma iterator_walks_snapshot_witness :
  let w := after (deleteNode "u0") world2 in
  Iterator.nids sample_iterator
  = tag_nid <$> sort_latest_first (listing world2)
  ∧ ((length (Iterator.nids sample_iterator)
      ≤ Iterator.index sample_iterator)%nat →
     Iterator.next sample_iterator w = (Returned (None, sample_iterator), w))
  ∧ (∀ nid, Iterator.nids sample_iterator
            !! Iterator.index sample_iterator = Some nid →
            stored_node w nid = None →
            Iterator.next sample_iterator w
            = (Thrown (IteratorNodeNotFound nid), w))
  ∧ (∀ nid value,
       Iterator.nids sample_iterator
       !! Iterator.index sample_iterator = Some nid →
       stored_node w nid = Some value →
       Iterator.next sample_iterator w
       = (Returned (Some (NodeUtil_fromJson value),
                    {| Iterator.nids := Iterator.nids sample_iterator;
                       Iterator.index :=
                         S (Iterator.index sample_iterator) |}), w))
  ∧ (∀ node it' w',
       Iterator.next sample_iterator w = (Returned (Some node, it'), w') →
       ∃ nid value, nid ∈ tag_nid <$> listing world2
                    ∧ stored_node w nid = Some value
                    ∧ node = NodeUtil_fromJson value).
Proof.
  apply (iterator_walks_snapshot world2 (after (deleteNode "u0") world2)
           sample_iterator sample_iterator).
  - apply kinded_world2.
  - apply create_world2.
  - apply advanced_refl.
  - apply keeps_deleteNode, kinded_world2.
Defined.

(** C9 as stated fails: the node [u0] is deleted after the iterator was
    constructed, and the next call throws; it neither yields a node nor
    reports the end of the sequence. *)
Lemma iterator_after_delete :
  let w := after (deleteNode "u0") world2 in
  Iterator.create world2 = (Returned sample_iterator, world2)
  ∧ deleteNode "u0" world2 = (Returned {| ack := true |}, w)
  ∧ Iterator.next sample_iterator w
    = (Thrown (IteratorNodeNotFound "u0"), w).
Proof.
  intros w. split; [apply create_world2|].
  split; [apply outcome_after; by vm_compute|].
  apply next_missing; [apply keeps_deleteNode, kinded_world2|done|].
  by vm_compute.
Qed.

End OnSample.

(** * The statements about the other functions on the sample instance *)
Section MoreOnSample.
Import YekLavStore Sample MoreSample.

Lemma kinded_world_twice : kinded world_twice.
Proof. apply keeps_createEdge, kinded_world2. Qed.

Lemma kinded_world_p1 : kinded world_p1.
Proof. apply keeps_createNode, kinded_world2. Qed.

Lemma kinded_world_p2 : kinded world_p2.
Proof. apply keeps_createNode, kinded_world_p1. Qed.

Lemma get_after_set_witness :
  let items := [{| yek := AllNidsYek; lav := AllNidsLav [] |}] in
  let w' := substrate_set (records_of items) empty in
  (∀ item, item ∈ items →
           get (yek item) w' = (Returned (Some (lav item)), w'))
  ∧ (∀ y, stringify y ∉ keys_of items →
          get y w' = (Returned (storage empty !! stringify y), w')).
Proof.
  apply (get_after_set [{| yek := AllNidsYek; lav := AllNidsLav [] |}]
           empty).
  reflexivity.
Defined.

Lemma prepareRemoval_bucket_proposes_witness :
  ∃ edges,
    prepareRemoval (NidToEdgeYek "u1") ["u0"] world2
    = (Returned {| yek := NidToEdgeYek "u1"; lav := NidToEdgeLav edges |},
       world2)
    ∧ edges `sublist_of` bucket world2 "u1"
    ∧ (∀ e, e ∈ edges ↔ (e ∈ bucket world2 "u1")
                        ∧ (from_nid e ∉ ["u0"]) ∧ (to_nid e ∉ ["u0"]))
    ∧ (storage world2 !! stringify (NidToEdgeYek "u1") = None → edges = []).
Proof.
  apply (prepareRemoval_bucket_proposes "u1" ["u0"] world2).
  apply kinded_world2.
Defined.

Lemma getNodeAllEdges_partitions_witness :
  ∃ r,
    getNodeAllEdges "u0" world2 = (Returned r, world2)
    ∧ from_edges r
      = EdgeUtil_fromJson
        <$> filter (fun e => to_nid e = "u0") (bucket world2 "u0")
    ∧ to_edges r
      = EdgeUtil_fromJson
        <$> filter (fun e => to_nid e ≠ "u0") (bucket world2 "u0")
    ∧ (length (from_edges r) + length (to_edges r)
       = length (bucket world2 "u0"))%nat
    ∧ (storage world2 !! stringify (NidToEdgeYek "u0") = None →
       from_edges r = [] ∧ to_edges r = []).
Proof.
  apply (getNodeAllEdges_partitions "u0" world2). apply kinded_world2.
Defined.

Lemma getNodeAllEdges_after_createEdge_witness :
  ∃ edge w' rf rt,
    createEdge "u0" "u1" world2 = (Returned edge, w')
    ∧ from_nid edge = "u0" ∧ to_nid edge = "u1"
    ∧ getNodeAllEdges "u0" w' = (Returned rf, w')
    ∧ EdgeUtil_fromJson edge ∈ to_edges rf
    ∧ getNodeAllEdges "u1" w' = (Returned rt, w')
    ∧ EdgeUtil_fromJson edge ∈ from_edges rt.
Proof.
  apply (getNodeAllEdges_after_createEdge "u0" "u1" world2).
  - apply kinded_world2.
  - discriminate.
Defined.

Lemma createEdge_self_loop_witness :
  ∃ w',
    createEdge "u0" "u0" world1
    = (Thrown (SetDuplicateKey (stringify (NidToEdgeYek "u0"))), w')
    ∧ storage w' = storage world1 ∧ calls w' = calls world1.
Proof.
  apply (createEdge_self_loop "u0" world1). apply kinded_world1.
Defined.

Lemma getNodesByOrigin_reads_index_witness :
  ∃ found,
    getNodesByOrigin origin_b world2
    = (Returned (NodeUtil_fromJson <$> found), world2)
    ∧ found
      = omap (stored_node world2)
          (first_occurrences (origin_index world2 origin_b))
    ∧ (∀ value, value ∈ found
                ↔ ∃ nid, nid ∈ origin_index world2 origin_b
                         ∧ stored_node world2 nid = Some value)
    ∧ (storage world2 !! stringify (OriginToNidYek origin_b) = None →
       found = []).
Proof.
  apply (getNodesByOrigin_reads_index origin_b world2).
  apply kinded_world2.
Defined.

Lemma linked_NoDup :
  NoDup (new_nid_of world1
         :: froms_of (linked "b" ["u0"] []) ++ tos_of (linked "b" ["u0"] [])).
Proof. vm_compute. apply (bool_decide_unpack _). vm_compute. reflexivity. Qed.

Lemma getNodesByOrigin_after_createNode_witness :
  ∃ w' json nodes,
    createNode (linked "b" ["u0"] []) world1 = (Returned (nid json), w')
    ∧ text json = "b"
    ∧ getNodesByOrigin origin_b w' = (Returned nodes, w')
    ∧ NodeUtil_fromJson json ∈ nodes.
Proof.
  apply (getNodesByOrigin_after_createNode (linked "b" ["u0"] [])
           origin_b world1).
  - apply kinded_world1.
  - apply linked_NoDup.
  - reflexivity.
Defined.

Lemma updateNode_then_getNode_witness :
  ∃ w' json,
    updateNode update_b world2
    = (Returned
         (inr ({| ack := true |},
               {| updated_nid := "u1"; updated_text := Some "b2";
                  updated_index_text := None |})), w')
    ∧ getNode "u1" w' = (Returned (NodeUtil_fromJson json), w')
    ∧ node_record w' "u1" = Some (json, aux_b)
    ∧ text json = "b2"
    ∧ index_text json = Some "idx"
    ∧ updated_at json = clock world2
    ∧ nid json = "u1" ∧ ntype json = 3%nat
    ∧ extattrs json = Some "ext" ∧ created_at json = 1000
    ∧ (∀ key, key ≠ stringify (NidToNodeYek "u1") →
              storage w' !! key = storage world2 !! key)
    ∧ calls w'
      = calls world2
        ++ [StorageSet [(stringify (NidToNodeYek "u1"),
                         NidToNodeLav json aux_b)]].
Proof.
  apply (updateNode_then_getNode update_b world2 node_b aux_b).
  by vm_compute.
Defined.

Lemma updateNode_missing_witness :
  updateNode update_missing world1
  = (Returned (inl (UpdateNodeNotFound "zz")), world1)
  ∧ getNode "zz" world1 = (Thrown (NodeNotFound "zz"), world1).
Proof.
  apply (updateNode_missing update_missing world1).
  - apply kinded_world1.
  - by vm_compute.
Defined.




Lemma bulkDeleteNodes_removes_witness :
  ∃ w' listed,
    bulkDeleteNodes via_p world_p1
    = (Returned (inr (length (pipeline_index world_p1 pipeline_p))), w')
    ∧ getAllNids w' = (Returned listed, w')
    ∧ (∀ nid, nid ∈ pipeline_index world_p1 pipeline_p →
              getNode nid w' = (Thrown (NodeNotFound nid), w')
              ∧ getNodeSimilaritySearchInfo nid w' = (Returned None, w')
              ∧ (nid ∉ tag_nid <$> listing w')
              ∧ nid ∉ listed)
    ∧ pipeline_index w' pipeline_p = []
    ∧ getUserIngestionProgress pipeline_p w'
      = (Returned {| epid := pipeline_p; ingested_until := 0 |}, w').
Proof.
  apply (bulkDeleteNodes_removes via_p pipeline_p world_p1).
  - apply kinded_world_p1.
  - reflexivity.
  - vm_compute. constructor.
  - vm_compute. apply NoDup_singleton.
Defined.

Lemma bulkDeleteNodes_partial_witness :
  ∃ key w' listed,
    bulkDeleteNodes via_p world_p2 = (Thrown (SetDuplicateKey key), w')
    ∧ calls w'
      = calls world_p2
        ++ [StorageRemove
              (stringify
               <$> bulkDelete_toRemove pipeline_p
                     (pipeline_index world_p2 pipeline_p))]
    ∧ (∀ nid, nid ∈ pipeline_index world_p2 pipeline_p →
              getNode nid w' = (Thrown (NodeNotFound nid), w'))
    ∧ pipeline_index w' pipeline_p = []
    ∧ listing w' = listing world_p2
    ∧ getAllNids w' = (Returned listed, w')
    ∧ (∀ nid, nid ∈ tag_nid <$> listing world_p2 → nid ∈ listed).
Proof.
  apply (bulkDeleteNodes_partial via_p pipeline_p world_p2).
  - apply kinded_world_p2.
  - reflexivity.
  - right. vm_compute. intros Hnd. apply NoDup_cons in Hnd as [Hnin _].
    apply Hnin. left.
Defined.

Lemma deleteNode_always_removes_witness :
  ∃ outcome w',
    deleteNode "u0" world2 = (outcome, w')
    ∧ getNode "u0" w' = (Thrown (NodeNotFound "u0"), w')
    ∧ getNodeSimilaritySearchInfo "u0" w' = (Returned None, w')
    ∧ events w' = events world2 ++ [EventWillDelete "u0"]
    ∧ (outcome = Returned {| ack := true |}
       ∨ ∃ key, outcome = Thrown (SetDuplicateKey key)).
Proof.
  apply (deleteNode_always_removes "u0" world2). apply kinded_world2.
Defined.

Lemma deleteNode_partial_witness :
  ∃ key w' listed,
    deleteNode "u0" world_twice = (Thrown (SetDuplicateKey key), w')
    ∧ calls w'
      = calls world_twice
        ++ [StorageRemove (stringify <$> deleteNode_toRemove "u0")]
    ∧ listing w' = listing world_twice
    ∧ getAllNids w' = (Returned listed, w')
    ∧ ("u0" ∈ tag_nid <$> listing world_twice → "u0" ∈ listed)
    ∧ (∀ other, other ≠ "u0" → bucket w' other = bucket world_twice other).
Proof.
  apply (deleteNode_partial "u0" world_twice).
  - apply kinded_world_twice.
  - vm_compute. intros Hnd. apply NoDup_cons in Hnd as [Hnin _].
    apply Hnin. left.
Defined.

Lemma iterator_drains_witness :
  ∃ it0 it1 found,
    Iterator.create world2 = (Returned it0, world2)
    ∧ drain (S (length (listing world2))) it0 world2
      = (Returned (NodeUtil_fromJson <$> found, it1), world2)
    ∧ Forall2 (fun nid value => stored_node world2 nid = Some value)
        (tag_nid <$> sort_latest_first (listing world2)) found
    ∧ Iterator.total it1 = length (listing world2)
    ∧ Iterator.next it1 world2 = (Returned (None, it1), world2)
    ∧ Iterator.total (Iterator.abort it1) = 0%nat
    ∧ Iterator.next (Iterator.abort it1) world2
      = (Returned (None, Iterator.abort it1), world2).
Proof.
  apply (iterator_drains world2).
  - apply kinded_world2.
  - assert (tag_nid <$> listing world2 = ["u0"; "u1"]) as -> by reflexivity.
    intros nid Hin.
    apply elem_of_cons in Hin as [->|Hin]; [by vm_compute; eexists|].
    apply list_elem_of_singleton in Hin as ->. by vm_compute; eexists.
Defined.

Lemma createNode_writes_once_witness :
  ∃ nid w' records,
    createNode (linked "b" ["u0"] []) world1 = (Returned nid, w')
    ∧ calls w' = calls world1 ++ [StorageSet records]
    ∧ events w'
      = events world1 ++ [EventCreated nid "b" (Some "idx") (Some "ext") 3%nat]
    ∧ listing w'
      = listing world1 ++ [{| tag_nid := nid; tag_created_at := 1000 |}]
    ∧ (∀ origin, args_origin (linked "b" ["u0"] []) = Some origin →
                 origin_index w' origin = origin_index world1 origin ++ [nid])
    ∧ (∀ pipeline,
         args_created_via (linked "b" ["u0"] []) ≫= autoIngestion
         = Some pipeline →
         pipeline_index w' pipeline
         = pipeline_index world1 pipeline ++ [nid]).
Proof.
  apply (createNode_writes_once (linked "b" ["u0"] []) world1).
  - apply kinded_world1.
  - apply linked_NoDup.
Defined.

Lemma getAllNids_stable_witness :
  ∃ tags,
    getAllNids world2 = (Returned (tag_nid <$> tags), world2)
    ∧ tags ≡ₚ listing world2
    ∧ ∀ c, filter (fun t => tag_created_at t = c) tags
           = filter (fun t => tag_created_at t = c) (listing world2).
Proof. apply (getAllNids_stable world2). apply kinded_world2. Defined.

Lemma recordAssociation_self_witness :
  recordAssociation A A "t" empty
  = (Thrown (SetDuplicateKey (stringify (OriginToExtAssociationYek A))),
     empty).
Proof.
  apply (recordAssociation_self A "t" empty).
  - by apply kinded_empty.
  - reflexivity.
Defined.


Lemma api_casts_are_safe_witness :
  kinded (run_calls session empty)
  ∧ ∀ call key,
      (perform call (run_calls session empty)).1
      ≠ Some (inl (UncheckedCast key)).
Proof. apply (api_casts_are_safe session empty). by apply kinded_empty. Defined.

End MoreOnSample.
